(** * Symbol table, list-based implementation (symtablelist.c)

    A shallow embedding of the C library in a small state-and-failure monad
    over a heap of objects, followed by the properties of its interface
    ([SymTable_new], [SymTable_free], [SymTable_getLength],
    [SymTable_contains], [SymTable_put], [SymTable_map], [SymTable_get],
    [SymTable_remove]).

    Conventions of the model:
    - the heap maps addresses to whole objects (a [struct SymTable], a
      [struct abind], a [char] array, an [int] of the caller); reading what
      is not there, or an object of another kind, is undefined behaviour;
    - [malloc] is a parameter: any function from the heap and the size
      requested to an address, [NULL] when it fails;
    - [assert] is compiled in: a failed assertion aborts;
    - [unsigned int] and [int] are 32 bits wide;
    - a [while] loop runs for at most [fuel] turns; the facts proved say
      for which [fuel] a call returns, and that more does not change what it
      returns. *)

From Stdlib Require Import ZArith Ascii Lia.
From stdpp Require Import base option list gmap strings.

Open Scope Z_scope.

(** * The model *)

(** ** Pointers and heap objects *)

(** A pointer is an address; address 0 is the C null pointer. *)
Definition pointer := N.
Definition NULL : pointer := 0%N.

(** [struct abind]: a binding owns its key, it does not own its value. *)
Record abind := mk_abind { key : pointer; value : pointer; next : pointer }.

(** [struct SymTable]: number of bindings and pointer to the first one. *)
Record SymTable := mk_SymTable { uiSize : Z; first : pointer }.

(** What a live allocation holds.  [OChars] is a [char] array, [OInt] an
    [int] of the caller (the values the driver binds are addresses of
    [int]s). *)
Inductive obj :=
| OChars (cs : list ascii)
| OBind (b : abind)
| OSymTable (t : SymTable)
| OInt (i : Z).

Abbreviation mem := (gmap N obj).

(** Dereferencing: the null pointer and addresses that are not allocated
    hold nothing. *)
Definition deref (m : mem) (p : pointer) : option obj :=
  if decide (p = NULL) then None else m !! p.

(** ** Machine integers *)

(** [unsigned int] is 32 bits wide; arithmetic on it is modulo [2^32]. *)
Definition UINT_MODULUS : Z := 2 ^ 32.
Definition uint (z : Z) : Z := z mod UINT_MODULUS.

(** [int] is 32 bits wide, two's complement. *)
Definition INT_MIN : Z := - 2 ^ 31.
Definition INT_MAX : Z := 2 ^ 31 - 1.

(** Object sizes handed to [malloc] (LP64 layout). *)
Definition sizeof_char : Z := 1.
Definition sizeof_abind : Z := 24.
Definition sizeof_SymTable : Z := 16.

(** ** Outcomes and the monad of C computations *)

Inductive outcome (A : Type) : Type :=
| Ret (a : A) (m : mem)    (* normal return, with the heap it leaves *)
| Abort                    (* a failed [assert]: the process is aborted *)
| Undef                    (* undefined behaviour (invalid access) *)
| Fuel.                    (* the loop bound of the model was exhausted *)
Arguments Ret {A} a m.
Arguments Abort {A}.
Arguments Undef {A}.
Arguments Fuel {A}.

Definition M (A : Type) : Type := mem -> outcome A.

Definition ret {A} (a : A) : M A := fun m => Ret a m.

Definition bind {A B} (c : M A) (k : A -> M B) : M B :=
  fun m =>
    match c m with
    | Ret a m' => k a m'
    | Abort => Abort
    | Undef => Undef
    | Fuel => Fuel
    end.

Declare Scope c_scope.
Delimit Scope c_scope with C.
Notation "'do' x <- c ; k" := (bind c (fun x => k))
  (at level 10, x name, c at level 99, k at level 200) : c_scope.
Notation "c ;; k" := (bind c (fun _ => k))
  (at level 100, k at level 200, right associativity) : c_scope.
Open Scope c_scope.

Definition abort {A} : M A := fun _ => Abort.
Definition undef {A} : M A := fun _ => Undef.
Definition out_of_fuel {A} : M A := fun _ => Fuel.

(** [assert(e)] *)
Definition assert (b : bool) : M unit :=
  if b then ret tt else abort.

(** Truth value of a pointer used as a condition. *)
Definition nonnull (p : pointer) : bool := negb (p =? NULL)%N.

(** ** Memory primitives *)

Definition load_SymTable (p : pointer) : M SymTable :=
  fun m => match deref m p with Some (OSymTable t) => Ret t m | _ => Undef end.

Definition load_abind (p : pointer) : M abind :=
  fun m => match deref m p with Some (OBind b) => Ret b m | _ => Undef end.

Definition load_chars (p : pointer) : M (list ascii) :=
  fun m => match deref m p with Some (OChars cs) => Ret cs m | _ => Undef end.

Definition load_int (p : pointer) : M Z :=
  fun m => match deref m p with Some (OInt i) => Ret i m | _ => Undef end.

Definition store_SymTable (p : pointer) (t : SymTable) : M unit :=
  fun m => match deref m p with
           | Some (OSymTable _) => Ret tt (<[p := OSymTable t]> m)
           | _ => Undef
           end.

Definition store_abind (p : pointer) (b : abind) : M unit :=
  fun m => match deref m p with
           | Some (OBind _) => Ret tt (<[p := OBind b]> m)
           | _ => Undef
           end.

Definition store_int (p : pointer) (i : Z) : M unit :=
  fun m => match deref m p with
           | Some (OInt _) => Ret tt (<[p := OInt i]> m)
           | _ => Undef
           end.

(** Field assignments [p->f = v]. *)
Definition set_uiSize (p : pointer) (v : Z) : M unit :=
  do t <- load_SymTable p; store_SymTable p (mk_SymTable v (first t)).
Definition set_first (p : pointer) (v : pointer) : M unit :=
  do t <- load_SymTable p; store_SymTable p (mk_SymTable (uiSize t) v).
Definition set_key (p : pointer) (v : pointer) : M unit :=
  do b <- load_abind p; store_abind p (mk_abind v (value b) (next b)).
Definition set_value (p : pointer) (v : pointer) : M unit :=
  do b <- load_abind p; store_abind p (mk_abind (key b) v (next b)).
Definition set_next (p : pointer) (v : pointer) : M unit :=
  do b <- load_abind p; store_abind p (mk_abind (key b) (value b) v).

(** [free(p)]: releasing the null pointer does nothing, releasing what is
    not allocated is undefined. *)
Definition free (p : pointer) : M unit :=
  fun m => if decide (p = NULL) then Ret tt m
           else match m !! p with
                | Some _ => Ret tt (delete p m)
                | None => Undef
                end.

(** ** C strings *)

Definition NUL : ascii := Ascii.zero.

(** [strlen]: number of characters before the first NUL; reading an array
    with no NUL runs past its end. *)
Fixpoint strlen (s : list ascii) : option nat :=
  match s with
  | [] => None
  | c :: r => if decide (c = NUL) then Some O else S <$> strlen r
  end.

(** The characters of the string an array holds (those before the first
    NUL). *)
Fixpoint cstring (s : list ascii) : list ascii :=
  match s with
  | [] => []
  | c :: r => if decide (c = NUL) then [] else c :: cstring r
  end.

(** [strcmp]: characters are compared as [unsigned char]; zero exactly when
    the two strings are equal. *)
Fixpoint strcmp (s1 s2 : list ascii) : option Z :=
  match s1, s2 with
  | c1 :: r1, c2 :: r2 =>
      if decide (c1 = c2)
      then (if decide (c1 = NUL) then Some 0 else strcmp r1 r2)
      else Some (Z.of_N (N_of_ascii c1) - Z.of_N (N_of_ascii c2))
  | _, _ => None
  end.

Definition lift {A} (o : option A) : M A :=
  match o with Some a => ret a | None => undef end.

(** [strcpy(dst, src)]: copies up to and including the NUL into the array
    at [dst], which has to be large enough. *)
Definition strcpy (dst : pointer) (src : list ascii) : M unit :=
  fun m =>
    match deref m dst, strlen src with
    | Some (OChars buf), Some n =>
        if decide (S n <= length buf)%nat
        then Ret tt (<[dst := OChars (take (S n) src ++ drop (S n) buf)]> m)
        else Undef
    | _, _ => Undef
    end.

(** A [const char *] argument: [None] is the null pointer, [Some s] points
    to the character array [s] of the caller. *)
Definition assert_str (pcKey : option (list ascii)) : M (list ascii) :=
  match pcKey with Some s => ret s | None => abort end.

(** ** The library *)

(** [SymTable_new]: takes the allocator's answer from [malloc]. *)
Section Allocation.

(** The allocator: given the heap and the size requested, the address it
    hands out ([NULL] when it has no memory left). *)
Variable malloc : mem -> Z -> pointer.

(** [p = malloc(size)], the new object holding [init] (the model's stand-in
    for indeterminate contents). *)
Definition alloc (size : Z) (init : obj) : M pointer :=
  fun m =>
    let p := malloc m size in
    if decide (p = NULL) then Ret NULL m else Ret p (<[p := init]> m).

Definition SymTable_new : M pointer :=
  do symtable <- alloc sizeof_SymTable (OSymTable (mk_SymTable 0 NULL));
  assert (nonnull symtable) ;;
  set_uiSize symtable 0 ;;
  set_first symtable NULL ;;
  ret symtable.

End Allocation.

(** The [while (ptr)] loop of [SymTable_free]. *)
Fixpoint free_loop (fuel : nat) (ptr : pointer) : M unit :=
  match fuel with
  | O => out_of_fuel
  | S fuel' =>
      if nonnull ptr then
        (* remember pointer to next binding before deleting current *)
        do b <- load_abind ptr;
        let ptr_next := next b in
        free (key b) ;;
        free ptr ;;
        free_loop fuel' ptr_next
      else ret tt
  end.

(** [SymTable_free]: a null table is let through. *)
Definition SymTable_free (fuel : nat) (oSymTable : pointer) : M unit :=
  let symtable := oSymTable in
  if negb (nonnull symtable) then ret tt
  else
    do t <- load_SymTable symtable;
    free_loop fuel (first t) ;;
    free symtable.

(** [SymTable_getLength] *)
Definition SymTable_getLength (oSymTable : pointer) : M Z :=
  let symtable := oSymTable in
  assert (nonnull symtable) ;;
  do t <- load_SymTable symtable;
  ret (uiSize t).

(** The [while (ptr)] loop of [SymTable_contains]. *)
Fixpoint contains_loop (fuel : nat) (ptr : pointer) (pcKey : list ascii) : M Z :=
  match fuel with
  | O => out_of_fuel
  | S fuel' =>
      if nonnull ptr then
        do b <- load_abind ptr;
        do k <- load_chars (key b);
        do c <- lift (strcmp k pcKey);
        if (c =? 0) then ret 1
        else contains_loop fuel' (next b) pcKey
      else ret 0
  end.

Definition SymTable_contains (fuel : nat) (oSymTable : pointer)
    (pcKey : option (list ascii)) : M Z :=
  let symtable := oSymTable in
  assert (nonnull symtable) ;;
  do pcKey <- assert_str pcKey;
  do t <- load_SymTable symtable;
  contains_loop fuel (first t) pcKey.

Section Put.

Variable malloc : mem -> Z -> pointer.

(** [SymTable_put] *)
Definition SymTable_put (fuel : nat) (oSymTable : pointer)
    (pcKey : option (list ascii)) (pvValue : pointer) : M Z :=
  let symtable := oSymTable in
  assert (nonnull symtable) ;;
  do key_chars <- assert_str pcKey;
  (* do nothing if pcKey already exists in the table *)
  do found <- SymTable_contains fuel symtable pcKey;
  if negb (found =? 0) then ret 0
  else
    (* pcKey not found -> allocate memory for a new binding + key *)
    do new_bind <- alloc malloc sizeof_abind (OBind (mk_abind NULL NULL NULL));
    assert (nonnull new_bind) ;;
    do n <- lift (strlen key_chars);
    do new_key <- alloc malloc ((Z.of_nat n + 1) * sizeof_char)
                    (OChars (replicate (S n) NUL));
    assert (nonnull new_key) ;;
    (* copy pcKey into new_key *)
    strcpy new_key key_chars ;;
    (* initialize binding *)
    set_key new_bind new_key ;;
    set_value new_bind pvValue ;;
    (* binding is inserted first *)
    do t <- load_SymTable symtable;
    set_next new_bind (first t) ;;
    set_first symtable new_bind ;;
    do t <- load_SymTable symtable;
    set_uiSize symtable (uint (uiSize t + 1)) ;;
    ret 1.

End Put.

(** The [while (ptr)] loop of [SymTable_map].  The callback runs on the
    same heap; the next pointer is read after it returns. *)
Fixpoint map_loop (fuel : nat) (ptr : pointer)
    (pfApply : pointer -> pointer -> pointer -> M unit) (pvExtra : pointer) : M unit :=
  match fuel with
  | O => out_of_fuel
  | S fuel' =>
      if nonnull ptr then
        do b <- load_abind ptr;
        pfApply (key b) (value b) pvExtra ;;
        do b <- load_abind ptr;
        map_loop fuel' (next b) pfApply pvExtra
      else ret tt
  end.

(** [SymTable_map]: a null function pointer is [None]. *)
Definition SymTable_map (fuel : nat) (oSymTable : pointer)
    (pfApply : option (pointer -> pointer -> pointer -> M unit)) (pvExtra : pointer) : M unit :=
  let symtable := oSymTable in
  assert (nonnull symtable) ;;
  match pfApply with
  | None => abort
  | Some pfApply =>
      do t <- load_SymTable symtable;
      map_loop fuel (first t) pfApply pvExtra
  end.

(** The [while (ptr)] loop of [SymTable_get]. *)
Fixpoint get_loop (fuel : nat) (ptr : pointer) (pcKey : list ascii) : M pointer :=
  match fuel with
  | O => out_of_fuel
  | S fuel' =>
      if nonnull ptr then
        do b <- load_abind ptr;
        do k <- load_chars (key b);
        do c <- lift (strcmp k pcKey);
        if (c =? 0) then ret (value b)
        else get_loop fuel' (next b) pcKey
      else ret NULL
  end.

Definition SymTable_get (fuel : nat) (oSymTable : pointer)
    (pcKey : option (list ascii)) : M pointer :=
  let symtable := oSymTable in
  assert (nonnull symtable) ;;
  do pcKey <- assert_str pcKey;
  do t <- load_SymTable symtable;
  get_loop fuel (first t) pcKey.

(** The [while (ptr)] loop of [SymTable_remove]; [ptr_prev] is the local
    variable of that name. *)
Fixpoint remove_loop (fuel : nat) (symtable : pointer) (ptr ptr_prev : pointer)
    (pcKey : list ascii) : M Z :=
  match fuel with
  | O => out_of_fuel
  | S fuel' =>
      if nonnull ptr then
        do b <- load_abind ptr;
        do k <- load_chars (key b);
        do c <- lift (strcmp k pcKey);
        if negb (c =? 0) then
          remove_loop fuel' symtable (next b) ptr pcKey
        else
          do t <- load_SymTable symtable;
          (if (ptr =? first t)%N
           then set_first symtable (next b)
           else set_next ptr_prev (next b)) ;;
          do t <- load_SymTable symtable;
          set_uiSize symtable (uint (uiSize t - 1)) ;;
          do b <- load_abind ptr;
          free (key b) ;;
          free ptr ;;
          ret 1
      else ret 0
  end.

(** [SymTable_remove]: [ptr_prev] starts out indeterminate (here [NULL]);
    it is assigned before it is read. *)
Definition SymTable_remove (fuel : nat) (oSymTable : pointer)
    (pcKey : option (list ascii)) : M Z :=
  let symtable := oSymTable in
  assert (nonnull symtable) ;;
  do pcKey <- assert_str pcKey;
  do t <- load_SymTable symtable;
  remove_loop fuel symtable (first t) NULL pcKey.

(** ** The driver's callback *)

(** [update_bind] of the driver: [*val += *val_extra], on [int]. *)
Definition update_bind (pcKey pvValue pvExtra : pointer) : M unit :=
  assert (nonnull pvValue) ;;
  assert (nonnull pvExtra) ;;
  do v <- load_int pvValue;
  do e <- load_int pvExtra;
  if decide (INT_MIN <= v + e <= INT_MAX)
  then store_int pvValue (v + e)
  else undef.

(** ** Allocators *)

(** What [malloc] guarantees: a block it hands out is not one in use. *)
Definition allocator_sound (malloc : mem -> Z -> pointer) : Prop :=
  ∀ m size, malloc m size ≠ NULL -> m !! malloc m size = None.

(** The highest address in use. *)
Definition top (m : mem) : N := map_fold (fun a _ acc => N.max a acc) 0%N m.

(** Hands out the address after the highest one in use. *)
Definition bump (m : mem) (size : Z) : pointer := N.succ (top m).

(** ** The table a heap holds *)

(** One binding of the chain as the caller sees it, with where it lives:
    the address of its [struct abind], the address of its key array, the
    characters of its key and the value pointer it holds. *)
Record binding := mk_binding {
  b_addr : pointer;
  b_kaddr : pointer;
  b_key : list ascii;
  b_value : pointer
}.

Definition head_addr (l : list binding) : pointer :=
  match l with
  | [] => NULL
  | b :: _ => b_addr b
  end.

(** The heap holds the chain [l], linked in that order and ended by
    [NULL]. *)
Fixpoint chain (m : mem) (l : list binding) : Prop :=
  match l with
  | [] => True
  | b :: l' =>
      b_addr b ≠ NULL ∧ b_kaddr b ≠ NULL
      ∧ m !! b_addr b = Some (OBind (mk_abind (b_kaddr b) (b_value b) (head_addr l')))
      ∧ m !! b_kaddr b = Some (OChars (b_key b ++ [NUL]))
      ∧ (NUL ∉ b_key b)
      ∧ chain m l'
  end.

(** The addresses a chain occupies. *)
Definition addrs (l : list binding) : list pointer :=
  (b_addr <$> l) ++ (b_kaddr <$> l).

(** [table_rep m t sz l]: at [t] the heap [m] holds a [struct SymTable]
    with count [sz] whose chain is [l]. *)
Definition table_rep (m : mem) (t : pointer) (sz : Z) (l : list binding) : Prop :=
  t ≠ NULL
  ∧ m !! t = Some (OSymTable (mk_SymTable sz (head_addr l)))
  ∧ chain m l
  ∧ NoDup (addrs l).

Definition keys (l : list binding) : list (list ascii) := b_key <$> l.

(** First binding of the chain with the given key. *)
Fixpoint find_binding (k : list ascii) (l : list binding) : option binding :=
  match l with
  | [] => None
  | b :: l' => if decide (b_key b = k) then Some b else find_binding k l'
  end.

(** The chain without its first binding with the given key. *)
Fixpoint unlink (k : list ascii) (l : list binding) : list binding :=
  match l with
  | [] => []
  | b :: l' => if decide (b_key b = k) then l' else b :: unlink k l'
  end.

(** The chain cut at its first binding with key [k]: the bindings before
    it, the binding itself, the bindings after it. *)
Fixpoint split_key (k : list ascii) (l : list binding)
  : option (list binding * binding * list binding) :=
  match l with
  | [] => None
  | b :: l' =>
      if decide (b_key b = k) then Some ([], b, l')
      else match split_key k l' with
           | Some (pre, x, post) => Some (b :: pre, x, post)
           | None => None
           end
  end.

(** The objects that make up the table: its header and its chain. *)
Definition footprint (t : pointer) (l : list binding) : list pointer :=
  t :: addrs l.

(** ** What the operations return and leave *)

Definition contains_result (k : list ascii) (l : list binding) : Z :=
  match find_binding k l with Some _ => 1 | None => 0 end.

Definition get_result (k : list ascii) (l : list binding) : pointer :=
  match find_binding k l with Some b => b_value b | None => NULL end.

(** The heap a successful [SymTable_put] leaves: the key array at [nk], the
    binding at [nb] in front of the old chain, the header updated. *)
Definition put_heap (m : mem) (t : pointer) (sz : Z) (old_first nb nk : pointer)
    (k : list ascii) (v : pointer) : mem :=
  <[t := OSymTable (mk_SymTable (uint (sz + 1)) nb)]>
    (<[nb := OBind (mk_abind nk v old_first)]>
       (<[nk := OChars (cstring k ++ [NUL])]> m)).

(** The heap a successful [SymTable_remove] leaves when the chain is
    [pre ++ x :: post] and [x] is the binding removed: the link that led to
    [x] (the header's [first], or the [next] of the last binding of [pre])
    now leads to what followed [x], the count is one less, the binding and
    its key array are released. *)
Definition unlink_heap (m : mem) (t : pointer) (sz : Z)
    (pre : list binding) (x : binding) (post : list binding) : mem :=
  delete (b_addr x)
    (delete (b_kaddr x)
       (<[t := OSymTable (mk_SymTable (uint (sz - 1)) (head_addr (pre ++ post)))]>
          (match last pre with
           | None => m
           | Some p =>
               <[b_addr p := OBind (mk_abind (b_kaddr p) (b_value p) (head_addr post))]> m
           end))).

(** What [SymTable_remove] returns and leaves, from the cut of the chain at
    the key. *)
Definition remove_outcome (m : mem) (t : pointer) (sz : Z)
    (before : list binding) (k : list ascii) (l : list binding) : outcome Z :=
  match split_key k l with
  | Some (pre, x, post) => Ret 1 (unlink_heap m t sz (before ++ pre) x post)
  | None => Ret 0 m
  end.

(** ** Traversal, call by call *)

Abbreviation callback := (pointer -> pointer -> pointer -> M unit).

(** Calling [pfApply(key, value, pvExtra)] for the bindings of [l], one call
    per binding, in the order of [l]. *)
Fixpoint for_each (l : list binding) (pfApply : callback) (pvExtra : pointer)
  : M unit :=
  match l with
  | [] => ret tt
  | b :: l' =>
      pfApply (b_kaddr b) (b_value b) pvExtra ;;
      for_each l' pfApply pvExtra
  end.

(** The callback, on the bindings of [l], leaves the objects at [fp] as
    they are. *)
Definition leaves_alone (pfApply : callback) (pvExtra : pointer)
    (l : list binding) (fp : list pointer) : Prop :=
  ∀ b, b ∈ l ->
  ∀ (m1 m2 : mem),
    pfApply (b_kaddr b) (b_value b) pvExtra m1 = Ret tt m2 ->
    ∀ a, a ∈ fp -> m2 !! a = m1 !! a.

(** One call of the callback: the key pointer, the value pointer and the
    extra pointer it is given. *)
Definition call : Type := pointer * pointer * pointer.

(** The calls a traversal of the chain [l] makes, in order: one for each
    binding, with the address of its key array, its value pointer, and the
    same [pvExtra]. *)
Definition calls_of (l : list binding) (pvExtra : pointer) : list call :=
  (fun b => (b_kaddr b, b_value b, pvExtra)) <$> l.

(** Making the calls [cs] one after the other. *)
Fixpoint run_calls (pfApply : callback) (cs : list call) : M unit :=
  match cs with
  | [] => ret tt
  | (k, v, e) :: cs' => pfApply k v e ;; run_calls pfApply cs'
  end.

(** ** Sequences of calls *)

(** A mutating call of the interface, with the key array and the value
    pointer the caller passes. *)
Inductive op :=
| Put (k : list ascii) (v : pointer)
| Remove (k : list ascii).

(** [reach malloc t ops m]: starting with [SymTable_new], which returned
    [t], the calls [ops] were made on [t] in that order, each returned, and
    the heap is now [m].  Keys are NUL-terminated arrays.  Between the
    calls the caller may do to the heap what it likes (its values, its own
    allocations, the callbacks of a traversal), the objects of the table
    excepted. *)
Inductive reach (malloc : mem -> Z -> pointer) (t : pointer)
  : list op -> mem -> Prop :=
| reach_new (m0 m : mem) :
    SymTable_new malloc m0 = Ret t m ->
    reach malloc t [] m
| reach_caller ops (m m' : mem) :
    reach malloc t ops m ->
    (∀ sz l, table_rep m t sz l ->
             ∀ a, a ∈ footprint t l -> m' !! a = m !! a) ->
    reach malloc t ops m'
| reach_put ops (m m' : mem) k n v fuel r :
    reach malloc t ops m ->
    strlen k = Some n ->
    SymTable_put malloc fuel t (Some k) v m = Ret r m' ->
    reach malloc t (ops ++ [Put k v]) m'
| reach_remove ops (m m' : mem) k n fuel r :
    reach malloc t ops m ->
    strlen k = Some n ->
    SymTable_remove fuel t (Some k) m = Ret r m' ->
    reach malloc t (ops ++ [Remove k]) m'.

(** What a binding associates: the characters of its key and its value
    pointer. *)
Definition entry : Type := list ascii * pointer.

Definition entries (l : list binding) : list entry :=
  (fun b => (b_key b, b_value b)) <$> l.

(** The bindings inserted and not removed since, oldest first, as the
    sequence of calls determines them: a [Put] of a key that is not bound
    adds a binding at the end, a [Put] of a bound key changes nothing, a
    [Remove] takes the binding of that key away. *)
Definition log_step (log : list entry) (o : op) : list entry :=
  match o with
  | Put k v =>
      if decide (cstring k ∈ log.*1) then log else log ++ [(cstring k, v)]
  | Remove k => filter (fun e => e.1 ≠ cstring k) log
  end.

Definition insertion_order (ops : list op) : list entry :=
  fold_left log_step ops [].

(** What the calls are given: the key pointer of a call leads to the
    array that holds the key of the entry, the value pointer is the value of
    the entry, the third argument is [e]. *)
Definition call_of_entry (m : mem) (e : pointer) (c : call) (en : entry) : Prop :=
  m !! c.1.1 = Some (OChars (en.1 ++ [NUL])) ∧ c.1.2 = en.2 ∧ c.2 = e.

(** Running a list of calls, for building tables on a given heap. *)
Fixpoint run_ops (malloc : mem -> Z -> pointer) (fuel : nat) (t : pointer)
    (ops : list op) : M unit :=
  match ops with
  | [] => ret tt
  | Put k v :: ops' =>
      SymTable_put malloc fuel t (Some k) v ;; run_ops malloc fuel t ops'
  | Remove k :: ops' =>
      SymTable_remove fuel t (Some k) ;; run_ops malloc fuel t ops'
  end.

Definition op_key (o : op) : list ascii :=
  match o with Put k _ => k | Remove k => k end.

(** [j] calls in a row, and what each returned. *)
Fixpoint repeat_call {A} (j : nat) (c : M A) : M (list A) :=
  match j with
  | O => ret []
  | S j' => do r <- c; do rs <- repeat_call j' c; ret (r :: rs)
  end.

(** ** Deciding the representation on a given heap *)

Global Instance abind_eq_dec : EqDecision abind.
Proof. solve_decision. Defined.
Global Instance SymTable_eq_dec : EqDecision SymTable.
Proof. solve_decision. Defined.
Global Instance obj_eq_dec : EqDecision obj.
Proof. solve_decision. Defined.
Global Instance binding_eq_dec : EqDecision binding.
Proof. solve_decision. Defined.

Global Instance chain_dec (m : mem) l : Decision (chain m l).
Proof. induction l as [|b l IH]; simpl; apply _. Defined.

Global Instance table_rep_dec (m : mem) t sz l : Decision (table_rep m t sz l).
Proof. unfold table_rep. apply _. Defined.

(** ** A session of the driver

    Two [int]s of the caller at addresses 10 and 11 (the values bound), an
    [int] at 12 (the [pvExtra] of the driver, 2); then [SymTable_new], and
    [SymTable_put] of ["a"] and ["b"], with the bump allocator. *)

(** The array a string literal denotes. *)
Definition str (s : string) : list ascii := String.list_ascii_of_string s ++ [NUL].

Definition caller_heap : mem :=
  <[10%N := OInt 7]> (<[11%N := OInt 8]> (<[12%N := OInt 2]> ∅)).

Definition session_table : pointer := 13%N.

Definition session_heap : mem :=
  <[13%N := OSymTable (mk_SymTable 2 16%N)]>
    (<[16%N := OBind (mk_abind 17%N 11%N 14%N)]>
       (<[17%N := OChars (str "b")]>
          (<[14%N := OBind (mk_abind 15%N 10%N NULL)]>
             (<[15%N := OChars (str "a")]> caller_heap)))).

Definition session_chain : list binding :=
  [ mk_binding 16%N 17%N (String.list_ascii_of_string "b") 11%N;
    mk_binding 14%N 15%N (String.list_ascii_of_string "a") 10%N ].

Definition session_puts : list op :=
  [ Put (str "a") 10%N; Put (str "b") 11%N ].

Definition session_ops : list op :=
  [ Put (str "a") 10%N; Put (str "b") 11%N; Put (str "a") 12%N;
    Remove (str "c"); Remove (str "a"); Put (str "c") 12%N ].

Definition session_final : mem :=
  <[13%N := OSymTable (mk_SymTable 2 18%N)]>
    (<[18%N := OBind (mk_abind 19%N 12%N 16%N)]>
       (<[19%N := OChars (str "c")]>
          (<[16%N := OBind (mk_abind 17%N 11%N NULL)]>
             (<[17%N := OChars (str "b")]> caller_heap)))).

(** ** As many different keys as wanted *)

(** Pairwise different keys, as many as wanted: the binary digits of
    [i + 1], least significant first. *)
Fixpoint pos_key (p : positive) : list ascii :=
  match p with
  | xH => ["1"%char]
  | xO q => "0"%char :: pos_key q
  | xI q => "1"%char :: pos_key q
  end.

Definition nth_key (i : nat) : list ascii :=
  pos_key (Pos.of_succ_nat i) ++ [NUL].

(** [n] insertions, of the keys [nth_key 0], ..., [nth_key (n - 1)]. *)
Fixpoint puts (n : nat) : list op :=
  match n with
  | O => []
  | S n' => puts n' ++ [Put (nth_key n') NULL]
  end.

(** ** The history as a map, and the room an [int] has *)

(** What the bindings [log] associate with the key [k]. *)
Fixpoint log_find (k : list ascii) (log : list entry) : option pointer :=
  match log with
  | [] => None
  | e :: log' => if decide (e.1 = k) then Some e.2 else log_find k log'
  end.

(** At [p] the heap holds an [int] to which [d] can be added without
    overflow. *)
Definition int_room (m : mem) (d : Z) (p : pointer) : Prop :=
  match m !! p with
  | Some (OInt i) => INT_MIN <= i + d <= INT_MAX
  | _ => False
  end.

Global Instance int_room_dec (m : mem) d p : Decision (int_room m d p).
Proof. unfold int_room. destruct (m !! p) as [[| | |i]|]; apply _. Defined.

(** The values the bindings hold, in chain order. *)
Definition values (l : list binding) : list pointer := b_value <$> l.

(** An allocator with no memory left, and one that serves the request for
    a [struct abind] and fails on every other. *)
Definition no_memory (m : mem) (size : Z) : pointer := NULL.

Definition bindings_only (m : mem) (size : Z) : pointer :=
  if (size =? sizeof_abind) then bump m size else NULL.

(** The session with a third key, ["c"], bound to the null pointer between
    ["a"] and ["b"]. *)
Definition null_heap : mem :=
  <[13%N := OSymTable (mk_SymTable 3 18%N)]>
    (<[18%N := OBind (mk_abind 19%N 11%N 16%N)]>
       (<[19%N := OChars (str "b")]>
          (<[16%N := OBind (mk_abind 17%N NULL 14%N)]>
             (<[17%N := OChars (str "c")]>
                (<[14%N := OBind (mk_abind 15%N 10%N NULL)]>
                   (<[15%N := OChars (str "a")]> caller_heap)))))).

Definition null_chain : list binding :=
  [ mk_binding 18%N 19%N (String.list_ascii_of_string "b") 11%N;
    mk_binding 16%N 17%N (String.list_ascii_of_string "c") NULL;
    mk_binding 14%N 15%N (String.list_ascii_of_string "a") 10%N ].


(** What the heap is made of while the library works on a table created on
    the heap [m0]: the table, on addresses [m0] did not use, and beside it
    [m0] as it was. *)
Definition beside (m0 m : mem) (t : pointer) (l : list binding) : Prop :=
  (∀ a, a ∈ footprint t l -> m0 !! a = None)
  ∧ (∀ a, a ∉ footprint t l -> m !! a = m0 !! a).

(** ** Proof automation *)

Ltac lookup_ins :=
  repeat first
    [ rewrite lookup_insert_eq
    | rewrite lookup_insert_ne by congruence ];
  try reflexivity; try eassumption.

Ltac decide_it := apply (bool_decide_unpack _); vm_compute; reflexivity.

(** * Facts about the model *)

(** ** Basic facts: the monad and the heap *)

Lemma nonnull_true p : p ≠ NULL -> nonnull p = true.
Proof.
  intros H. unfold nonnull. destruct (N.eqb_spec p NULL); [contradiction | reflexivity].
Qed.

Lemma deref_nonnull (m : mem) p : p ≠ NULL -> deref m p = m !! p.
Proof. intros H. unfold deref. destruct (decide (p = NULL)); [contradiction | reflexivity]. Qed.

Lemma deref_Some (m : mem) p o : p ≠ NULL -> m !! p = Some o -> deref m p = Some o.
Proof. intros H1 H2. rewrite deref_nonnull; assumption. Qed.

Lemma elem_of_addrs_cons a b l :
  a ∈ addrs (b :: l) ↔ a = b_addr b ∨ a = b_kaddr b ∨ a ∈ addrs l.
Proof.
  unfold addrs. simpl.
  rewrite elem_of_cons, !elem_of_app, elem_of_cons. tauto.
Qed.

Lemma elem_of_addrs_nil a : a ∈ addrs [] ↔ False.
Proof. unfold addrs. simpl. apply elem_of_nil. Qed.

Lemma elem_of_addrs_app a l1 l2 :
  a ∈ addrs (l1 ++ l2) ↔ a ∈ addrs l1 ∨ a ∈ addrs l2.
Proof.
  unfold addrs. rewrite !fmap_app, !elem_of_app. tauto.
Qed.

(** A chain only depends on the objects at its own addresses. *)
Lemma chain_frame (m m' : mem) l :
  chain m l ->
  (∀ a, a ∈ addrs l -> m' !! a = m !! a) ->
  chain m' l.
Proof.
  induction l as [|b l IH]; simpl; [tauto|].
  intros (Ha & Hk & Hb & Hc & Hz & Hl) Hfr.
  repeat split; try assumption.
  - rewrite Hfr; [assumption|]. apply elem_of_addrs_cons. tauto.
  - rewrite Hfr; [assumption|]. apply elem_of_addrs_cons. tauto.
  - apply IH; [assumption|]. intros a Ha'. apply Hfr.
    apply elem_of_addrs_cons. tauto.
Qed.

(** Every address of a chain is allocated and is not the null pointer. *)
Lemma chain_allocated (m : mem) l a :
  chain m l -> a ∈ addrs l -> a ≠ NULL ∧ is_Some (m !! a).
Proof.
  induction l as [|b l IH]; simpl.
  - intros _ Hin. apply elem_of_addrs_nil in Hin. contradiction.
  - intros (Ha & Hk & Hb & Hc & Hz & Hl) Hin.
    apply elem_of_addrs_cons in Hin as [->|[->|Hin']].
    + split; [assumption | eauto].
    + split; [assumption | eauto].
    + apply IH; assumption.
Qed.

(** The objects of a chain are bindings and character arrays. *)
Lemma chain_not_table (m : mem) l a t :
  chain m l -> a ∈ addrs l -> m !! a ≠ Some (OSymTable t).
Proof.
  induction l as [|b l IH]; simpl.
  - intros _ Hin. apply elem_of_addrs_nil in Hin. contradiction.
  - intros (Ha & Hk & Hb & Hc & Hz & Hl) Hin.
    apply elem_of_addrs_cons in Hin as [->|[->|Hin']].
    + rewrite Hb. discriminate.
    + rewrite Hc. discriminate.
    + apply IH; assumption.
Qed.

(** The table header is not one of the chain's objects. *)
Lemma table_not_in_chain (m : mem) t sz l :
  table_rep m t sz l -> t ∉ addrs l.
Proof.
  intros (Ht & Hm & Hc & Hnd) Hin.
  eapply chain_not_table in Hin; [|eassumption]. eauto.
Qed.

(** Running the memory primitives on known contents. *)
Lemma bind_Ret {A B} (c : M A) (k : A -> M B) m a m' :
  c m = Ret a m' -> bind c k m = k a m'.
Proof. intros H. unfold bind. rewrite H. reflexivity. Qed.

Lemma load_SymTable_eq (m : mem) p t :
  p ≠ NULL -> m !! p = Some (OSymTable t) -> load_SymTable p m = Ret t m.
Proof. intros H1 H2. unfold load_SymTable. rewrite (deref_Some m p _ H1 H2). reflexivity. Qed.

Lemma load_abind_eq (m : mem) p b :
  p ≠ NULL -> m !! p = Some (OBind b) -> load_abind p m = Ret b m.
Proof. intros H1 H2. unfold load_abind. rewrite (deref_Some m p _ H1 H2). reflexivity. Qed.

Lemma load_chars_eq (m : mem) p cs :
  p ≠ NULL -> m !! p = Some (OChars cs) -> load_chars p m = Ret cs m.
Proof. intros H1 H2. unfold load_chars. rewrite (deref_Some m p _ H1 H2). reflexivity. Qed.

Lemma store_SymTable_eq (m : mem) p t0 t :
  p ≠ NULL -> m !! p = Some (OSymTable t0) ->
  store_SymTable p t m = Ret tt (<[p := OSymTable t]> m).
Proof. intros H1 H2. unfold store_SymTable. rewrite (deref_Some m p _ H1 H2). reflexivity. Qed.

Lemma store_abind_eq (m : mem) p b0 b :
  p ≠ NULL -> m !! p = Some (OBind b0) ->
  store_abind p b m = Ret tt (<[p := OBind b]> m).
Proof. intros H1 H2. unfold store_abind. rewrite (deref_Some m p _ H1 H2). reflexivity. Qed.

Lemma set_uiSize_eq (m : mem) p t v :
  p ≠ NULL -> m !! p = Some (OSymTable t) ->
  set_uiSize p v m = Ret tt (<[p := OSymTable (mk_SymTable v (first t))]> m).
Proof.
  intros H1 H2. unfold set_uiSize.
  rewrite (bind_Ret _ _ _ _ _ (load_SymTable_eq m p t H1 H2)).
  eapply store_SymTable_eq; eassumption.
Qed.

Lemma set_first_eq (m : mem) p t v :
  p ≠ NULL -> m !! p = Some (OSymTable t) ->
  set_first p v m = Ret tt (<[p := OSymTable (mk_SymTable (uiSize t) v)]> m).
Proof.
  intros H1 H2. unfold set_first.
  rewrite (bind_Ret _ _ _ _ _ (load_SymTable_eq m p t H1 H2)).
  eapply store_SymTable_eq; eassumption.
Qed.

Lemma set_key_eq (m : mem) p b v :
  p ≠ NULL -> m !! p = Some (OBind b) ->
  set_key p v m = Ret tt (<[p := OBind (mk_abind v (value b) (next b))]> m).
Proof.
  intros H1 H2. unfold set_key.
  rewrite (bind_Ret _ _ _ _ _ (load_abind_eq m p b H1 H2)).
  eapply store_abind_eq; eassumption.
Qed.

Lemma set_value_eq (m : mem) p b v :
  p ≠ NULL -> m !! p = Some (OBind b) ->
  set_value p v m = Ret tt (<[p := OBind (mk_abind (key b) v (next b))]> m).
Proof.
  intros H1 H2. unfold set_value.
  rewrite (bind_Ret _ _ _ _ _ (load_abind_eq m p b H1 H2)).
  eapply store_abind_eq; eassumption.
Qed.

Lemma set_next_eq (m : mem) p b v :
  p ≠ NULL -> m !! p = Some (OBind b) ->
  set_next p v m = Ret tt (<[p := OBind (mk_abind (key b) (value b) v)]> m).
Proof.
  intros H1 H2. unfold set_next.
  rewrite (bind_Ret _ _ _ _ _ (load_abind_eq m p b H1 H2)).
  eapply store_abind_eq; eassumption.
Qed.

Lemma free_eq (m : mem) p o :
  p ≠ NULL -> m !! p = Some o -> free p m = Ret tt (delete p m).
Proof.
  intros H1 H2. unfold free. destruct (decide (p = NULL)); [contradiction|].
  rewrite H2. reflexivity.
Qed.

(** ** Basic facts: C strings *)

Lemma strlen_cstring s n :
  strlen s = Some n ->
  length (cstring s) = n ∧ (NUL ∉ cstring s) ∧ take (S n) s = cstring s ++ [NUL].
Proof.
  revert n. induction s as [|c r IH]; simpl; intros n H; [discriminate|].
  destruct (decide (c = NUL)) as [->|Hc].
  - injection H as <-. simpl. rewrite take_0. split; [reflexivity|].
    split; [apply not_elem_of_nil | reflexivity].
  - destruct (strlen r) as [n'|] eqn:E; simpl in H; [|discriminate].
    injection H as <-. destruct (IH n' eq_refl) as (H1 & H2 & H3).
    simpl. split; [congruence|]. split.
    + rewrite elem_of_cons. intros [Heq|Hin]; [congruence | contradiction].
    + f_equal. exact H3.
Qed.

(** The array [put] stores for a key: its characters, then the NUL. *)
Lemma strlen_terminated a :
  NUL ∉ a -> strlen (a ++ [NUL]) = Some (length a) ∧ cstring (a ++ [NUL]) = a.
Proof.
  induction a as [|c r IH]; simpl; intros H.
  - destruct (decide (NUL = NUL)); [tauto | congruence].
  - rewrite not_elem_of_cons in H. destruct H as [Hc Hr].
    destruct (decide (c = NUL)); [congruence|].
    destruct (IH Hr) as [-> ->]. simpl. tauto.
Qed.

(** [strcmp] against a NUL-terminated array always answers, and answers 0
    exactly for equal strings: the comparison is byte for byte. *)
Lemma strcmp_spec a k n :
  NUL ∉ a -> strlen k = Some n ->
  ∃ c, strcmp (a ++ [NUL]) k = Some c ∧ (c = 0 ↔ a = cstring k).
Proof.
  revert k n. induction a as [|x a IH]; intros k n Ha Hk.
  - destruct k as [|y k]; [discriminate|]. simpl in *.
    destruct (decide (NUL = y)) as [<-|Hy].
    + destruct (decide (NUL = NUL)); [|congruence]. exists 0. tauto.
    + eexists. split; [reflexivity|].
      destruct (decide (y = NUL)); [congruence|].
      split; [|discriminate]. intros H.
      assert (N_of_ascii y = 0%N) as H' by lia.
      apply (f_equal ascii_of_N) in H'. rewrite ascii_N_embedding in H'.
      simpl in H'. unfold NUL in *. congruence.
  - rewrite not_elem_of_cons in Ha. destruct Ha as [Hx Ha].
    destruct k as [|y k]; [discriminate|]. simpl in *.
    destruct (decide (x = y)) as [<-|Hxy].
    + destruct (decide (x = NUL)); [congruence|].
      destruct (strlen k) as [n'|] eqn:E; simpl in Hk; [|discriminate].
      destruct (IH k n' Ha E) as (c & Hc & Hiff).
      exists c. split; [assumption|]. rewrite Hiff. split; congruence.
    + eexists. split; [reflexivity|]. split.
      * intros H.
        assert (N_of_ascii x = N_of_ascii y) as H' by lia.
        apply (f_equal ascii_of_N) in H'. rewrite !ascii_N_embedding in H'. congruence.
      * destruct (decide (y = NUL)); congruence.
Qed.

(** ** The read-only operations on a represented table *)

(** One turn of a search loop: what comparing the key of the first binding
    with [k] yields. *)
Lemma compare_head (m : mem) b l k n :
  chain m (b :: l) -> strlen k = Some n ->
  ∃ c, load_abind (b_addr b) m
         = Ret (mk_abind (b_kaddr b) (b_value b) (head_addr l)) m
     ∧ load_chars (b_kaddr b) m = Ret (b_key b ++ [NUL]) m
     ∧ strcmp (b_key b ++ [NUL]) k = Some c
     ∧ (c = 0 ↔ b_key b = cstring k).
Proof.
  simpl. intros (Ha & Hk & Hb & Hc & Hz & Hl) Hn.
  destruct (strcmp_spec (b_key b) k n Hz Hn) as (c & Hcmp & Hiff).
  exists c. split; [apply load_abind_eq; assumption|].
  split; [apply load_chars_eq; assumption|]. tauto.
Qed.

Lemma contains_loop_spec (m : mem) l k n fuel :
  chain m l -> strlen k = Some n -> (length l < fuel)%nat ->
  contains_loop fuel (head_addr l) k m = Ret (contains_result (cstring k) l) m.
Proof.
  revert fuel. induction l as [|b l IH]; intros fuel Hc Hn Hf;
    (destruct fuel as [|fuel]; [simpl in Hf; lia|]).
  - reflexivity.
  - destruct (compare_head m b l k n Hc Hn) as (c & Hlb & Hlc & Hcmp & Hiff).
    simpl in Hc. destruct Hc as (Ha & _ & _ & _ & _ & Hl).
    simpl. rewrite (nonnull_true _ Ha).
    rewrite (bind_Ret _ _ _ _ _ Hlb). simpl.
    rewrite (bind_Ret _ _ _ _ _ Hlc). rewrite Hcmp. simpl.
    unfold bind at 1, ret at 1. unfold contains_result. simpl.
    destruct (Z.eqb_spec c 0) as [Hc0|Hc0].
    + destruct (decide (b_key b = cstring k)); [reflexivity | tauto].
    + destruct (decide (b_key b = cstring k)); [tauto|].
      apply IH; [assumption | assumption | simpl in Hf; lia].
Qed.

Lemma get_loop_spec (m : mem) l k n fuel :
  chain m l -> strlen k = Some n -> (length l < fuel)%nat ->
  get_loop fuel (head_addr l) k m = Ret (get_result (cstring k) l) m.
Proof.
  revert fuel. induction l as [|b l IH]; intros fuel Hc Hn Hf;
    (destruct fuel as [|fuel]; [simpl in Hf; lia|]).
  - reflexivity.
  - destruct (compare_head m b l k n Hc Hn) as (c & Hlb & Hlc & Hcmp & Hiff).
    simpl in Hc. destruct Hc as (Ha & _ & _ & _ & _ & Hl).
    simpl. rewrite (nonnull_true _ Ha).
    rewrite (bind_Ret _ _ _ _ _ Hlb). simpl.
    rewrite (bind_Ret _ _ _ _ _ Hlc). rewrite Hcmp. simpl.
    unfold bind at 1, ret at 1. unfold get_result. simpl.
    destruct (Z.eqb_spec c 0) as [Hc0|Hc0].
    + destruct (decide (b_key b = cstring k)); [reflexivity | tauto].
    + destruct (decide (b_key b = cstring k)); [tauto|].
      apply IH; [assumption | assumption | simpl in Hf; lia].
Qed.

Lemma SymTable_getLength_spec (m : mem) t sz l :
  table_rep m t sz l -> SymTable_getLength t m = Ret sz m.
Proof.
  intros (Ht & Hm & _). unfold SymTable_getLength.
  rewrite (nonnull_true _ Ht). simpl. unfold bind at 1, ret at 1.
  rewrite (bind_Ret _ _ _ _ _ (load_SymTable_eq m t _ Ht Hm)). reflexivity.
Qed.

Lemma SymTable_contains_spec (m : mem) t sz l k n fuel :
  table_rep m t sz l -> strlen k = Some n -> (length l < fuel)%nat ->
  SymTable_contains fuel t (Some k) m = Ret (contains_result (cstring k) l) m.
Proof.
  intros (Ht & Hm & Hc & _) Hn Hf. unfold SymTable_contains.
  rewrite (nonnull_true _ Ht). simpl. unfold bind at 1, ret at 1.
  unfold bind at 1, ret at 1.
  rewrite (bind_Ret _ _ _ _ _ (load_SymTable_eq m t _ Ht Hm)). simpl.
  eapply contains_loop_spec; eassumption.
Qed.

Lemma SymTable_get_spec (m : mem) t sz l k n fuel :
  table_rep m t sz l -> strlen k = Some n -> (length l < fuel)%nat ->
  SymTable_get fuel t (Some k) m = Ret (get_result (cstring k) l) m.
Proof.
  intros (Ht & Hm & Hc & _) Hn Hf. unfold SymTable_get.
  rewrite (nonnull_true _ Ht). simpl. unfold bind at 1, ret at 1.
  unfold bind at 1, ret at 1.
  rewrite (bind_Ret _ _ _ _ _ (load_SymTable_eq m t _ Ht Hm)). simpl.
  eapply get_loop_spec; eassumption.
Qed.

(** ** Insertion *)

Lemma alloc_eq malloc (m : mem) size init :
  malloc m size ≠ NULL ->
  alloc malloc size init m = Ret (malloc m size) (<[malloc m size := init]> m).
Proof.
  intros H. unfold alloc. destruct (decide (malloc m size = NULL)); [contradiction | reflexivity].
Qed.

Lemma alloc_fail malloc (m : mem) size init :
  malloc m size = NULL -> alloc malloc size init m = Ret NULL m.
Proof.
  intros H. unfold alloc. destruct (decide (malloc m size = NULL)); [reflexivity | contradiction].
Qed.

Lemma strcpy_eq (m : mem) dst buf src n :
  dst ≠ NULL -> m !! dst = Some (OChars buf) -> strlen src = Some n ->
  (S n <= length buf)%nat ->
  strcpy dst src m = Ret tt (<[dst := OChars (take (S n) src ++ drop (S n) buf)]> m).
Proof.
  intros H1 H2 H3 H4. unfold strcpy. rewrite (deref_Some m dst _ H1 H2), H3.
  destruct (decide (S n <= length buf)%nat); [reflexivity | contradiction].
Qed.

Section PutRun.

Variable malloc : mem -> Z -> pointer.
Variables (m : mem) (t : pointer) (sz : Z) (l : list binding).
Variables (k : list ascii) (n : nat) (v : pointer) (fuel : nat).

Hypothesis Hrep : table_rep m t sz l.
Hypothesis Hlen : strlen k = Some n.
Hypothesis Hfuel : (length l < fuel)%nat.

(** A bound key: nothing happens. *)
Lemma put_bound :
  find_binding (cstring k) l ≠ None ->
  SymTable_put malloc fuel t (Some k) v m = Ret 0 m.
Proof.
  intros Hfind. unfold SymTable_put.
  destruct Hrep as (Ht & _). rewrite (nonnull_true _ Ht). simpl.
  unfold bind at 1, ret at 1. unfold bind at 1, ret at 1.
  rewrite (bind_Ret _ _ _ _ _ (SymTable_contains_spec m t sz l k n fuel Hrep Hlen Hfuel)).
  unfold contains_result. destruct (find_binding (cstring k) l); [reflexivity | congruence].
Qed.

Let nb : pointer := malloc m sizeof_abind.
Let m1 : mem := <[nb := OBind (mk_abind NULL NULL NULL)]> m.
Let nk : pointer := malloc m1 ((Z.of_nat n + 1) * sizeof_char).

(** An unbound key: the run of the function, step by step. *)
Lemma put_absent :
  allocator_sound malloc ->
  find_binding (cstring k) l = None ->
  nb ≠ NULL -> nk ≠ NULL ->
  SymTable_put malloc fuel t (Some k) v m
  = Ret 1 (put_heap m t sz (head_addr l) nb nk k v).
Proof.
  intros Hsound Hfind Hnb Hnk. unfold SymTable_put.
  destruct Hrep as (Ht & Hm & Hc & Hnd). rewrite (nonnull_true _ Ht). simpl.
  unfold bind at 1, ret at 1. unfold bind at 1, ret at 1.
  rewrite (bind_Ret _ _ _ _ _ (SymTable_contains_spec m t sz l k n fuel Hrep Hlen Hfuel)).
  unfold contains_result. rewrite Hfind. simpl.
  pose proof (Hsound m sizeof_abind Hnb) as Hfb. fold nb in Hfb.
  pose proof (Hsound m1 _ Hnk) as Hfk. fold nk in Hfk.
  assert (nk ≠ nb) as Hne.
  { intros E. rewrite E in Hfk. unfold m1 in Hfk. rewrite lookup_insert_eq in Hfk. discriminate. }
  assert (m !! nk = None) as Hfk'.
  { unfold m1 in Hfk. rewrite lookup_insert_ne in Hfk by congruence. exact Hfk. }
  assert (t ≠ nb) as Htb by congruence.
  assert (t ≠ nk) as Htk by congruence.
  destruct (strlen_cstring k n Hlen) as (_ & _ & Htake).
  rewrite (bind_Ret _ _ _ _ _ (alloc_eq malloc m _ _ Hnb)). fold nb. fold m1.
  rewrite (nonnull_true _ Hnb). simpl. unfold bind at 1, ret at 1.
  rewrite Hlen. simpl. unfold bind at 1, ret at 1.
  rewrite (bind_Ret _ _ _ _ _ (alloc_eq malloc m1 _ _ Hnk)). fold nk.
  rewrite (nonnull_true _ Hnk). simpl. unfold bind at 1, ret at 1.
  erewrite bind_Ret; cycle 1.
  { eapply strcpy_eq; [exact Hnk | lookup_ins | exact Hlen |].
    simpl. rewrite length_replicate. lia. }
  rewrite Htake.
  replace (drop (S n) (NUL :: replicate n NUL)) with (@nil ascii)
    by (simpl; rewrite drop_replicate, Nat.sub_diag; reflexivity).
  rewrite app_nil_r.
  erewrite bind_Ret; cycle 1.
  { eapply set_key_eq; [exact Hnb | unfold m1; lookup_ins]. }
  simpl.
  erewrite bind_Ret; cycle 1.
  { eapply set_value_eq; [exact Hnb | lookup_ins]. }
  simpl.
  erewrite bind_Ret; cycle 1.
  { eapply load_SymTable_eq; [exact Ht | unfold m1; lookup_ins]. }
  simpl.
  erewrite bind_Ret; cycle 1.
  { eapply set_next_eq; [exact Hnb | lookup_ins]. }
  simpl.
  erewrite bind_Ret; cycle 1.
  { eapply set_first_eq; [exact Ht | unfold m1; lookup_ins]. }
  simpl.
  erewrite bind_Ret; cycle 1.
  { eapply load_SymTable_eq; [exact Ht | lookup_ins]. }
  simpl.
  erewrite bind_Ret; cycle 1.
  { eapply set_uiSize_eq; [exact Ht | lookup_ins]. }
  simpl. unfold ret. f_equal.
  unfold put_heap, m1. apply map_eq. intros a.
  repeat (rewrite lookup_insert; case_decide); subst; try congruence.
Qed.

(** The new heap holds the old chain behind the new binding. *)
Lemma put_heap_rep :
  allocator_sound malloc ->
  nb ≠ NULL -> nk ≠ NULL ->
  table_rep (put_heap m t sz (head_addr l) nb nk k v) t (uint (sz + 1))
    (mk_binding nb nk (cstring k) v :: l).
Proof.
  intros Hsound Hnb Hnk.
  pose proof (table_not_in_chain _ _ _ _ Hrep) as Htl.
  destruct Hrep as (Ht & Hm & Hc & Hnd).
  pose proof (Hsound m sizeof_abind Hnb) as Hfb. fold nb in Hfb.
  pose proof (Hsound m1 _ Hnk) as Hfk. fold nk in Hfk.
  assert (nk ≠ nb) as Hne.
  { intros E. rewrite E in Hfk. unfold m1 in Hfk. rewrite lookup_insert_eq in Hfk. discriminate. }
  assert (m !! nk = None) as Hfk'.
  { unfold m1 in Hfk. rewrite lookup_insert_ne in Hfk by congruence. exact Hfk. }
  assert (t ≠ nb) as Htb by congruence.
  assert (t ≠ nk) as Htk by congruence.
  assert (nb ∉ addrs l) as Hbl.
  { intros Hin. destruct (chain_allocated m l nb Hc Hin) as [_ [o Ho]]. congruence. }
  assert (nk ∉ addrs l) as Hkl.
  { intros Hin. destruct (chain_allocated m l nk Hc Hin) as [_ [o Ho]]. congruence. }
  destruct (strlen_cstring k n Hlen) as (_ & Hz & _).
  unfold put_heap. split; [exact Ht|]. split; [lookup_ins|]. split.
  - simpl. repeat split; try assumption.
    + lookup_ins.
    + lookup_ins.
    + eapply chain_frame; [exact Hc|]. intros a Ha.
      rewrite !lookup_insert_ne; [reflexivity | | |]; congruence.
  - unfold addrs in *. simpl.
    apply NoDup_cons. split.
    + rewrite elem_of_app, elem_of_cons. rewrite elem_of_app in Hbl.
      intros [H|[H|H]]; [tauto | congruence | tauto].
    + apply NoDup_app in Hnd as (Hn1 & Hn2 & Hn3).
      apply NoDup_app. split; [assumption|]. split.
      * intros a Ha. rewrite elem_of_cons. intros [->|H].
        -- apply Hkl. apply elem_of_app. tauto.
        -- eapply Hn2; eassumption.
      * apply NoDup_cons. split; [|assumption].
        intros H. apply Hkl. apply elem_of_app. tauto.
Qed.

(** Allocation failure is fatal, whichever of the two requests fails. *)
Lemma put_out_of_memory :
  find_binding (cstring k) l = None ->
  nb = NULL ∨ nk = NULL ->
  SymTable_put malloc fuel t (Some k) v m = Abort.
Proof.
  intros Hfind Hnull. unfold SymTable_put.
  destruct Hrep as (Ht & Hm & Hc & Hnd). rewrite (nonnull_true _ Ht). simpl.
  unfold bind at 1, ret at 1. unfold bind at 1, ret at 1.
  rewrite (bind_Ret _ _ _ _ _ (SymTable_contains_spec m t sz l k n fuel Hrep Hlen Hfuel)).
  unfold contains_result. rewrite Hfind. simpl.
  destruct (decide (nb = NULL)) as [Hb|Hb].
  - rewrite (bind_Ret _ _ _ _ _ (alloc_fail malloc m _ _ Hb)). reflexivity.
  - destruct Hnull as [?|Hk]; [contradiction|].
    rewrite (bind_Ret _ _ _ _ _ (alloc_eq malloc m _ _ Hb)). fold nb. fold m1.
    rewrite (nonnull_true _ Hb). simpl. unfold bind at 1, ret at 1.
    rewrite Hlen. simpl. unfold bind at 1, ret at 1.
    rewrite (bind_Ret _ _ _ _ _ (alloc_fail malloc m1 _ _ Hk)). reflexivity.
Qed.

End PutRun.

(** ** Removal *)

Lemma split_key_Some k l pre x post :
  split_key k l = Some (pre, x, post) ->
  l = pre ++ x :: post ∧ b_key x = k ∧ (k ∉ keys pre)
  ∧ unlink k l = pre ++ post ∧ find_binding k l = Some x.
Proof.
  revert pre. induction l as [|b l IH]; simpl; intros pre H; [discriminate|].
  destruct (decide (b_key b = k)) as [Hk|Hk].
  - injection H as <- <- <-. simpl. repeat split; try assumption; try reflexivity.
    apply not_elem_of_nil.
  - destruct (split_key k l) as [[[pre' x'] post']|] eqn:E; [|discriminate].
    injection H as <- <- <-.
    destruct (IH pre' eq_refl) as (H1 & H2 & H3 & H4 & H5).
    simpl. repeat split; try assumption; try congruence.
    unfold keys in *. simpl. rewrite not_elem_of_cons. split; [congruence | assumption].
Qed.

Lemma split_key_None k l :
  split_key k l = None ->
  (k ∉ keys l) ∧ unlink k l = l ∧ find_binding k l = None.
Proof.
  induction l as [|b l IH]; simpl; intros H.
  - repeat split. apply not_elem_of_nil.
  - destruct (decide (b_key b = k)) as [Hk|Hk]; [discriminate|].
    destruct (split_key k l) as [[[pre' x'] post']|] eqn:E; [discriminate|].
    destruct (IH eq_refl) as (H1 & H2 & H3).
    repeat split; try assumption; try congruence.
    unfold keys in *. simpl. rewrite not_elem_of_cons. split; [congruence | assumption].
Qed.

Lemma find_binding_None k l : find_binding k l = None ↔ k ∉ keys l.
Proof.
  unfold keys. induction l as [|b l IH]; simpl.
  - split; [intros _; apply not_elem_of_nil | reflexivity].
  - rewrite not_elem_of_cons. destruct (decide (b_key b = k)) as [Hk|Hk].
    + split; [discriminate | intros [H _]; congruence].
    + rewrite IH. split; [intros H; split; [congruence | assumption] | tauto].
Qed.

Lemma find_binding_split k l :
  find_binding k l ≠ None -> ∃ pre x post, split_key k l = Some (pre, x, post).
Proof.
  intros H. destruct (split_key k l) as [[[pre x] post]|] eqn:E; [eauto|].
  apply split_key_None in E. tauto.
Qed.

(** Distinct addresses, by parts of the chain. *)
Lemma NoDup_addrs_cons b l :
  NoDup (addrs (b :: l)) ↔
  b_addr b ≠ b_kaddr b ∧ (b_addr b ∉ addrs l) ∧ (b_kaddr b ∉ addrs l)
  ∧ NoDup (addrs l).
Proof.
  unfold addrs. simpl.
  rewrite <- Permutation_middle, !NoDup_cons, !elem_of_cons, !elem_of_app.
  split; intros H; intuition congruence.
Qed.

Lemma chain_app_r (m : mem) l1 l2 : chain m (l1 ++ l2) -> chain m l2.
Proof.
  induction l1 as [|b l1 IH]; simpl; [tauto|].
  intros (_ & _ & _ & _ & _ & H). auto.
Qed.

Lemma elem_of_addrs_addr b l : b ∈ l -> b_addr b ∈ addrs l.
Proof.
  intros H. unfold addrs. apply elem_of_app. left.
  apply list_elem_of_fmap. eauto.
Qed.

(** Relinking: a heap that agrees with [m] on the chain except for the
    [next] field of the last binding before [x], which now skips [x], holds
    the chain without [x]. *)
Lemma chain_relink (m m' : mem) pre x post :
  chain m (pre ++ x :: post) ->
  NoDup (addrs (pre ++ x :: post)) ->
  (∀ a, a ∈ addrs (pre ++ post) ->
        (∀ p, last pre = Some p -> a ≠ b_addr p) -> m' !! a = m !! a) ->
  (∀ p, last pre = Some p ->
        m' !! b_addr p
        = Some (OBind (mk_abind (b_kaddr p) (b_value p) (head_addr post)))) ->
  chain m' (pre ++ post).
Proof.
  induction pre as [|p pre IH]; intros Hc Hnd Hfr Hlast.
  - simpl in *. destruct Hc as (_ & _ & _ & _ & _ & Hc).
    eapply chain_frame; [exact Hc|]. intros a Ha. apply Hfr; [assumption|].
    intros p Hp. discriminate.
  - simpl in Hc. destruct Hc as (Ha & Hk & Hb & Hck & Hz & Hc).
    change ((p :: pre) ++ x :: post) with (p :: (pre ++ x :: post)) in Hnd.
    apply NoDup_addrs_cons in Hnd as (Hn1 & Hn2 & Hn3 & Hn4).
    assert (∀ q, last pre = Some q -> b_addr q ∈ addrs (pre ++ x :: post)) as Hq.
    { intros q Hq. apply elem_of_addrs_addr. apply elem_of_app. left.
      apply last_Some_elem_of. exact Hq. }
    simpl. repeat split; try assumption.
    + destruct pre as [|q pre].
      * apply Hlast. reflexivity.
      * simpl. simpl in Hb. rewrite <- Hb. apply Hfr.
        { apply elem_of_addrs_cons. tauto. }
        intros p' Hp'. rewrite last_cons_cons in Hp'.
        intros E. apply Hn2. rewrite E. apply Hq. exact Hp'.
    + rewrite <- Hck. apply Hfr.
      { apply elem_of_addrs_cons. tauto. }
      intros p' Hp'. rewrite last_cons in Hp'.
      destruct (last pre) as [q|] eqn:El.
      * injection Hp' as <-. intros E. apply Hn3. rewrite E. apply Hq. reflexivity.
      * injection Hp' as <-. congruence.
    + apply IH; try assumption.
      * intros a Hin Hne. apply Hfr.
        { apply elem_of_addrs_cons. tauto. }
        intros p' Hp'. rewrite last_cons in Hp'.
        destruct (last pre) as [q|] eqn:El.
        -- apply Hne. exact Hp'.
        -- injection Hp' as <-. apply last_None in El. subst pre.
           intros E. subst a. apply Hn2.
           simpl in *. unfold addrs in *. simpl.
           rewrite elem_of_cons, elem_of_app, elem_of_cons.
           rewrite elem_of_app in Hin. tauto.
      * intros p' Hp'. apply Hlast. rewrite last_cons, Hp'. reflexivity.
Qed.

Lemma NoDup_addrs_middle pre x post :
  NoDup (addrs (pre ++ x :: post)) ->
  NoDup (addrs (pre ++ post))
  ∧ (b_addr x ∉ addrs (pre ++ post))
  ∧ (b_kaddr x ∉ addrs (pre ++ post))
  ∧ b_addr x ≠ b_kaddr x.
Proof.
  induction pre as [|p pre IH]; simpl; intros H.
  - apply NoDup_addrs_cons in H. tauto.
  - apply NoDup_addrs_cons in H as (H1 & H2 & H3 & H4).
    destruct (IH H4) as (I1 & I2 & I3 & I4).
    rewrite elem_of_addrs_app, elem_of_addrs_cons in H2, H3.
    rewrite !elem_of_addrs_cons, NoDup_addrs_cons, !elem_of_addrs_app.
    rewrite elem_of_addrs_app in I2, I3.
    repeat split; try tauto; intuition congruence.
Qed.

Section Unlink.

Variables (m : mem) (t : pointer) (sz : Z).
Variables (pre : list binding) (x : binding) (post : list binding).
Hypothesis Hrep : table_rep m t sz (pre ++ x :: post).

Lemma unlink_facts :
  t ≠ b_addr x ∧ t ≠ b_kaddr x ∧ b_addr x ≠ b_kaddr x
  ∧ b_addr x ≠ NULL ∧ b_kaddr x ≠ NULL
  ∧ m !! b_addr x
    = Some (OBind (mk_abind (b_kaddr x) (b_value x) (head_addr post)))
  ∧ m !! b_kaddr x = Some (OChars (b_key x ++ [NUL]))
  ∧ (∀ p, last pre = Some p ->
       t ≠ b_addr p ∧ b_addr p ≠ b_addr x ∧ b_addr p ≠ b_kaddr x
       ∧ b_addr p ≠ NULL
       ∧ m !! b_addr p
         = Some (OBind (mk_abind (b_kaddr p) (b_value p) (b_addr x)))).
Proof.
  pose proof (table_not_in_chain _ _ _ _ Hrep) as Htl.
  destruct Hrep as (Ht & Hm & Hc & Hnd).
  destruct (NoDup_addrs_middle _ _ _ Hnd) as (N1 & N2 & N3 & N4).
  pose proof (chain_app_r _ _ _ Hc) as Hx. simpl in Hx.
  destruct Hx as (Hxa & Hxk & Hxb & Hxc & Hxz & Hpost).
  rewrite elem_of_addrs_app, elem_of_addrs_cons in Htl.
  repeat split; try assumption; try tauto.
  - intros E. apply Htl. left. rewrite E. apply elem_of_addrs_addr.
    apply last_Some_elem_of. assumption.
  - intros E. apply N2. rewrite <- E. apply elem_of_addrs_app. left.
    apply elem_of_addrs_addr. apply last_Some_elem_of. assumption.
  - intros E. apply N3. rewrite <- E. apply elem_of_addrs_app. left.
    apply elem_of_addrs_addr. apply last_Some_elem_of. assumption.
  - apply last_Some in H as [pre' ->]. rewrite <- app_assoc in Hc.
    apply chain_app_r in Hc. simpl in Hc. tauto.
  - apply last_Some in H as [pre' ->]. rewrite <- app_assoc in Hc.
    apply chain_app_r in Hc. simpl in Hc. tauto.
Qed.

(** Outside the header, the removed binding and the binding before it,
    the heap is as it was; the removed binding and its key are gone. *)
Lemma unlink_heap_frame :
  unlink_heap m t sz pre x post !! b_addr x = None
  ∧ unlink_heap m t sz pre x post !! b_kaddr x = None
  ∧ ∀ a, a ≠ t -> a ≠ b_addr x -> a ≠ b_kaddr x ->
         (∀ p, last pre = Some p -> a ≠ b_addr p) ->
         unlink_heap m t sz pre x post !! a = m !! a.
Proof.
  destruct unlink_facts as (F1 & F2 & F3 & _).
  unfold unlink_heap. split; [apply lookup_delete_eq|]. split.
  - rewrite lookup_delete_ne by congruence. apply lookup_delete_eq.
  - intros a H1 H2 H3 H4.
    rewrite !lookup_delete_ne, lookup_insert_ne by congruence.
    destruct (last pre) as [p|]; [|reflexivity].
    rewrite lookup_insert_ne; [reflexivity|]. intros E. eapply H4; eauto.
Qed.

Lemma unlink_heap_rep :
  table_rep (unlink_heap m t sz pre x post) t (uint (sz - 1)) (pre ++ post).
Proof.
  pose proof (table_not_in_chain _ _ _ _ Hrep) as Htl.
  destruct unlink_facts as (F1 & F2 & F3 & F4 & F5 & F6 & F7 & F8).
  destruct unlink_heap_frame as (_ & _ & Hfr).
  destruct Hrep as (Ht & Hm & Hc & Hnd).
  destruct (NoDup_addrs_middle _ _ _ Hnd) as (N1 & N2 & N3 & N4).
  split; [exact Ht|]. split; [|split; [|exact N1]].
  - unfold unlink_heap. rewrite !lookup_delete_ne by congruence.
    apply lookup_insert_eq.
  - eapply chain_relink; [exact Hc | exact Hnd | |].
    + intros a Ha Hne. apply Hfr; try assumption; try congruence.
      intros E. subst a. apply Htl.
      rewrite elem_of_addrs_app, elem_of_addrs_cons.
      rewrite elem_of_addrs_app in Ha. tauto.
    + intros p Hp. destruct (F8 p Hp) as (G1 & G2 & G3 & G4 & G5).
      unfold unlink_heap. rewrite !lookup_delete_ne by congruence.
      rewrite lookup_insert_ne by congruence. rewrite Hp.
      apply lookup_insert_eq.
Qed.

(** The statements of [SymTable_remove] that follow a match at [x], with
    [ptr_prev] pointing at the binding before [x] when there is one. *)
Lemma unlink_run ptr_prev :
  (∀ p, last pre = Some p -> ptr_prev = b_addr p) ->
  (do t0 <- load_SymTable t;
   (if (b_addr x =? first t0)%N
    then set_first t (head_addr post)
    else set_next ptr_prev (head_addr post)) ;;
   do t1 <- load_SymTable t;
   set_uiSize t (uint (uiSize t1 - 1)) ;;
   do b <- load_abind (b_addr x);
   free (key b) ;;
   free (b_addr x) ;;
   ret 1) m
  = Ret 1 (unlink_heap m t sz pre x post).
Proof.
  intros Hprev.
  destruct unlink_facts as (F1 & F2 & F3 & F4 & F5 & F6 & F7 & F8).
  destruct Hrep as (Ht & Hm & Hc & Hnd).
  rewrite (bind_Ret _ _ _ _ _ (load_SymTable_eq m t _ Ht Hm)). simpl.
  unfold unlink_heap.
  destruct (last pre) as [p|] eqn:El.
  - destruct (F8 p eq_refl) as (G1 & G2 & G3 & G4 & G5).
    rewrite (Hprev p eq_refl).
    assert (head_addr (pre ++ x :: post) = head_addr (pre ++ post)
            ∧ b_addr x ≠ head_addr (pre ++ x :: post)) as [Hh Hne].
    { destruct pre as [|q pre']; [discriminate|]. split; [reflexivity|].
      simpl. intros E.
      change ((q :: pre') ++ x :: post) with (q :: (pre' ++ x :: post)) in Hnd.
      apply NoDup_addrs_cons in Hnd as (_ & Hn & _). apply Hn. rewrite <- E.
      apply elem_of_addrs_app. right. apply elem_of_addrs_cons. tauto. }
    destruct (N.eqb_spec (b_addr x) (head_addr (pre ++ x :: post))) as [E|_];
      [contradiction|].
    erewrite bind_Ret; cycle 1.
    { eapply set_next_eq; [exact G4 | exact G5]. }
    simpl.
    erewrite bind_Ret; cycle 1.
    { eapply load_SymTable_eq; [exact Ht | lookup_ins]. }
    simpl.
    erewrite bind_Ret; cycle 1.
    { eapply set_uiSize_eq; [exact Ht | lookup_ins]. }
    simpl.
    erewrite bind_Ret; cycle 1.
    { eapply load_abind_eq; [exact F4 | lookup_ins]. }
    simpl.
    erewrite bind_Ret; cycle 1.
    { eapply free_eq; [exact F5 | lookup_ins]. }
    erewrite bind_Ret; cycle 1.
    { eapply free_eq; [exact F4 |].
      rewrite lookup_delete_ne by congruence. lookup_ins. }
    unfold ret. rewrite Hh. reflexivity.
  - apply last_None in El. subst pre. simpl in *.
    rewrite N.eqb_refl.
    erewrite bind_Ret; cycle 1.
    { eapply set_first_eq; [exact Ht | exact Hm]. }
    simpl.
    erewrite bind_Ret; cycle 1.
    { eapply load_SymTable_eq; [exact Ht | lookup_ins]. }
    simpl.
    erewrite bind_Ret; cycle 1.
    { eapply set_uiSize_eq; [exact Ht | lookup_ins]. }
    simpl.
    erewrite bind_Ret; cycle 1.
    { eapply load_abind_eq; [exact F4 | lookup_ins]. }
    simpl.
    erewrite bind_Ret; cycle 1.
    { eapply free_eq; [exact F5 | lookup_ins]. }
    erewrite bind_Ret; cycle 1.
    { eapply free_eq; [exact F4 |].
      rewrite lookup_delete_ne by congruence. lookup_ins. }
    unfold ret. rewrite insert_insert_eq. reflexivity.
Qed.

End Unlink.

(** The loop, entered at any point of the chain: [l1] has been passed,
    [ptr] is at the head of [l2], [ptr_prev] at the last binding of [l1]. *)
Lemma remove_loop_spec (m : mem) t sz k n :
  strlen k = Some n ->
  ∀ l2 l1 ptr_prev fuel,
    table_rep m t sz (l1 ++ l2) ->
    (∀ p, last l1 = Some p -> ptr_prev = b_addr p) ->
    (length l2 < fuel)%nat ->
    remove_loop fuel t (head_addr l2) ptr_prev k m
    = remove_outcome m t sz l1 (cstring k) l2.
Proof.
  intros Hn. induction l2 as [|b l2 IH]; intros l1 pp fuel Hrep Hprev Hf;
    (destruct fuel as [|fuel]; [simpl in Hf; lia|]).
  - reflexivity.
  - assert (chain m (b :: l2)) as Hc.
    { destruct Hrep as (_ & _ & Hc & _). eapply chain_app_r; exact Hc. }
    destruct (compare_head m b l2 k n Hc Hn) as (c & Hlb & Hlc & Hcmp & Hiff).
    simpl in Hc. destruct Hc as (Ha & _).
    unfold remove_outcome. simpl.
    rewrite (nonnull_true _ Ha).
    rewrite (bind_Ret _ _ _ _ _ Hlb). simpl.
    rewrite (bind_Ret _ _ _ _ _ Hlc). rewrite Hcmp. simpl.
    unfold bind at 1, ret at 1.
    destruct (Z.eqb_spec c 0) as [Hc0|Hc0]; simpl.
    + destruct (decide (b_key b = cstring k)); [|tauto].
      rewrite app_nil_r.
      apply (unlink_run m t sz l1 b l2 Hrep pp Hprev).
    + destruct (decide (b_key b = cstring k)); [tauto|].
      rewrite (IH (l1 ++ [b]) (b_addr b) fuel).
      * unfold remove_outcome.
        destruct (split_key (cstring k) l2) as [[[pre x] post]|]; [|reflexivity].
        rewrite <- app_assoc. reflexivity.
      * rewrite <- app_assoc. exact Hrep.
      * intros p Hp. rewrite last_snoc in Hp. congruence.
      * simpl in Hf. lia.
Qed.

Lemma SymTable_remove_spec (m : mem) t sz l k n fuel :
  table_rep m t sz l -> strlen k = Some n -> (length l < fuel)%nat ->
  SymTable_remove fuel t (Some k) m = remove_outcome m t sz [] (cstring k) l.
Proof.
  intros Hrep Hn Hf. unfold SymTable_remove.
  destruct Hrep as (Ht & Hm & Hc & Hnd). rewrite (nonnull_true _ Ht). simpl.
  unfold bind at 1, ret at 1. unfold bind at 1, ret at 1.
  rewrite (bind_Ret _ _ _ _ _ (load_SymTable_eq m t _ Ht Hm)). simpl.
  apply (remove_loop_spec m t sz k n Hn l [] NULL fuel).
  - repeat split; assumption.
  - intros p Hp. discriminate.
  - exact Hf.
Qed.

(** ** Creation *)

Lemma SymTable_new_spec malloc (m0 : mem) :
  malloc m0 sizeof_SymTable ≠ NULL ->
  let t := malloc m0 sizeof_SymTable in
  SymTable_new malloc m0 = Ret t (<[t := OSymTable (mk_SymTable 0 NULL)]> m0)
  ∧ table_rep (<[t := OSymTable (mk_SymTable 0 NULL)]> m0) t 0 [].
Proof.
  intros Ht t. split.
  - unfold SymTable_new.
    rewrite (bind_Ret _ _ _ _ _ (alloc_eq malloc m0 _ _ Ht)). fold t.
    rewrite (nonnull_true t Ht). simpl. unfold bind at 1, ret at 1.
    erewrite bind_Ret; cycle 1.
    { eapply set_uiSize_eq; [exact Ht | lookup_ins]. }
    simpl.
    erewrite bind_Ret; cycle 1.
    { eapply set_first_eq; [exact Ht | lookup_ins]. }
    simpl. unfold ret. rewrite !insert_insert_eq. reflexivity.
  - split; [exact Ht|]. split; [apply lookup_insert_eq|].
    split; [exact I | apply NoDup_nil_2].
Qed.

Lemma SymTable_new_returns malloc (m0 m : mem) t :
  SymTable_new malloc m0 = Ret t m ->
  malloc m0 sizeof_SymTable ≠ NULL ∧ t = malloc m0 sizeof_SymTable
  ∧ m = <[t := OSymTable (mk_SymTable 0 NULL)]> m0.
Proof.
  intros H. destruct (decide (malloc m0 sizeof_SymTable = NULL)) as [E|E].
  - unfold SymTable_new in H.
    rewrite (bind_Ret _ _ _ _ _ (alloc_fail malloc m0 _ _ E)) in H.
    discriminate.
  - destruct (SymTable_new_spec malloc m0 E) as [Hrun _].
    rewrite Hrun in H. injection H as <- <-. tauto.
Qed.

(** ** Traversal *)

Lemma map_loop_spec f e l :
  ∀ (m : mem) fuel,
    chain m l -> leaves_alone f e l (addrs l) -> (length l < fuel)%nat ->
    map_loop fuel (head_addr l) f e m = for_each l f e m.
Proof.
  induction l as [|b l IH]; intros m fuel Hc Hf Hfuel;
    (destruct fuel as [|fuel]; [simpl in Hfuel; lia|]).
  - reflexivity.
  - pose proof Hc as Hc'. simpl in Hc'.
    destruct Hc' as (Ha & Hk & Hb & Hck & Hz & Hl).
    simpl. rewrite (nonnull_true _ Ha).
    rewrite (bind_Ret _ _ _ _ _ (load_abind_eq m _ _ Ha Hb)). simpl.
    unfold bind.
    destruct (f (b_kaddr b) (b_value b) e m) as [[] m2| | |] eqn:Ef;
      try reflexivity.
    assert (∀ a, a ∈ addrs (b :: l) -> m2 !! a = m !! a) as Hfr.
    { intros a Hin. eapply Hf; [|exact Ef|exact Hin]. apply elem_of_cons. tauto. }
    pose proof (chain_frame m m2 _ Hc Hfr) as Hc2. simpl in Hc2.
    destruct Hc2 as (_ & _ & Hb2 & _ & _ & Hl2).
    rewrite (load_abind_eq m2 _ _ Ha Hb2). simpl.
    apply IH; [exact Hl2 | | simpl in Hfuel; lia].
    intros b' Hb' m1 m1' Hrun a Hin.
    eapply Hf; [|exact Hrun|].
    + apply elem_of_cons. tauto.
    + apply elem_of_addrs_cons. tauto.
Qed.

Lemma for_each_frame f e fp l0 l :
  ∀ (m m' : mem),
    (∀ b, b ∈ l -> b ∈ l0) ->
    leaves_alone f e l0 fp ->
    for_each l f e m = Ret tt m' ->
    ∀ a, a ∈ fp -> m' !! a = m !! a.
Proof.
  induction l as [|b l IH]; intros m m' Hsub Hf Hrun a Hin.
  - simpl in Hrun. injection Hrun as <-. reflexivity.
  - simpl in Hrun. unfold bind in Hrun.
    destruct (f (b_kaddr b) (b_value b) e m) as [[] m2| | |] eqn:Ef;
      try discriminate.
    rewrite (IH m2 m'); try assumption.
    + eapply Hf; [|exact Ef|exact Hin]. apply Hsub. apply elem_of_cons. tauto.
    + intros b' Hb'. apply Hsub. apply elem_of_cons. tauto.
Qed.

Lemma table_rep_frame (m m' : mem) t sz l :
  table_rep m t sz l ->
  (∀ a, a ∈ footprint t l -> m' !! a = m !! a) ->
  table_rep m' t sz l.
Proof.
  intros (Ht & Hm & Hc & Hnd) Hfr. unfold footprint in Hfr.
  split; [exact Ht|]. split; [|split; [|exact Hnd]].
  - rewrite Hfr; [exact Hm|]. apply elem_of_cons. tauto.
  - eapply chain_frame; [exact Hc|]. intros a Ha. apply Hfr.
    apply elem_of_cons. tauto.
Qed.

Lemma SymTable_map_spec (m : mem) t sz l f e fuel :
  table_rep m t sz l -> leaves_alone f e l (footprint t l) ->
  (length l < fuel)%nat ->
  SymTable_map fuel t (Some f) e m = for_each l f e m.
Proof.
  intros (Ht & Hm & Hc & Hnd) Hf Hfuel. unfold SymTable_map.
  rewrite (nonnull_true _ Ht). simpl. unfold bind at 1, ret at 1.
  rewrite (bind_Ret _ _ _ _ _ (load_SymTable_eq m t _ Ht Hm)). simpl.
  apply map_loop_spec; try assumption.
  intros b Hb m1 m2 Hrun a Ha. eapply Hf; [exact Hb | exact Hrun |].
  unfold footprint. apply elem_of_cons. tauto.
Qed.

(** ** The loop bound does not matter once a call returns *)

Lemma contains_loop_more_fuel fuel :
  ∀ ptr k (m : mem) r m',
    contains_loop fuel ptr k m = Ret r m' ->
    contains_loop (S fuel) ptr k m = Ret r m'.
Proof.
  induction fuel as [|fuel IH]; intros ptr k m r m' H; [discriminate|].
  change (contains_loop (S (S fuel)) ptr k m) with
    ((if nonnull ptr then
        do b <- load_abind ptr;
        do k0 <- load_chars (key b);
        do c <- lift (strcmp k0 k);
        if (c =? 0) then ret 1 else contains_loop (S fuel) (next b) k
      else ret 0) m).
  simpl in H. destruct (nonnull ptr); [|exact H].
  unfold bind in *.
  destruct (load_abind ptr m) as [b m1| | |]; try discriminate.
  destruct (load_chars (key b) m1) as [k0 m2| | |]; try discriminate.
  destruct (lift (strcmp k0 k) m2) as [c m3| | |]; try discriminate.
  destruct (c =? 0); [exact H | apply IH; exact H].
Qed.

Lemma get_loop_more_fuel fuel :
  ∀ ptr k (m : mem) r m',
    get_loop fuel ptr k m = Ret r m' ->
    get_loop (S fuel) ptr k m = Ret r m'.
Proof.
  induction fuel as [|fuel IH]; intros ptr k m r m' H; [discriminate|].
  change (get_loop (S (S fuel)) ptr k m) with
    ((if nonnull ptr then
        do b <- load_abind ptr;
        do k0 <- load_chars (key b);
        do c <- lift (strcmp k0 k);
        if (c =? 0) then ret (value b) else get_loop (S fuel) (next b) k
      else ret NULL) m).
  simpl in H. destruct (nonnull ptr); [|exact H].
  unfold bind in *.
  destruct (load_abind ptr m) as [b m1| | |]; try discriminate.
  destruct (load_chars (key b) m1) as [k0 m2| | |]; try discriminate.
  destruct (lift (strcmp k0 k) m2) as [c m3| | |]; try discriminate.
  destruct (c =? 0); [exact H | apply IH; exact H].
Qed.

Lemma remove_loop_more_fuel fuel :
  ∀ t ptr ptr_prev k (m : mem) r m',
    remove_loop fuel t ptr ptr_prev k m = Ret r m' ->
    remove_loop (S fuel) t ptr ptr_prev k m = Ret r m'.
Proof.
  induction fuel as [|fuel IH]; intros t ptr pp k m r m' H; [discriminate|].
  simpl in H. remember (S fuel) as fuel1 eqn:Efuel. simpl.
  destruct (nonnull ptr); [|exact H].
  unfold bind at 1. unfold bind at 1 in H.
  destruct (load_abind ptr m) as [b m1| | |]; try discriminate.
  unfold bind at 1. unfold bind at 1 in H.
  destruct (load_chars (key b) m1) as [k0 m2| | |]; try discriminate.
  unfold bind at 1. unfold bind at 1 in H.
  destruct (lift (strcmp k0 k) m2) as [c m3| | |]; try discriminate.
  destruct (negb (c =? 0)); [|exact H].
  apply IH. exact H.
Qed.

(** A call that returns with some loop bound returns the same with every
    larger one. *)
Lemma more_fuel {A} (c : nat -> M A) :
  (∀ fuel (m : mem) r m', c fuel m = Ret r m' -> c (S fuel) m = Ret r m') ->
  ∀ fuel fuel' (m : mem) r m',
    (fuel <= fuel')%nat -> c fuel m = Ret r m' -> c fuel' m = Ret r m'.
Proof.
  intros Hstep fuel fuel' m r m' Hle H.
  induction Hle as [|fuel' Hle IH]; [exact H | apply Hstep; exact IH].
Qed.

Lemma SymTable_contains_more_fuel t pcKey fuel fuel' (m : mem) r m' :
  (fuel <= fuel')%nat ->
  SymTable_contains fuel t pcKey m = Ret r m' ->
  SymTable_contains fuel' t pcKey m = Ret r m'.
Proof.
  apply (more_fuel (fun fuel => SymTable_contains fuel t pcKey)).
  clear. intros fuel m r m'. unfold SymTable_contains, bind.
  destruct (assert (nonnull t) m) as [[] m1| | |]; try discriminate.
  destruct (assert_str pcKey m1) as [k m2| | |]; try discriminate.
  destruct (load_SymTable t m2) as [t0 m3| | |]; try discriminate.
  apply contains_loop_more_fuel.
Qed.

Lemma SymTable_get_more_fuel t pcKey fuel fuel' (m : mem) r m' :
  (fuel <= fuel')%nat ->
  SymTable_get fuel t pcKey m = Ret r m' ->
  SymTable_get fuel' t pcKey m = Ret r m'.
Proof.
  apply (more_fuel (fun fuel => SymTable_get fuel t pcKey)).
  clear. intros fuel m r m'. unfold SymTable_get, bind.
  destruct (assert (nonnull t) m) as [[] m1| | |]; try discriminate.
  destruct (assert_str pcKey m1) as [k m2| | |]; try discriminate.
  destruct (load_SymTable t m2) as [t0 m3| | |]; try discriminate.
  apply get_loop_more_fuel.
Qed.

Lemma SymTable_remove_more_fuel t pcKey fuel fuel' (m : mem) r m' :
  (fuel <= fuel')%nat ->
  SymTable_remove fuel t pcKey m = Ret r m' ->
  SymTable_remove fuel' t pcKey m = Ret r m'.
Proof.
  apply (more_fuel (fun fuel => SymTable_remove fuel t pcKey)).
  clear. intros fuel m r m'. unfold SymTable_remove, bind.
  destruct (assert (nonnull t) m) as [[] m1| | |]; try discriminate.
  destruct (assert_str pcKey m1) as [k m2| | |]; try discriminate.
  destruct (load_SymTable t m2) as [t0 m3| | |]; try discriminate.
  apply remove_loop_more_fuel.
Qed.

Lemma SymTable_put_more_fuel malloc t pcKey v fuel fuel' (m : mem) r m' :
  (fuel <= fuel')%nat ->
  SymTable_put malloc fuel t pcKey v m = Ret r m' ->
  SymTable_put malloc fuel' t pcKey v m = Ret r m'.
Proof.
  apply (more_fuel (fun fuel => SymTable_put malloc fuel t pcKey v)).
  clear. intros fuel m r m'. unfold SymTable_put, bind.
  destruct (assert (nonnull t) m) as [[] m1| | |]; try discriminate.
  destruct (assert_str pcKey m1) as [k m2| | |]; try discriminate.
  destruct (SymTable_contains fuel t pcKey m2) as [c m3| | |] eqn:E;
    try discriminate.
  rewrite (SymTable_contains_more_fuel t pcKey fuel (S fuel) m2 c m3
             (Nat.le_succ_diag_r fuel) E).
  tauto.
Qed.

(** ** Tables built by the library *)

Lemma insertion_order_snoc ops o :
  insertion_order (ops ++ [o]) = log_step (insertion_order ops) o.
Proof. unfold insertion_order. rewrite fold_left_app. reflexivity. Qed.

Lemma entries_keys l : (entries l).*1 = keys l.
Proof.
  unfold entries, keys. rewrite <- list_fmap_compose. reflexivity.
Qed.

Lemma entries_app l1 l2 : entries (l1 ++ l2) = entries l1 ++ entries l2.
Proof. unfold entries. apply fmap_app. Qed.

Lemma filter_entries_keep k l :
  k ∉ keys l -> filter (fun e : entry => e.1 ≠ k) (entries l) = entries l.
Proof.
  induction l as [|b l IH]; intros H; [reflexivity|].
  unfold keys in H. rewrite fmap_cons, not_elem_of_cons in H.
  destruct H as [H1 H2].
  change (entries (b :: l)) with ((b_key b, b_value b) :: entries l).
  rewrite filter_cons_True by (simpl; congruence).
  rewrite IH by assumption. reflexivity.
Qed.

Lemma uint_succ z : uint (uint z + 1) = uint (z + 1).
Proof. unfold uint. apply Zplus_mod_idemp_l. Qed.

Lemma uint_pred z : uint (uint z - 1) = uint (z - 1).
Proof. unfold uint. apply Zminus_mod_idemp_l. Qed.

Lemma uint_small z : 0 <= z < UINT_MODULUS -> uint z = z.
Proof. intros H. unfold uint. apply Z.mod_small. exact H. Qed.

(** What holds of every table the library built: the heap holds a chain,
    its keys are pairwise different, the count is the number of bindings
    modulo [2^32], and the chain lists the live bindings newest first. *)
Lemma reach_inv malloc t ops (m : mem) :
  allocator_sound malloc ->
  reach malloc t ops m ->
  ∃ l, table_rep m t (uint (Z.of_nat (length l))) l
       ∧ NoDup (keys l)
       ∧ entries l = reverse (insertion_order ops).
Proof.
  intros Hsound Hreach.
  induction Hreach as
    [ m0 m Hnew
    | ops m m' Hreach IH Hframe
    | ops m m' k n v fuel r Hreach IH Hn Hput
    | ops m m' k n fuel r Hreach IH Hn Hrem ].
  - apply SymTable_new_returns in Hnew as (Hnn & -> & ->).
    exists []. split; [|split; [apply NoDup_nil_2 | reflexivity]].
    apply (SymTable_new_spec malloc m0 Hnn).
  - destruct IH as (l & Hrep & Hnd & Hent).
    exists l. split; [|tauto].
    eapply table_rep_frame; [exact Hrep|]. eapply Hframe. exact Hrep.
  - destruct IH as (l & Hrep & Hnd & Hent).
    rewrite insertion_order_snoc. simpl.
    assert (keys l = (reverse (insertion_order ops)).*1) as Hkeys
      by (rewrite <- Hent; symmetry; apply entries_keys).
    set (fuel' := Nat.max fuel (S (length l))).
    apply (SymTable_put_more_fuel malloc t (Some k) v fuel fuel') in Hput;
      [|apply Nat.le_max_l].
    assert (length l < fuel')%nat as Hfuel by (unfold fuel'; lia).
    destruct (find_binding (cstring k) l) as [b|] eqn:Efind.
    + rewrite (put_bound malloc m t _ l k n v fuel' Hrep Hn Hfuel) in Hput
        by congruence.
      injection Hput as <- <-.
      assert (cstring k ∈ keys l) as Hin.
      { destruct (decide (cstring k ∈ keys l)) as [?|Hno]; [assumption|].
        apply find_binding_None in Hno. congruence. }
      rewrite Hkeys, fmap_reverse, elem_of_reverse in Hin.
      destruct (decide (cstring k ∈ (insertion_order ops).*1)); [|contradiction].
      exists l. tauto.
    + set (nb := malloc m sizeof_abind) in *.
      set (nk := malloc (<[nb := OBind (mk_abind NULL NULL NULL)]> m)
                   ((Z.of_nat n + 1) * sizeof_char)) in *.
      destruct (decide (nb = NULL ∨ nk = NULL)) as [Hnull|Hnn].
      { rewrite (put_out_of_memory malloc m t _ l k n v fuel' Hrep Hn Hfuel
                   Efind Hnull) in Hput. discriminate. }
      assert (nb ≠ NULL ∧ nk ≠ NULL) as [Hnb Hnk] by tauto.
      rewrite (put_absent malloc m t _ l k n v fuel' Hrep Hn Hfuel
                 Hsound Efind Hnb Hnk) in Hput.
      injection Hput as <- <-.
      pose proof (put_heap_rep malloc m t _ l k n v Hrep Hn Hsound Hnb Hnk)
        as Hrep'.
      fold nb nk in Hrep'. rewrite uint_succ in Hrep'.
      assert (cstring k ∉ keys l) as Hno by (apply find_binding_None; exact Efind).
      exists (mk_binding nb nk (cstring k) v :: l).
      split; [|split].
      * replace (Z.of_nat (length (mk_binding nb nk (cstring k) v :: l)))
          with (Z.of_nat (length l) + 1) by (simpl length; lia).
        exact Hrep'.
      * unfold keys in *. simpl. apply NoDup_cons. tauto.
      * rewrite Hkeys, fmap_reverse, elem_of_reverse in Hno.
        destruct (decide (cstring k ∈ (insertion_order ops).*1)); [contradiction|].
        rewrite reverse_snoc, <- Hent. reflexivity.
  - destruct IH as (l & Hrep & Hnd & Hent).
    rewrite insertion_order_snoc. simpl.
    set (fuel' := Nat.max fuel (S (length l))).
    apply (SymTable_remove_more_fuel t (Some k) fuel fuel') in Hrem;
      [|apply Nat.le_max_l].
    assert (length l < fuel')%nat as Hfuel by (unfold fuel'; lia).
    rewrite (SymTable_remove_spec m t _ l k n fuel' Hrep Hn Hfuel) in Hrem.
    unfold remove_outcome in Hrem.
    assert (insertion_order ops = reverse (entries l)) as Hlog
      by (rewrite Hent, reverse_involutive; reflexivity).
    rewrite Hlog, filter_reverse, reverse_involutive.
    destruct (split_key (cstring k) l) as [[[pre x] post]|] eqn:Esplit.
    + injection Hrem as <- <-. simpl.
      apply split_key_Some in Esplit as (-> & Hkx & Hpre & _ & _).
      pose proof (unlink_heap_rep m t _ pre x post Hrep) as Hrep'.
      rewrite uint_pred in Hrep'.
      unfold keys in Hnd. rewrite fmap_app, fmap_cons in Hnd.
      apply NoDup_app in Hnd as (Hn1 & Hn2 & Hn3).
      apply NoDup_cons in Hn3 as (Hn3 & Hn4).
      exists (pre ++ post). split; [|split].
      * replace (Z.of_nat (length (pre ++ post)))
          with (Z.of_nat (length (pre ++ x :: post)) - 1)
          by (rewrite !length_app; simpl length; lia).
        exact Hrep'.
      * unfold keys. rewrite fmap_app. apply NoDup_app.
        split; [assumption|]. split; [|assumption].
        intros a Ha Ha'. eapply Hn2; [exact Ha|]. apply elem_of_cons. tauto.
      * rewrite !entries_app, filter_app.
        change (entries (x :: post)) with ((b_key x, b_value x) :: entries post).
        rewrite filter_cons_False by (simpl; tauto).
        rewrite !filter_entries_keep; [reflexivity | | assumption].
        unfold keys. congruence.
    + injection Hrem as <- <-.
      apply split_key_None in Esplit as (Hno & _ & _).
      rewrite filter_entries_keep by assumption.
      exists l. tauto.
Qed.

(** ** The bump allocator is a sound allocator that never fails *)

Lemma top_bound (m : mem) a : is_Some (m !! a) -> (a <= top m)%N.
Proof.
  revert a. unfold top.
  apply (map_fold_weak_ind (fun r (m : mem) => ∀ a, is_Some (m !! a) -> (a <= r)%N)).
  - intros a [o Ho]. rewrite lookup_empty in Ho. discriminate.
  - intros i x m0 r Hi IH a Ha.
    destruct (decide (i = a)) as [->|Hne]; [lia|].
    rewrite lookup_insert_ne in Ha by exact Hne.
    specialize (IH a Ha). lia.
Qed.

Lemma bump_nonnull (m : mem) size : bump m size ≠ NULL.
Proof. unfold bump, NULL. lia. Qed.

Lemma bump_sound : allocator_sound bump.
Proof.
  intros m size _. destruct (m !! bump m size) as [o|] eqn:E; [|reflexivity].
  assert (bump m size <= top m)%N as H by (apply top_bound; eauto).
  unfold bump in H. lia.
Qed.

(** ** A heap holds at most one table at an address *)

Lemma chain_functional (m : mem) l :
  ∀ l', chain m l -> chain m l' -> head_addr l = head_addr l' -> l = l'.
Proof.
  induction l as [|b l IH]; intros [|b' l'] Hc Hc' Hh; simpl in *.
  - reflexivity.
  - destruct Hc' as (Ha & _). congruence.
  - destruct Hc as (Ha & _). congruence.
  - destruct Hc as (Ha & Hk & Hb & Hck & Hz & Hl).
    destruct Hc' as (Ha' & Hk' & Hb' & Hck' & Hz' & Hl').
    rewrite Hh, Hb' in Hb. injection Hb as E1 E2 E3.
    rewrite <- E1, Hck' in Hck. injection Hck as E4.
    apply app_inj_tail in E4 as [E4 _].
    rewrite (IH l' Hl Hl' (eq_sym E3)).
    destruct b, b'. simpl in *. congruence.
Qed.

Lemma table_rep_functional (m : mem) t sz sz' l l' :
  table_rep m t sz l -> table_rep m t sz' l' -> sz = sz' ∧ l = l'.
Proof.
  intros (Ht & Hm & Hc & Hnd) (_ & Hm' & Hc' & _).
  rewrite Hm' in Hm. injection Hm as E1 E2.
  split; [congruence|]. eapply chain_functional; eauto.
Qed.

(** ** The session is a run of the library *)

Example session_run :
  (do t <- SymTable_new bump;
   SymTable_put bump 3 t (Some (str "a")) 10%N ;;
   SymTable_put bump 3 t (Some (str "b")) 11%N ;;
   ret t) caller_heap
  = Ret session_table session_heap.
Proof. vm_compute. reflexivity. Qed.

Example session_rep : table_rep session_heap session_table 2 session_chain.
Proof. apply (bool_decide_unpack _). vm_compute. reflexivity. Qed.

(** ** Destruction *)

Lemma SymTable_free_NULL fuel (m : mem) : SymTable_free fuel NULL m = Ret tt m.
Proof. reflexivity. Qed.

Lemma free_loop_spec l :
  ∀ (m : mem) fuel,
    chain m l -> NoDup (addrs l) -> (length l < fuel)%nat ->
    ∃ m', free_loop fuel (head_addr l) m = Ret tt m'
          ∧ (∀ a, a ∈ addrs l -> m' !! a = None)
          ∧ (∀ a, a ∉ addrs l -> m' !! a = m !! a).
Proof.
  induction l as [|b l IH]; intros m fuel Hc Hnd Hfuel;
    (destruct fuel as [|fuel]; [simpl in Hfuel; lia|]).
  - exists m. split; [reflexivity|]. split; [|reflexivity].
    intros a Ha. apply elem_of_addrs_nil in Ha. contradiction.
  - pose proof Hc as Hc'. simpl in Hc'.
    destruct Hc' as (Ha & Hk & Hb & Hck & Hz & Hl).
    apply NoDup_addrs_cons in Hnd as (N1 & N2 & N3 & N4).
    set (m1 := delete (b_addr b) (delete (b_kaddr b) m)).
    assert (chain m1 l) as Hc1.
    { eapply chain_frame; [exact Hl|]. intros a Hin. unfold m1.
      rewrite !lookup_delete_ne; [reflexivity| |]; intros E; subst a; contradiction. }
    destruct (IH m1 fuel Hc1 N4) as (m' & Hrun & Hgone & Hrest);
      [simpl in Hfuel; lia|].
    exists m'. split; [|split].
    + simpl. rewrite (nonnull_true _ Ha).
      rewrite (bind_Ret _ _ _ _ _ (load_abind_eq m _ _ Ha Hb)). simpl.
      rewrite (bind_Ret _ _ _ _ _ (free_eq m _ _ Hk Hck)).
      erewrite bind_Ret; cycle 1.
      { eapply free_eq; [exact Ha|]. rewrite lookup_delete_ne by congruence.
        exact Hb. }
      exact Hrun.
    + intros a Hin. apply elem_of_addrs_cons in Hin as [->|[->|Hin]].
      * rewrite Hrest by exact N2. apply lookup_delete_eq.
      * rewrite Hrest by exact N3. unfold m1.
        rewrite lookup_delete_ne by congruence. apply lookup_delete_eq.
      * apply Hgone. exact Hin.
    + intros a Hout. rewrite elem_of_addrs_cons in Hout.
      rewrite Hrest by tauto. unfold m1.
      rewrite !lookup_delete_ne; [reflexivity| |]; intros E; subst a; tauto.
Qed.

(** [SymTable_free] releases the header, the bindings and their key
    arrays, and nothing else: what the value pointers lead to stays. *)
Lemma SymTable_free_spec (m : mem) t sz l fuel :
  table_rep m t sz l -> (length l < fuel)%nat ->
  ∃ m', SymTable_free fuel t m = Ret tt m'
        ∧ (∀ a, a ∈ footprint t l -> m' !! a = None)
        ∧ (∀ a, a ∉ footprint t l -> m' !! a = m !! a).
Proof.
  intros Hrep Hfuel.
  pose proof (table_not_in_chain _ _ _ _ Hrep) as Htl.
  destruct Hrep as (Ht & Hm & Hc & Hnd).
  destruct (free_loop_spec l m fuel Hc Hnd Hfuel) as (m1 & Hrun & Hgone & Hrest).
  exists (delete t m1). split; [|split].
  - unfold SymTable_free. rewrite (nonnull_true _ Ht). simpl.
    rewrite (bind_Ret _ _ _ _ _ (load_SymTable_eq m t _ Ht Hm)). simpl.
    rewrite (bind_Ret _ _ _ _ _ Hrun).
    eapply free_eq; [exact Ht|]. rewrite Hrest by exact Htl. exact Hm.
  - unfold footprint. intros a Hin. apply elem_of_cons in Hin as [->|Hin].
    + apply lookup_delete_eq.
    + rewrite lookup_delete_ne by (intros E; subst a; contradiction).
      apply Hgone. exact Hin.
  - unfold footprint. intros a Hout. rewrite not_elem_of_cons in Hout.
    destruct Hout as [H1 H2].
    rewrite lookup_delete_ne by congruence. apply Hrest. exact H2.
Qed.

(** On the session: the table is gone, the caller's [int]s are there. *)
Example free_session :
  SymTable_free 3 session_table session_heap = Ret tt caller_heap.
Proof. vm_compute. reflexivity. Qed.

(** * The properties of the interface *)

(** ** Insertion of a key that is not bound *)

(** C1. For a table [t] with chain [l] and count [sz], and a non-null,
    NUL-terminated key array [k] whose string is not bound in it, when the
    two allocations succeed [SymTable_put] returns 1; the block [nk] it
    obtained for the key was not in use before and now holds a copy of the
    string of [k] with its NUL; the block [nb] it obtained for the binding
    holds the pointer to that copy, the value pointer [v] itself, and as
    [next] the former first binding; the table now has that binding at the
    head of its chain and the count [sz + 1] (in [unsigned int]
    arithmetic, so exactly [sz + 1] unless [sz] was [UINT_MAX]); every
    other object of the heap is as before. *)
Theorem put_unbound_key malloc (m : mem) t sz l k n v fuel :
  allocator_sound malloc ->
  table_rep m t sz l ->
  strlen k = Some n ->
  cstring k ∉ keys l ->
  let nb := malloc m sizeof_abind in
  let nk := malloc (<[nb := OBind (mk_abind NULL NULL NULL)]> m)
              ((Z.of_nat n + 1) * sizeof_char) in
  nb ≠ NULL -> nk ≠ NULL ->
  (length l < fuel)%nat ->
  ∃ m',
    SymTable_put malloc fuel t (Some k) v m = Ret 1 m'
    ∧ m !! nb = None ∧ m !! nk = None ∧ nb ≠ nk
    ∧ m' !! nk = Some (OChars (cstring k ++ [NUL]))
    ∧ m' !! nb = Some (OBind (mk_abind nk v (head_addr l)))
    ∧ m' !! t = Some (OSymTable (mk_SymTable (uint (sz + 1)) nb))
    ∧ table_rep m' t (uint (sz + 1)) (mk_binding nb nk (cstring k) v :: l)
    ∧ (0 <= sz -> sz + 1 < UINT_MODULUS ->
       SymTable_getLength t m' = Ret (sz + 1) m')
    ∧ (∀ a, a ≠ t -> a ≠ nb -> a ≠ nk -> m' !! a = m !! a).
Proof.
  intros Hsound Hrep Hn Hno nb nk Hnb Hnk Hfuel.
  apply find_binding_None in Hno.
  pose proof (put_absent malloc m t sz l k n v fuel Hrep Hn Hfuel
                Hsound Hno Hnb Hnk) as Hrun.
  pose proof (put_heap_rep malloc m t sz l k n v Hrep Hn Hsound Hnb Hnk)
    as Hrep'.
  fold nb in Hrun, Hrep'. fold nk in Hrun, Hrep'.
  pose proof (Hsound m sizeof_abind Hnb) as Hfb. fold nb in Hfb.
  pose proof (Hsound _ _ Hnk) as Hfk. fold nk in Hfk.
  assert (nb ≠ nk) as Hne.
  { intros E. rewrite <- E, lookup_insert_eq in Hfk. discriminate. }
  rewrite lookup_insert_ne in Hfk by exact Hne.
  destruct Hrep as (Ht & Hm & _).
  assert (t ≠ nb ∧ t ≠ nk) as [Htb Htk] by (split; congruence).
  exists (put_heap m t sz (head_addr l) nb nk k v).
  split; [exact Hrun|]. split; [exact Hfb|]. split; [exact Hfk|].
  split; [exact Hne|].
  split; [unfold put_heap; lookup_ins|].
  split; [unfold put_heap; lookup_ins|].
  split; [unfold put_heap; lookup_ins|].
  split; [exact Hrep'|]. split.
  - intros H0 H1. rewrite <- (uint_small (sz + 1)) by lia.
    eapply SymTable_getLength_spec. exact Hrep'.
  - intros a H1 H2 H3. unfold put_heap. lookup_ins.
Qed.

Lemma put_unbound_key_witness :
  ∃ m',
    SymTable_put bump 3 session_table (Some (str "c")) 12%N session_heap
    = Ret 1 m'
    ∧ session_heap !! 18%N = None ∧ session_heap !! 19%N = None
    ∧ 18%N ≠ 19%N
    ∧ m' !! 19%N = Some (OChars (str "c"))
    ∧ m' !! 18%N = Some (OBind (mk_abind 19%N 12%N 16%N))
    ∧ m' !! session_table = Some (OSymTable (mk_SymTable 3 18%N))
    ∧ table_rep m' session_table 3
        (mk_binding 18%N 19%N (String.list_ascii_of_string "c") 12%N
           :: session_chain)
    ∧ (0 <= 2 -> 2 + 1 < UINT_MODULUS ->
       SymTable_getLength session_table m' = Ret 3 m')
    ∧ (∀ a, a ≠ session_table -> a ≠ 18%N -> a ≠ 19%N ->
            m' !! a = session_heap !! a).
Proof.
  apply (put_unbound_key bump session_heap session_table 2 session_chain
           (str "c") 1 12%N 3).
  - exact bump_sound.
  - decide_it.
  - reflexivity.
  - decide_it.
  - vm_compute. discriminate.
  - vm_compute. discriminate.
  - simpl. lia.
Defined.

(** ** Insertion of a key that is bound *)

(** C2. For a table [t] and a key array [k] whose string is bound in it,
    [SymTable_put] returns 0 and leaves the heap as it found it, so the
    binding, its value, the chain and the count are what they were. *)
Theorem put_bound_key malloc (m : mem) t sz l k n v fuel :
  table_rep m t sz l ->
  strlen k = Some n ->
  cstring k ∈ keys l ->
  (length l < fuel)%nat ->
  SymTable_put malloc fuel t (Some k) v m = Ret 0 m.
Proof.
  intros Hrep Hn Hin Hfuel.
  apply (put_bound malloc m t sz l k n v fuel Hrep Hn Hfuel).
  intros Hnone. apply find_binding_None in Hnone. contradiction.
Qed.

Lemma put_bound_key_witness :
  SymTable_put bump 3 session_table (Some (str "a")) 12%N session_heap
  = Ret 0 session_heap.
Proof.
  apply (put_bound_key bump session_heap session_table 2 session_chain
           (str "a") 1 12%N 3).
  - decide_it.
  - reflexivity.
  - decide_it.
  - simpl. lia.
Defined.

(** ** Removal *)

Lemma split_key_first k pre x post :
  b_key x = k -> k ∉ keys pre ->
  split_key k (pre ++ x :: post) = Some (pre, x, post).
Proof.
  intros Hx. induction pre as [|p pre IH]; intros Hpre.
  - simpl. destruct (decide (b_key x = k)); [reflexivity | contradiction].
  - unfold keys in Hpre. rewrite fmap_cons, not_elem_of_cons in Hpre. simpl.
    destruct Hpre as [H1 H2].
    destruct (decide (b_key p = k)); [congruence|].
    rewrite (IH H2). reflexivity.
Qed.

(** The comparison is of the bytes, so case matters. *)
Example strcmp_case_sensitive : strcmp (str "key") (str "Key") = Some 32.
Proof. reflexivity. Qed.

(** C3. For a table [t] with chain [l] and a non-null, NUL-terminated key
    array [k], [SymTable_remove] goes through the chain from its head,
    comparing strings byte for byte.  If no binding has the string of [k]
    as its key, it returns 0 and leaves the heap as it found it.  If [x] is
    the first binding with that key, [pre] the bindings before it and
    [post] those after it, it returns 1; the link that led to [x] (the
    [first] of the header when [pre] is empty, otherwise the [next] of the
    last binding of [pre]) now leads to the binding after [x]; the count is
    [sz - 1] (in [unsigned int] arithmetic); [x] and its key array are
    released; the chain is [pre ++ post] and the rest of the heap is as
    before. *)
Theorem remove_first_match (m : mem) t sz l k n fuel :
  table_rep m t sz l ->
  strlen k = Some n ->
  (length l < fuel)%nat ->
  (cstring k ∉ keys l -> SymTable_remove fuel t (Some k) m = Ret 0 m)
  ∧ (cstring k ∈ keys l ->
     ∃ pre x post,
       l = pre ++ x :: post ∧ b_key x = cstring k ∧ (cstring k ∉ keys pre))
  ∧ (∀ pre x post,
       l = pre ++ x :: post -> b_key x = cstring k -> cstring k ∉ keys pre ->
       ∃ m',
         SymTable_remove fuel t (Some k) m = Ret 1 m'
         ∧ table_rep m' t (uint (sz - 1)) (pre ++ post)
         ∧ (pre = [] ->
            m' !! t = Some (OSymTable (mk_SymTable (uint (sz - 1)) (head_addr post))))
         ∧ (∀ p, last pre = Some p ->
              m' !! b_addr p
              = Some (OBind (mk_abind (b_kaddr p) (b_value p) (head_addr post)))
              ∧ m' !! t
                = Some (OSymTable (mk_SymTable (uint (sz - 1)) (head_addr l))))
         ∧ (1 <= sz < UINT_MODULUS ->
            SymTable_getLength t m' = Ret (sz - 1) m')
         ∧ m' !! b_addr x = None ∧ m' !! b_kaddr x = None
         ∧ (∀ a, a ≠ t -> a ≠ b_addr x -> a ≠ b_kaddr x ->
                 (∀ p, last pre = Some p -> a ≠ b_addr p) ->
                 m' !! a = m !! a)).
Proof.
  intros Hrep Hn Hfuel.
  pose proof (SymTable_remove_spec m t sz l k n fuel Hrep Hn Hfuel) as Hrun.
  unfold remove_outcome in Hrun. split.
  - intros Hno. apply find_binding_None in Hno.
    destruct (split_key (cstring k) l) as [[[pre x] post]|] eqn:E;
      [|exact Hrun].
    apply split_key_Some in E as (_ & _ & _ & _ & E). congruence.
  - split.
    { intros Hin.
      destruct (find_binding_split (cstring k) l) as (pre & x & post & E).
      - intros Hnone. apply find_binding_None in Hnone. contradiction.
      - apply split_key_Some in E as (E1 & E2 & E3 & _).
        exists pre, x, post. tauto. }
    intros pre x post -> Hx Hpre.
    rewrite (split_key_first (cstring k) pre x post Hx Hpre) in Hrun.
    simpl in Hrun.
    pose proof (unlink_heap_rep m t sz pre x post Hrep) as Hrep'.
    destruct (unlink_heap_frame m t sz pre x post Hrep) as (G1 & G2 & G3).
    destruct (unlink_facts m t sz pre x post Hrep)
      as (F1 & F2 & F3 & F4 & F5 & F6 & F7 & F8).
    exists (unlink_heap m t sz pre x post).
    split; [exact Hrun|]. split; [exact Hrep'|]. split; [|split; [|split]].
    + intros ->. destruct Hrep' as (_ & H & _). exact H.
    + intros p Hp. destruct Hrep' as (_ & Ht' & Hc' & _). split.
      * apply last_Some in Hp as [pre' ->]. rewrite <- app_assoc in Hc'.
        apply chain_app_r in Hc'. simpl in Hc'. tauto.
      * rewrite Ht'. destruct pre as [|q pre']; [discriminate | reflexivity].
    + intros Hsz. rewrite <- (uint_small (sz - 1)) by lia.
      eapply SymTable_getLength_spec. exact Hrep'.
    + tauto.
Qed.

Lemma remove_first_match_witness :
  (cstring (str "a") ∉ keys session_chain ->
   SymTable_remove 3 session_table (Some (str "a")) session_heap
   = Ret 0 session_heap)
  ∧ (cstring (str "a") ∈ keys session_chain ->
     ∃ pre x post,
       session_chain = pre ++ x :: post ∧ b_key x = cstring (str "a")
       ∧ (cstring (str "a") ∉ keys pre))
  ∧ (∀ pre x post,
       session_chain = pre ++ x :: post -> b_key x = cstring (str "a") ->
       cstring (str "a") ∉ keys pre ->
       ∃ m',
         SymTable_remove 3 session_table (Some (str "a")) session_heap
         = Ret 1 m'
         ∧ table_rep m' session_table (uint (2 - 1)) (pre ++ post)
         ∧ (pre = [] ->
            m' !! session_table
            = Some (OSymTable (mk_SymTable (uint (2 - 1)) (head_addr post))))
         ∧ (∀ p, last pre = Some p ->
              m' !! b_addr p
              = Some (OBind (mk_abind (b_kaddr p) (b_value p) (head_addr post)))
              ∧ m' !! session_table
                = Some (OSymTable (mk_SymTable (uint (2 - 1))
                                     (head_addr session_chain))))
         ∧ (1 <= 2 < UINT_MODULUS ->
            SymTable_getLength session_table m' = Ret (2 - 1) m')
         ∧ m' !! b_addr x = None ∧ m' !! b_kaddr x = None
         ∧ (∀ a, a ≠ session_table -> a ≠ b_addr x -> a ≠ b_kaddr x ->
                 (∀ p, last pre = Some p -> a ≠ b_addr p) ->
                 m' !! a = session_heap !! a)).
Proof.
  apply (remove_first_match session_heap session_table 2 session_chain
           (str "a") 1 3).
  - decide_it.
  - reflexivity.
  - simpl. lia.
Defined.

(** The run of the witness: ["a"] is the second binding, so the [next] of
    the first one is what gets fixed. *)
Example remove_session_a :
  SymTable_remove 3 session_table (Some (str "a")) session_heap
  = Ret 1
      (<[13%N := OSymTable (mk_SymTable 1 16%N)]>
         (<[16%N := OBind (mk_abind 17%N 11%N NULL)]>
            (<[17%N := OChars (str "b")]> caller_heap))).
Proof. vm_compute. reflexivity. Qed.

(** ** Runs of calls *)

Lemma run_ops_reach malloc fuel t ops :
  ∀ ops0 (m m' : mem),
    reach malloc t ops0 m ->
    Forall (fun o => is_Some (strlen (op_key o))) ops ->
    run_ops malloc fuel t ops m = Ret tt m' ->
    reach malloc t (ops0 ++ ops) m'.
Proof.
  induction ops as [|o ops IH]; intros ops0 m m' Hreach Hkeys Hrun.
  - simpl in Hrun. injection Hrun as <-. rewrite app_nil_r. exact Hreach.
  - apply Forall_cons in Hkeys as [[n Hn] Hkeys].
    replace (ops0 ++ o :: ops) with ((ops0 ++ [o]) ++ ops)
      by (rewrite <- app_assoc; reflexivity).
    destruct o as [k v|k]; simpl in Hrun, Hn; unfold bind in Hrun.
    + destruct (SymTable_put malloc fuel t (Some k) v m) as [r m1| | |] eqn:E;
        try discriminate.
      eapply IH; [|exact Hkeys|exact Hrun].
      eapply reach_put; eassumption.
    + destruct (SymTable_remove fuel t (Some k) m) as [r m1| | |] eqn:E;
        try discriminate.
      eapply IH; [|exact Hkeys|exact Hrun].
      eapply reach_remove; eassumption.
Qed.

Lemma session_reach : reach bump session_table session_ops session_final.
Proof.
  apply (run_ops_reach bump 4 session_table session_ops []
           (<[13%N := OSymTable (mk_SymTable 0 NULL)]> caller_heap)).
  - apply (reach_new bump session_table caller_heap). vm_compute. reflexivity.
  - repeat constructor; vm_compute; eauto.
  - vm_compute. reflexivity.
Qed.

(** ** Where the count and the chain part ways *)

Lemma pos_key_inj p : ∀ q, pos_key p = pos_key q -> p = q.
Proof.
  induction p as [p IH|p IH|]; intros [q|q|]; simpl; intros H;
    try discriminate; try reflexivity.
  - injection H as H. f_equal. auto.
  - destruct p; discriminate.
  - injection H as H. f_equal. auto.
  - destruct q; discriminate.
Qed.

Lemma pos_key_no_NUL p : NUL ∉ pos_key p.
Proof.
  induction p as [p IH|p IH|]; simpl; rewrite not_elem_of_cons;
    (split; [discriminate|]); try assumption.
  apply not_elem_of_nil.
Qed.

Lemma nth_key_string i :
  strlen (nth_key i) = Some (length (pos_key (Pos.of_succ_nat i)))
  ∧ cstring (nth_key i) = pos_key (Pos.of_succ_nat i).
Proof. apply strlen_terminated, pos_key_no_NUL. Qed.

Lemma nth_key_inj i j : cstring (nth_key i) = cstring (nth_key j) -> i = j.
Proof.
  destruct (nth_key_string i) as [_ ->]. destruct (nth_key_string j) as [_ ->].
  intros H. apply pos_key_inj in H. apply SuccNat2Pos.inj. exact H.
Qed.

(** The bindings the [n] insertions leave: all [n] of them. *)
Lemma insertion_order_puts n :
  insertion_order (puts n) = (fun i => (cstring (nth_key i), NULL)) <$> seq 0 n.
Proof.
  induction n as [|n IH]; [reflexivity|].
  simpl puts. rewrite insertion_order_snoc, IH.
  rewrite seq_S, fmap_app. unfold log_step. simpl "+".
  destruct (decide (cstring (nth_key n)
                      ∈ ((fun i => (cstring (nth_key i), NULL)) <$> seq 0 n).*1))
    as [Hin|_]; [|reflexivity].
  rewrite <- list_fmap_compose in Hin.
  apply list_elem_of_fmap in Hin as (i & Hi & Hseq). simpl in Hi.
  apply nth_key_inj in Hi. subst i.
  apply elem_of_seq in Hseq. lia.
Qed.

(** With an allocator that never fails, [SymTable_put] returns. *)
Lemma put_returns malloc (m : mem) t sz l k n v :
  allocator_sound malloc ->
  (∀ m size, malloc m size ≠ NULL) ->
  table_rep m t sz l ->
  strlen k = Some n ->
  ∃ r m', SymTable_put malloc (S (length l)) t (Some k) v m = Ret r m'.
Proof.
  intros Hsound Htotal Hrep Hn.
  destruct (find_binding (cstring k) l) as [b|] eqn:E.
  - exists 0, m. apply (put_bound malloc m t sz l k n v _ Hrep Hn); [lia|].
    congruence.
  - eexists 1, _.
    apply (put_absent malloc m t sz l k n v _ Hrep Hn); auto.
Qed.

Lemma puts_reach n :
  ∃ m, reach bump (bump ∅ sizeof_SymTable) (puts n) m.
Proof.
  induction n as [|n [m Hreach]].
  - eexists. eapply reach_new.
    apply (SymTable_new_spec bump ∅). apply bump_nonnull.
  - destruct (reach_inv bump _ _ m bump_sound Hreach) as (l & Hrep & _).
    destruct (nth_key_string n) as [Hn _].
    destruct (put_returns bump m _ _ l (nth_key n) _ NULL
                bump_sound bump_nonnull Hrep Hn) as (r & m' & Hput).
    exists m'. simpl. eapply reach_put; eassumption.
Qed.

(** After as many insertions of different keys as [unsigned int] has
    values, the chain has that many bindings and the count is 0. *)
Lemma puts_wrap n :
  Z.of_nat n = UINT_MODULUS ->
  ∃ m l,
    reach bump 1%N (puts n) m
    ∧ table_rep m 1%N 0 l
    ∧ NoDup (keys l)
    ∧ length l = n
    ∧ SymTable_getLength 1%N m = Ret 0 m.
Proof.
  intros Hn. destruct (puts_reach n) as [m Hreach].
  change (bump ∅ sizeof_SymTable) with 1%N in Hreach.
  destruct (reach_inv bump _ _ m bump_sound Hreach) as (l & Hrep & Hnd & Hent).
  assert (length l = n) as Hlen.
  { apply (f_equal length) in Hent.
    unfold entries in Hent.
    rewrite length_fmap, length_reverse, insertion_order_puts in Hent.
    rewrite length_fmap, length_seq in Hent. exact Hent. }
  rewrite Hlen, Hn in Hrep.
  assert (uint UINT_MODULUS = 0) as Hz by (unfold uint; apply Z_mod_same_full).
  rewrite Hz in Hrep.
  exists m, l. split; [exact Hreach|]. split; [exact Hrep|].
  split; [exact Hnd|]. split; [exact Hlen|].
  eapply SymTable_getLength_spec. exact Hrep.
Qed.

(** C4. The stored count is not always the number of bindings.  The
    program that creates a table and calls [SymTable_put] [2^32] times,
    each time with another key, with an allocator that never fails: every
    call returns, the keys of the chain are pairwise different, the chain
    has [2^32] bindings, and the stored count, the [unsigned int] that was
    increased [2^32] times, is 0.  [SymTable_getLength] returns 0, and no
    chain this table could be said to hold has the stored count as its
    number of bindings. *)
Lemma count_differs_after_2_32_puts :
  ∃ m l,
    reach bump 1%N (puts (Z.to_nat UINT_MODULUS)) m
    ∧ table_rep m 1%N 0 l
    ∧ NoDup (keys l)
    ∧ length l = Z.to_nat UINT_MODULUS
    ∧ SymTable_getLength 1%N m = Ret 0 m
    ∧ ¬ (∃ l', table_rep m 1%N (Z.of_nat (length l')) l').
Proof.
  assert (Z.of_nat (Z.to_nat UINT_MODULUS) = UINT_MODULUS) as Hn.
  { apply Z2Nat.id. unfold UINT_MODULUS. lia. }
  destruct (puts_wrap (Z.to_nat UINT_MODULUS) Hn)
    as (m & l & H1 & H2 & H3 & H4 & H5).
  exists m, l. repeat (split; [assumption|]).
  intros (l' & Hrep').
  destruct (table_rep_functional _ _ _ _ _ _ H2 Hrep') as [Hsz <-].
  rewrite H4, Hn in Hsz. unfold UINT_MODULUS in Hsz. lia.
Qed.

(** ** Insertion followed by lookup *)

Lemma find_binding_Some_key k l b :
  find_binding k l = Some b -> b_key b = k ∧ k ∈ keys l.
Proof.
  unfold keys. induction l as [|x l IH]; simpl; intros H; [discriminate|].
  rewrite elem_of_cons. destruct (decide (b_key x = k)) as [Hk|Hk].
  - injection H as <-. auto.
  - destruct (IH H). tauto.
Qed.

(** C5. [SymTable_put] of [k] and [v] returns.  If the string of [k] was
    not bound (and the allocations succeed) it returns 1 and a
    [SymTable_get] of [k] right after it returns [v].  If a binding [b] for
    it existed, it returns 0, the [SymTable_get] returns the value of [b],
    as it did before, and [SymTable_getLength] returns what it did
    before. *)
Theorem put_then_get malloc (m : mem) t sz l k n v fuel :
  allocator_sound malloc ->
  table_rep m t sz l ->
  strlen k = Some n ->
  let nb := malloc m sizeof_abind in
  let nk := malloc (<[nb := OBind (mk_abind NULL NULL NULL)]> m)
              ((Z.of_nat n + 1) * sizeof_char) in
  (cstring k ∉ keys l -> nb ≠ NULL ∧ nk ≠ NULL) ->
  (S (length l) < fuel)%nat ->
  ∃ r m',
    SymTable_put malloc fuel t (Some k) v m = Ret r m'
    ∧ (r = 1 ∨ r = 0)
    ∧ (r = 1 ↔ cstring k ∉ keys l)
    ∧ (r = 1 -> SymTable_get fuel t (Some k) m' = Ret v m')
    ∧ (∀ b, find_binding (cstring k) l = Some b ->
         r = 0
         ∧ SymTable_get fuel t (Some k) m = Ret (b_value b) m
         ∧ SymTable_get fuel t (Some k) m' = Ret (b_value b) m'
         ∧ SymTable_getLength t m = Ret sz m
         ∧ SymTable_getLength t m' = Ret sz m').
Proof.
  intros Hsound Hrep Hn nb nk Halloc Hfuel.
  assert (length l < fuel)%nat as Hfuel' by lia.
  pose proof (SymTable_get_spec m t sz l k n fuel Hrep Hn Hfuel') as Hget.
  pose proof (SymTable_getLength_spec m t sz l Hrep) as Hlen.
  destruct (find_binding (cstring k) l) as [b|] eqn:Efind.
  - destruct (find_binding_Some_key _ _ _ Efind) as [Hkey Hin].
    exists 0, m.
    split; [apply (put_bound malloc m t sz l k n v fuel); congruence|].
    split; [tauto|]. split; [split; [discriminate | contradiction]|].
    split; [discriminate|].
    intros b' Hb'. injection Hb' as <-.
    unfold get_result in Hget. rewrite Efind in Hget. tauto.
  - assert (cstring k ∉ keys l) as Hno by (apply find_binding_None; exact Efind).
    destruct (Halloc Hno) as [Hnb Hnk].
    exists 1, (put_heap m t sz (head_addr l) nb nk k v).
    split; [apply (put_absent malloc m t sz l k n v fuel); assumption|].
    split; [tauto|]. split; [tauto|]. split; [|discriminate].
    intros _.
    pose proof (put_heap_rep malloc m t sz l k n v Hrep Hn Hsound Hnb Hnk)
      as Hrep'.
    fold nb nk in Hrep'.
    rewrite (SymTable_get_spec _ t _ _ k n fuel Hrep' Hn) by (simpl; lia).
    unfold get_result. simpl.
    destruct (decide (cstring k = cstring k)); [reflexivity | contradiction].
Qed.

Lemma put_then_get_witness :
  ∃ r m',
    SymTable_put bump 4 session_table (Some (str "c")) 12%N session_heap
    = Ret r m'
    ∧ (r = 1 ∨ r = 0)
    ∧ (r = 1 ↔ cstring (str "c") ∉ keys session_chain)
    ∧ (r = 1 -> SymTable_get 4 session_table (Some (str "c")) m' = Ret 12%N m')
    ∧ (∀ b, find_binding (cstring (str "c")) session_chain = Some b ->
         r = 0
         ∧ SymTable_get 4 session_table (Some (str "c")) session_heap
           = Ret (b_value b) session_heap
         ∧ SymTable_get 4 session_table (Some (str "c")) m' = Ret (b_value b) m'
         ∧ SymTable_getLength session_table session_heap = Ret 2 session_heap
         ∧ SymTable_getLength session_table m' = Ret 2 m').
Proof.
  apply (put_then_get bump session_heap session_table 2 session_chain
           (str "c") 1 12%N 4).
  - exact bump_sound.
  - decide_it.
  - reflexivity.
  - intros _. split; vm_compute; discriminate.
  - simpl. lia.
Defined.

(** The second case on the session: ["a"] is bound to the [int] at 10. *)
Example put_bound_then_get :
  (SymTable_put bump 4 session_table (Some (str "a")) 12%N ;;
   SymTable_get 4 session_table (Some (str "a"))) session_heap
  = Ret 10%N session_heap.
Proof. vm_compute. reflexivity. Qed.

(** ** Traversal *)

Lemma for_each_calls f e l : for_each l f e = run_calls f (calls_of l e).
Proof.
  induction l as [|b l IH]; [reflexivity|].
  simpl. rewrite IH. reflexivity.
Qed.

(** The calls all return when each returns on the heaps that come up:
    those of a set [I] that holds the first heap and that the calls do not
    leave. *)
Lemma run_calls_returns f e l (I : mem -> Prop) :
  (∀ b, b ∈ l -> ∀ m1 : mem, I m1 ->
        ∃ m2, f (b_kaddr b) (b_value b) e m1 = Ret tt m2 ∧ I m2) ->
  ∀ m : mem, I m -> ∃ m', run_calls f (calls_of l e) m = Ret tt m' ∧ I m'.
Proof.
  induction l as [|b l IH]; intros Hf m Hm.
  - exists m. split; [reflexivity | exact Hm].
  - destruct (Hf b (list_elem_of_here _ _) m Hm) as (m2 & H2 & HI2).
    destruct (IH (fun b' Hb' => Hf b' (list_elem_of_further _ _ _ Hb')) m2 HI2)
      as (m' & H' & HI').
    exists m'. split; [|exact HI'].
    simpl. rewrite (bind_Ret _ _ _ _ _ H2). exact H'.
Qed.

(** [update_bind] writes the [int] its value pointer leads to and nothing
    else. *)
Lemma update_bind_frame k v e (m1 m2 : mem) :
  update_bind k v e m1 = Ret tt m2 -> ∀ a, a ≠ v -> m2 !! a = m1 !! a.
Proof.
  unfold update_bind, bind, assert, load_int, store_int.
  destruct (nonnull v); [|discriminate].
  destruct (nonnull e); [|discriminate]. unfold ret.
  destruct (deref m1 v) as [[| | |i]|]; try discriminate.
  destruct (deref m1 e) as [[| | |j]|]; try discriminate.
  destruct (decide (INT_MIN <= i + j <= INT_MAX)); [|discriminate].
  intros H x Hx.
  destruct (deref m1 v) as [[| | |i']|]; try discriminate.
  injection H as <-. rewrite lookup_insert_ne by congruence.
  reflexivity.
Qed.

Lemma update_bind_leaves_alone e l fp :
  Forall (fun b => b_value b ∉ fp) l -> leaves_alone update_bind e l fp.
Proof.
  intros Hall b Hb m1 m2 Hrun a Ha.
  rewrite Forall_forall in Hall. specialize (Hall b Hb).
  eapply update_bind_frame; [exact Hrun|]. intros ->. contradiction.
Qed.

Lemma calls_entries (m : mem) e l :
  chain m l -> Forall2 (call_of_entry m e) (calls_of l e) (entries l).
Proof.
  induction l as [|b l IH]; intros Hc; [constructor|].
  simpl in Hc. destruct Hc as (_ & _ & _ & Hk & _ & Hl).
  constructor; [|apply IH; exact Hl].
  split; [exact Hk | split; reflexivity].
Qed.





Lemma session_heap_reach : reach bump session_table session_puts session_heap.
Proof.
  apply (run_ops_reach bump 3 session_table session_puts []
           (<[13%N := OSymTable (mk_SymTable 0 NULL)]> caller_heap)).
  - apply (reach_new bump session_table caller_heap). vm_compute. reflexivity.
  - repeat constructor; vm_compute; eauto.
  - vm_compute. reflexivity.
Qed.

(** The bindings of the session, oldest first, as its calls give them. *)
Example session_insertion_order :
  insertion_order session_puts
  = [ (String.list_ascii_of_string "a", 10%N);
      (String.list_ascii_of_string "b", 11%N) ].
Proof. vm_compute. reflexivity. Qed.

(** The traversal of the driver on the session: the [int]s bound to ["b"]
    and ["a"] are each increased once, by the 2 that [pvExtra] points to,
    and the table is untouched. *)
Example map_update_session :
  SymTable_map 3 session_table (Some update_bind) 12%N session_heap
  = Ret tt (<[10%N := OInt 9]> (<[11%N := OInt 10]> session_heap)).
Proof. vm_compute. reflexivity. Qed.

(** ** Lookups leave the heap alone *)

Lemma contains_loop_pure fuel :
  ∀ ptr k (m : mem) r m', contains_loop fuel ptr k m = Ret r m' -> m' = m.
Proof.
  induction fuel as [|fuel IH]; intros ptr k m r m' H; [discriminate|].
  simpl in H. destruct (nonnull ptr); [|injection H as _ <-; reflexivity].
  unfold bind, load_abind, load_chars, lift in H.
  destruct (deref m ptr) as [[| b | |]|]; try discriminate.
  destruct (deref m (key b)) as [[cs| | |]|]; try discriminate.
  destruct (strcmp cs k) as [c|]; try discriminate. unfold ret in H.
  destruct (c =? 0); [injection H as _ <-; reflexivity | eapply IH; exact H].
Qed.

Lemma get_loop_pure fuel :
  ∀ ptr k (m : mem) r m', get_loop fuel ptr k m = Ret r m' -> m' = m.
Proof.
  induction fuel as [|fuel IH]; intros ptr k m r m' H; [discriminate|].
  simpl in H. destruct (nonnull ptr); [|injection H as _ <-; reflexivity].
  unfold bind, load_abind, load_chars, lift in H.
  destruct (deref m ptr) as [[| b | |]|]; try discriminate.
  destruct (deref m (key b)) as [[cs| | |]|]; try discriminate.
  destruct (strcmp cs k) as [c|]; try discriminate. unfold ret in H.
  destruct (c =? 0); [injection H as _ <-; reflexivity | eapply IH; exact H].
Qed.

Lemma SymTable_contains_pure fuel t pcKey (m : mem) r m' :
  SymTable_contains fuel t pcKey m = Ret r m' -> m' = m.
Proof.
  unfold SymTable_contains, bind, assert, assert_str, load_SymTable.
  destruct (nonnull t); [|discriminate]. unfold ret.
  destruct pcKey as [k|]; [|discriminate].
  destruct (deref m t) as [[| |t0|]|]; try discriminate.
  apply contains_loop_pure.
Qed.

Lemma SymTable_get_pure fuel t pcKey (m : mem) r m' :
  SymTable_get fuel t pcKey m = Ret r m' -> m' = m.
Proof.
  unfold SymTable_get, bind, assert, assert_str, load_SymTable.
  destruct (nonnull t); [|discriminate]. unfold ret.
  destruct pcKey as [k|]; [|discriminate].
  destruct (deref m t) as [[| |t0|]|]; try discriminate.
  apply get_loop_pure.
Qed.

Lemma repeat_call_pure {A} (c : M A) (m : mem) r j :
  c m = Ret r m -> repeat_call j c m = Ret (replicate j r) m.
Proof.
  intros H. induction j as [|j IH]; [reflexivity|].
  simpl. rewrite (bind_Ret _ _ _ _ _ H). rewrite (bind_Ret _ _ _ _ _ IH).
  reflexivity.
Qed.

(** C7. [SymTable_contains] and [SymTable_get] never change the heap: a
    call that returns leaves every object, so the chain and the count, as
    it found them.  On a table [t] and a non-null key they do return, and
    [j] calls in a row, of one of them or of the two in turn, return [j]
    times the same result. *)
Theorem lookups_have_no_effect (m : mem) t sz l k n fuel j :
  table_rep m t sz l ->
  strlen k = Some n ->
  (length l < fuel)%nat ->
  (∀ fuel0 t0 pcKey (m0 : mem) r m',
     SymTable_contains fuel0 t0 pcKey m0 = Ret r m' -> m' = m0)
  ∧ (∀ fuel0 t0 pcKey (m0 : mem) r m',
       SymTable_get fuel0 t0 pcKey m0 = Ret r m' -> m' = m0)
  ∧ (∃ c, SymTable_contains fuel t (Some k) m = Ret c m
          ∧ repeat_call j (SymTable_contains fuel t (Some k)) m
            = Ret (replicate j c) m)
  ∧ (∃ v, SymTable_get fuel t (Some k) m = Ret v m
          ∧ repeat_call j (SymTable_get fuel t (Some k)) m
            = Ret (replicate j v) m)
  ∧ (∃ c v,
       repeat_call j
         (do c' <- SymTable_contains fuel t (Some k);
          do v' <- SymTable_get fuel t (Some k);
          ret (c', v')) m
       = Ret (replicate j (c, v)) m)
  ∧ table_rep m t sz l.
Proof.
  intros Hrep Hn Hfuel.
  split; [intros; eapply SymTable_contains_pure; eassumption|].
  split; [intros; eapply SymTable_get_pure; eassumption|].
  pose proof (SymTable_contains_spec m t sz l k n fuel Hrep Hn Hfuel) as Hc.
  pose proof (SymTable_get_spec m t sz l k n fuel Hrep Hn Hfuel) as Hg.
  split; [|split; [|split; [|exact Hrep]]].
  - eexists. split; [exact Hc | apply repeat_call_pure; exact Hc].
  - eexists. split; [exact Hg | apply repeat_call_pure; exact Hg].
  - eexists _, _. apply repeat_call_pure.
    rewrite (bind_Ret _ _ _ _ _ Hc), (bind_Ret _ _ _ _ _ Hg). reflexivity.
Qed.

Lemma lookups_have_no_effect_witness :
  (∀ fuel0 t0 pcKey (m0 : mem) r m',
     SymTable_contains fuel0 t0 pcKey m0 = Ret r m' -> m' = m0)
  ∧ (∀ fuel0 t0 pcKey (m0 : mem) r m',
       SymTable_get fuel0 t0 pcKey m0 = Ret r m' -> m' = m0)
  ∧ (∃ c, SymTable_contains 3 session_table (Some (str "a")) session_heap
          = Ret c session_heap
          ∧ repeat_call 5 (SymTable_contains 3 session_table (Some (str "a")))
              session_heap
            = Ret (replicate 5 c) session_heap)
  ∧ (∃ v, SymTable_get 3 session_table (Some (str "a")) session_heap
          = Ret v session_heap
          ∧ repeat_call 5 (SymTable_get 3 session_table (Some (str "a")))
              session_heap
            = Ret (replicate 5 v) session_heap)
  ∧ (∃ c v,
       repeat_call 5
         (do c' <- SymTable_contains 3 session_table (Some (str "a"));
          do v' <- SymTable_get 3 session_table (Some (str "a"));
          ret (c', v')) session_heap
       = Ret (replicate 5 (c, v)) session_heap)
  ∧ table_rep session_heap session_table 2 session_chain.
Proof.
  apply (lookups_have_no_effect session_heap session_table 2 session_chain
           (str "a") 1 3 5).
  - decide_it.
  - reflexivity.
  - simpl. lia.
Defined.

(** ** Null arguments *)

(** C8. Each operation that requires a non-null argument starts with the
    assertions on its arguments: given a null table, a null key or a null
    function pointer it aborts on the failed assertion, whatever the other
    arguments and the heap are, and nothing of it is run.  A null value
    pointer is not such an argument. *)
Theorem null_arguments_abort malloc fuel (m : mem) t pcKey v
    (pfApply : option callback) (e : pointer) :
  SymTable_getLength NULL m = Abort
  ∧ SymTable_contains fuel NULL pcKey m = Abort
  ∧ SymTable_contains fuel t None m = Abort
  ∧ SymTable_put malloc fuel NULL pcKey v m = Abort
  ∧ SymTable_put malloc fuel t None v m = Abort
  ∧ SymTable_get fuel NULL pcKey m = Abort
  ∧ SymTable_get fuel t None m = Abort
  ∧ SymTable_remove fuel NULL pcKey m = Abort
  ∧ SymTable_remove fuel t None m = Abort
  ∧ SymTable_map fuel NULL pfApply e m = Abort
  ∧ SymTable_map fuel t None e m = Abort.
Proof.
  unfold SymTable_getLength, SymTable_contains, SymTable_put, SymTable_get,
    SymTable_remove, SymTable_map.
  repeat split; try reflexivity;
    unfold bind, assert; destruct (nonnull t); reflexivity.
Qed.

(** ** A null value and an absent key *)

(** C9. When [SymTable_put] of [k] with the null pointer as value has
    succeeded, [SymTable_get] of [k] returns [NULL], which is what it
    returned before, when [k] was not bound, while [SymTable_contains] now
    returns 1 and returned 0 before.  The same holds of any table in which
    a key is bound to [NULL] and of any key [k'] that is not bound in it:
    [SymTable_get] returns [NULL] for both, [SymTable_contains] tells them
    apart. *)
Theorem null_value_looks_absent malloc (m : mem) t sz l k n fuel :
  allocator_sound malloc ->
  table_rep m t sz l ->
  strlen k = Some n ->
  cstring k ∉ keys l ->
  let nb := malloc m sizeof_abind in
  let nk := malloc (<[nb := OBind (mk_abind NULL NULL NULL)]> m)
              ((Z.of_nat n + 1) * sizeof_char) in
  nb ≠ NULL -> nk ≠ NULL ->
  (S (length l) < fuel)%nat ->
  (∃ m1,
     SymTable_put malloc fuel t (Some k) NULL m = Ret 1 m1
     ∧ SymTable_get fuel t (Some k) m = Ret NULL m
     ∧ SymTable_contains fuel t (Some k) m = Ret 0 m
     ∧ SymTable_get fuel t (Some k) m1 = Ret NULL m1
     ∧ SymTable_contains fuel t (Some k) m1 = Ret 1 m1)
  ∧ (∀ (m2 : mem) sz2 l2 b k' n',
       table_rep m2 t sz2 l2 -> (length l2 < fuel)%nat ->
       find_binding (cstring k) l2 = Some b -> b_value b = NULL ->
       strlen k' = Some n' -> cstring k' ∉ keys l2 ->
       SymTable_get fuel t (Some k) m2 = Ret NULL m2
       ∧ SymTable_get fuel t (Some k') m2 = Ret NULL m2
       ∧ SymTable_contains fuel t (Some k) m2 = Ret 1 m2
       ∧ SymTable_contains fuel t (Some k') m2 = Ret 0 m2).
Proof.
  intros Hsound Hrep Hn Hno nb nk Hnb Hnk Hfuel.
  assert (length l < fuel)%nat as Hfuel' by lia.
  split.
  - pose proof Hno as Hfind. apply find_binding_None in Hfind.
    pose proof (put_heap_rep malloc m t sz l k n NULL Hrep Hn Hsound Hnb Hnk)
      as Hrep'.
    fold nb nk in Hrep'.
    exists (put_heap m t sz (head_addr l) nb nk k NULL).
    split; [apply (put_absent malloc m t sz l k n NULL fuel); assumption|].
    rewrite (SymTable_get_spec m t sz l k n fuel Hrep Hn Hfuel').
    rewrite (SymTable_contains_spec m t sz l k n fuel Hrep Hn Hfuel').
    rewrite (SymTable_get_spec _ t _ _ k n fuel Hrep' Hn) by (simpl; lia).
    rewrite (SymTable_contains_spec _ t _ _ k n fuel Hrep' Hn) by (simpl; lia).
    unfold get_result, contains_result. rewrite Hfind. simpl.
    destruct (decide (cstring k = cstring k)); [tauto | contradiction].
  - intros m2 sz2 l2 b k' n' Hrep2 Hfuel2 Hb Hv Hn' Hno'.
    apply find_binding_None in Hno'.
    rewrite (SymTable_get_spec m2 t sz2 l2 k n fuel Hrep2 Hn Hfuel2).
    rewrite (SymTable_get_spec m2 t sz2 l2 k' n' fuel Hrep2 Hn' Hfuel2).
    rewrite (SymTable_contains_spec m2 t sz2 l2 k n fuel Hrep2 Hn Hfuel2).
    rewrite (SymTable_contains_spec m2 t sz2 l2 k' n' fuel Hrep2 Hn' Hfuel2).
    unfold get_result, contains_result. rewrite Hb, Hno', Hv. tauto.
Qed.

Lemma null_value_looks_absent_witness :
  (∃ m1,
     SymTable_put bump 4 session_table (Some (str "c")) NULL session_heap
     = Ret 1 m1
     ∧ SymTable_get 4 session_table (Some (str "c")) session_heap
       = Ret NULL session_heap
     ∧ SymTable_contains 4 session_table (Some (str "c")) session_heap
       = Ret 0 session_heap
     ∧ SymTable_get 4 session_table (Some (str "c")) m1 = Ret NULL m1
     ∧ SymTable_contains 4 session_table (Some (str "c")) m1 = Ret 1 m1)
  ∧ (∀ (m2 : mem) sz2 l2 b k' n',
       table_rep m2 session_table sz2 l2 -> (length l2 < 4)%nat ->
       find_binding (cstring (str "c")) l2 = Some b -> b_value b = NULL ->
       strlen k' = Some n' -> cstring k' ∉ keys l2 ->
       SymTable_get 4 session_table (Some (str "c")) m2 = Ret NULL m2
       ∧ SymTable_get 4 session_table (Some k') m2 = Ret NULL m2
       ∧ SymTable_contains 4 session_table (Some (str "c")) m2 = Ret 1 m2
       ∧ SymTable_contains 4 session_table (Some k') m2 = Ret 0 m2).
Proof.
  apply (null_value_looks_absent bump session_heap session_table 2
           session_chain (str "c") 1 4).
  - exact bump_sound.
  - decide_it.
  - reflexivity.
  - decide_it.
  - vm_compute. discriminate.
  - vm_compute. discriminate.
  - simpl. lia.
Defined.

(** ** The empty string as a key *)

(** C10. Let [k] be an array that holds the empty string (its first
    character is the NUL).  [SymTable_put] of [k] returns 1 exactly when
    the empty string is not bound, and 0 when it is.  When it returns 1
    the key array it stored is the one character NUL, and afterwards
    [SymTable_contains] returns 1, [SymTable_get] returns [v] and
    [SymTable_remove] returns 1. *)
Theorem empty_key_is_a_key malloc (m : mem) t sz l k v fuel :
  allocator_sound malloc ->
  table_rep m t sz l ->
  strlen k = Some O ->
  let nb := malloc m sizeof_abind in
  let nk := malloc (<[nb := OBind (mk_abind NULL NULL NULL)]> m)
              ((Z.of_nat 0 + 1) * sizeof_char) in
  nb ≠ NULL -> nk ≠ NULL ->
  (S (length l) < fuel)%nat ->
  cstring k = []
  ∧ ([] ∈ keys l -> SymTable_put malloc fuel t (Some k) v m = Ret 0 m)
  ∧ ([] ∉ keys l ->
     ∃ m1,
       SymTable_put malloc fuel t (Some k) v m = Ret 1 m1
       ∧ m1 !! nk = Some (OChars [NUL])
       ∧ SymTable_contains fuel t (Some k) m1 = Ret 1 m1
       ∧ SymTable_get fuel t (Some k) m1 = Ret v m1
       ∧ ∃ m2, SymTable_remove fuel t (Some k) m1 = Ret 1 m2
               ∧ table_rep m2 t (uint (uint (sz + 1) - 1)) l).
Proof.
  intros Hsound Hrep Hn nb nk Hnb Hnk Hfuel.
  assert (length l < fuel)%nat as Hfuel' by lia.
  destruct (strlen_cstring k O Hn) as (Hlen & _ & _).
  assert (cstring k = []) as Hk by (destruct (cstring k); [reflexivity | discriminate]).
  split; [exact Hk|]. split.
  - intros Hin. apply (put_bound malloc m t sz l k O v fuel); try assumption.
    rewrite Hk. intros Hnone. apply find_binding_None in Hnone. contradiction.
  - intros Hno. rewrite <- Hk in Hno.
    pose proof Hno as Hfind. apply find_binding_None in Hfind.
    pose proof (put_absent malloc m t sz l k O v fuel Hrep Hn Hfuel'
                  Hsound Hfind Hnb Hnk) as Hput.
    pose proof (put_heap_rep malloc m t sz l k O v Hrep Hn Hsound Hnb Hnk)
      as Hrep1.
    fold nb nk in Hput, Hrep1.
    set (m1 := put_heap m t sz (head_addr l) nb nk k v) in *.
    assert (m1 !! nk = Some (OChars [NUL])) as Hkey.
    { destruct Hrep1 as (_ & _ & Hc & _). simpl in Hc.
      destruct Hc as (_ & _ & _ & Hc & _). rewrite Hk in Hc. exact Hc. }
    exists m1. split; [exact Hput|]. split; [exact Hkey|].
    rewrite (SymTable_contains_spec _ t _ _ k O fuel Hrep1 Hn) by (simpl; lia).
    rewrite (SymTable_get_spec _ t _ _ k O fuel Hrep1 Hn) by (simpl; lia).
    unfold contains_result, get_result. simpl.
    destruct (decide (cstring k = cstring k)); [|contradiction].
    split; [reflexivity|]. split; [reflexivity|].
    exists (unlink_heap m1 t (uint (sz + 1)) []
              (mk_binding nb nk (cstring k) v) l).
    rewrite (SymTable_remove_spec _ t _ _ k O fuel Hrep1 Hn) by (simpl; lia).
    unfold remove_outcome. simpl.
    destruct (decide (cstring k = cstring k)); [|contradiction].
    split; [reflexivity|].
    apply (unlink_heap_rep m1 t (uint (sz + 1)) []
             (mk_binding nb nk (cstring k) v) l Hrep1).
Qed.

Lemma empty_key_is_a_key_witness :
  cstring (str "") = []
  ∧ ([] ∈ keys session_chain ->
     SymTable_put bump 4 session_table (Some (str "")) 12%N session_heap
     = Ret 0 session_heap)
  ∧ ([] ∉ keys session_chain ->
     ∃ m1,
       SymTable_put bump 4 session_table (Some (str "")) 12%N session_heap
       = Ret 1 m1
       ∧ m1 !! 19%N = Some (OChars [NUL])
       ∧ SymTable_contains 4 session_table (Some (str "")) m1 = Ret 1 m1
       ∧ SymTable_get 4 session_table (Some (str "")) m1 = Ret 12%N m1
       ∧ ∃ m2, SymTable_remove 4 session_table (Some (str "")) m1 = Ret 1 m2
               ∧ table_rep m2 session_table (uint (uint (2 + 1) - 1))
                   session_chain).
Proof.
  apply (empty_key_is_a_key bump session_heap session_table 2 session_chain
           (str "") 12%N 4).
  - exact bump_sound.
  - decide_it.
  - reflexivity.
  - vm_compute. discriminate.
  - vm_compute. discriminate.
  - simpl. lia.
Defined.

(** The empty key on the session, run: inserted, found, looked up, removed,
    and the heap is the one before the insertion. *)
Example empty_key_session :
  (do r1 <- SymTable_put bump 4 session_table (Some (str "")) 12%N;
   do r2 <- SymTable_put bump 4 session_table (Some (str "")) 11%N;
   do c <- SymTable_contains 4 session_table (Some (str ""));
   do v <- SymTable_get 4 session_table (Some (str ""));
   do r3 <- SymTable_remove 4 session_table (Some (str ""));
   do r4 <- SymTable_remove 4 session_table (Some (str ""));
   ret (r1, r2, c, v, r3, r4)) session_heap
  = Ret (1, 0, 1, 12%N, 1, 0) session_heap.
Proof. vm_compute. reflexivity. Qed.

(** * Further properties of the library *)

(** ** One call on a table, whatever the loop bound it returned with *)

Lemma put_step malloc (m m' : mem) t sz l k n v fuel r :
  allocator_sound malloc ->
  table_rep m t sz l ->
  strlen k = Some n ->
  SymTable_put malloc fuel t (Some k) v m = Ret r m' ->
  (r = 0 ∧ m' = m ∧ cstring k ∈ keys l)
  ∨ (r = 1 ∧ (cstring k ∉ keys l)
     ∧ ∃ nb nk,
         nb ≠ NULL ∧ nk ≠ NULL ∧ nb ≠ nk
         ∧ m !! nb = None ∧ m !! nk = None
         ∧ m' = put_heap m t sz (head_addr l) nb nk k v
         ∧ table_rep m' t (uint (sz + 1)) (mk_binding nb nk (cstring k) v :: l)).
Proof.
  intros Hsound Hrep Hn Hput.
  set (fuel' := Nat.max fuel (S (length l))).
  apply (SymTable_put_more_fuel malloc t (Some k) v fuel fuel') in Hput;
    [|apply Nat.le_max_l].
  assert (length l < fuel')%nat as Hfuel by (unfold fuel'; lia).
  destruct (find_binding (cstring k) l) as [b|] eqn:Efind.
  - rewrite (put_bound malloc m t _ l k n v fuel' Hrep Hn Hfuel) in Hput
      by congruence.
    injection Hput as <- <-. left.
    destruct (find_binding_Some_key _ _ _ Efind). tauto.
  - right.
    set (nb := malloc m sizeof_abind) in *.
    set (nk := malloc (<[nb := OBind (mk_abind NULL NULL NULL)]> m)
                 ((Z.of_nat n + 1) * sizeof_char)) in *.
    destruct (decide (nb = NULL ∨ nk = NULL)) as [Hnull|Hnn].
    { rewrite (put_out_of_memory malloc m t _ l k n v fuel' Hrep Hn Hfuel
                 Efind Hnull) in Hput. discriminate. }
    assert (nb ≠ NULL ∧ nk ≠ NULL) as [Hnb Hnk] by tauto.
    rewrite (put_absent malloc m t _ l k n v fuel' Hrep Hn Hfuel
               Hsound Efind Hnb Hnk) in Hput.
    injection Hput as <- <-.
    pose proof (put_heap_rep malloc m t _ l k n v Hrep Hn Hsound Hnb Hnk)
      as Hrep'.
    fold nb nk in Hrep'.
    pose proof (Hsound m sizeof_abind Hnb) as Hfb. fold nb in Hfb.
    pose proof (Hsound _ _ Hnk) as Hfk. fold nk in Hfk.
    assert (nb ≠ nk) as Hne.
    { intros E. rewrite <- E, lookup_insert_eq in Hfk. discriminate. }
    rewrite lookup_insert_ne in Hfk by exact Hne.
    split; [reflexivity|]. split; [apply find_binding_None; exact Efind|].
    exists nb, nk. tauto.
Qed.

Lemma remove_step (m m' : mem) t sz l k n fuel r :
  table_rep m t sz l ->
  strlen k = Some n ->
  SymTable_remove fuel t (Some k) m = Ret r m' ->
  (r = 0 ∧ m' = m ∧ (cstring k ∉ keys l))
  ∨ (r = 1
     ∧ ∃ pre x post,
         l = pre ++ x :: post ∧ b_key x = cstring k ∧ (cstring k ∉ keys pre)
         ∧ m' = unlink_heap m t sz pre x post
         ∧ table_rep m' t (uint (sz - 1)) (pre ++ post)).
Proof.
  intros Hrep Hn Hrem.
  set (fuel' := Nat.max fuel (S (length l))).
  apply (SymTable_remove_more_fuel t (Some k) fuel fuel') in Hrem;
    [|apply Nat.le_max_l].
  assert (length l < fuel')%nat as Hfuel by (unfold fuel'; lia).
  rewrite (SymTable_remove_spec m t _ l k n fuel' Hrep Hn Hfuel) in Hrem.
  unfold remove_outcome in Hrem.
  destruct (split_key (cstring k) l) as [[[pre x] post]|] eqn:Esplit.
  - injection Hrem as <- <-. right. split; [reflexivity|].
    apply split_key_Some in Esplit as (-> & Hkx & Hpre & _ & _).
    exists pre, x, post. simpl.
    pose proof (unlink_heap_rep m t _ pre x post Hrep). tauto.
  - injection Hrem as <- <-. left.
    apply split_key_None in Esplit as (Hno & _ & _). tauto.
Qed.

(** ** A new table *)

(** X1. When [malloc] has memory, [SymTable_new] returns a non-null table
    at an address that was not in use, and touches nothing else.  The table
    is empty: its count is 0, no key is found in it ([SymTable_contains]
    returns 0, [SymTable_get] returns [NULL], [SymTable_remove] returns 0 and
    changes nothing), and [SymTable_map] returns without a call of the
    callback. *)
Theorem new_table_is_empty malloc (m0 : mem) k n fuel (f : callback) e :
  allocator_sound malloc ->
  malloc m0 sizeof_SymTable ≠ NULL ->
  strlen k = Some n ->
  (0 < fuel)%nat ->
  ∃ t m,
    SymTable_new malloc m0 = Ret t m
    ∧ t ≠ NULL ∧ m0 !! t = None
    ∧ (∀ a, a ≠ t -> m !! a = m0 !! a)
    ∧ table_rep m t 0 []
    ∧ SymTable_getLength t m = Ret 0 m
    ∧ SymTable_contains fuel t (Some k) m = Ret 0 m
    ∧ SymTable_get fuel t (Some k) m = Ret NULL m
    ∧ SymTable_remove fuel t (Some k) m = Ret 0 m
    ∧ SymTable_map fuel t (Some f) e m = Ret tt m.
Proof.
  intros Hsound Hnn Hn Hfuel.
  destruct (SymTable_new_spec malloc m0 Hnn) as [Hrun Hrep].
  set (t := malloc m0 sizeof_SymTable) in *.
  set (m := <[t := OSymTable (mk_SymTable 0 NULL)]> m0) in *.
  exists t, m. split; [exact Hrun|]. split; [exact Hnn|].
  split; [apply Hsound; exact Hnn|].
  split; [intros a Ha; unfold m; apply lookup_insert_ne; congruence|].
  split; [exact Hrep|].
  split; [eapply SymTable_getLength_spec; exact Hrep|].
  split; [apply (SymTable_contains_spec m t 0 [] k n fuel Hrep Hn Hfuel)|].
  split; [apply (SymTable_get_spec m t 0 [] k n fuel Hrep Hn Hfuel)|].
  split; [apply (SymTable_remove_spec m t 0 [] k n fuel Hrep Hn Hfuel)|].
  rewrite (SymTable_map_spec m t 0 [] f e fuel Hrep); [reflexivity | | exact Hfuel].
  intros b Hb. apply elem_of_nil in Hb. contradiction.
Qed.

Lemma new_table_is_empty_witness :
  ∃ t m,
    SymTable_new bump caller_heap = Ret t m
    ∧ t ≠ NULL ∧ caller_heap !! t = None
    ∧ (∀ a, a ≠ t -> m !! a = caller_heap !! a)
    ∧ table_rep m t 0 []
    ∧ SymTable_getLength t m = Ret 0 m
    ∧ SymTable_contains 1 t (Some (str "x")) m = Ret 0 m
    ∧ SymTable_get 1 t (Some (str "x")) m = Ret NULL m
    ∧ SymTable_remove 1 t (Some (str "x")) m = Ret 0 m
    ∧ SymTable_map 1 t (Some update_bind) 12%N m = Ret tt m.
Proof.
  apply (new_table_is_empty bump caller_heap (str "x") 1 1 update_bind 12%N).
  - exact bump_sound.
  - vm_compute. discriminate.
  - reflexivity.
  - lia.
Defined.

(** ** Running out of memory *)

(** X2. Allocation failure is fatal and never silent.  [SymTable_new]
    aborts when [malloc] returns [NULL].  [SymTable_put] of a key that is
    not bound aborts when [malloc] returns [NULL] for the binding, and also
    when it returns [NULL] for the key after the binding was obtained.  A
    key that is bound is answered with 0 before any allocation, so that call
    returns whatever [malloc] would have done. *)
Theorem allocation_failure_aborts malloc (m : mem) t sz l k n v fuel :
  table_rep m t sz l ->
  strlen k = Some n ->
  (length l < fuel)%nat ->
  let nb := malloc m sizeof_abind in
  let nk := malloc (<[nb := OBind (mk_abind NULL NULL NULL)]> m)
              ((Z.of_nat n + 1) * sizeof_char) in
  (malloc m sizeof_SymTable = NULL -> SymTable_new malloc m = Abort)
  ∧ (cstring k ∉ keys l -> nb = NULL ->
     SymTable_put malloc fuel t (Some k) v m = Abort)
  ∧ (cstring k ∉ keys l -> nb ≠ NULL -> nk = NULL ->
     SymTable_put malloc fuel t (Some k) v m = Abort)
  ∧ (cstring k ∈ keys l ->
     SymTable_put malloc fuel t (Some k) v m = Ret 0 m).
Proof.
  intros Hrep Hn Hfuel nb nk. split; [|split; [|split]].
  - intros Hnull. unfold SymTable_new.
    rewrite (bind_Ret _ _ _ _ _ (alloc_fail malloc m _ _ Hnull)). reflexivity.
  - intros Hno Hnb. apply find_binding_None in Hno.
    apply (put_out_of_memory malloc m t sz l k n v fuel Hrep Hn Hfuel Hno).
    left. exact Hnb.
  - intros Hno _ Hnk. apply find_binding_None in Hno.
    apply (put_out_of_memory malloc m t sz l k n v fuel Hrep Hn Hfuel Hno).
    right. exact Hnk.
  - intros Hin.
    apply (put_bound malloc m t sz l k n v fuel Hrep Hn Hfuel).
    intros Hnone. apply find_binding_None in Hnone. contradiction.
Qed.

Lemma allocation_failure_aborts_witness :
  (no_memory session_heap sizeof_SymTable = NULL ->
   SymTable_new no_memory session_heap = Abort)
  ∧ (cstring (str "c") ∉ keys session_chain ->
     no_memory session_heap sizeof_abind = NULL ->
     SymTable_put no_memory 3 session_table (Some (str "c")) 12%N session_heap
     = Abort)
  ∧ (cstring (str "c") ∉ keys session_chain ->
     no_memory session_heap sizeof_abind ≠ NULL ->
     no_memory
       (<[no_memory session_heap sizeof_abind
          := OBind (mk_abind NULL NULL NULL)]> session_heap)
       ((Z.of_nat 1 + 1) * sizeof_char) = NULL ->
     SymTable_put no_memory 3 session_table (Some (str "c")) 12%N session_heap
     = Abort)
  ∧ (cstring (str "c") ∈ keys session_chain ->
     SymTable_put no_memory 3 session_table (Some (str "c")) 12%N session_heap
     = Ret 0 session_heap).
Proof.
  apply (allocation_failure_aborts no_memory session_heap session_table 2
           session_chain (str "c") 1 12%N 3).
  - decide_it.
  - reflexivity.
  - simpl. lia.
Defined.

(** With no memory left, on the session: a new key aborts, a bound key is
    turned down as always. *)
Example no_memory_session :
  SymTable_put no_memory 3 session_table (Some (str "c")) 12%N session_heap
  = Abort
  ∧ SymTable_put no_memory 3 session_table (Some (str "a")) 12%N session_heap
    = Ret 0 session_heap.
Proof. split; vm_compute; reflexivity. Qed.

(** The binding is obtained, the key array is not: the call aborts. *)
Example no_memory_for_the_key :
  bindings_only session_heap sizeof_abind = 18%N
  ∧ SymTable_put bindings_only 3 session_table (Some (str "c")) 12%N
      session_heap = Abort.
Proof. split; vm_compute; reflexivity. Qed.

(** ** Destroying a table *)

(** X3. [SymTable_free] of a table returns; it releases the header, every
    binding and every key array, and leaves every other object of the heap
    as it was, the objects the value pointers lead to included.  After it
    the table pointer dangles: using it, or freeing it again, is undefined
    behaviour.  [SymTable_free] of the null pointer does nothing. *)
Theorem free_releases_the_table (m : mem) t sz l fuel :
  table_rep m t sz l ->
  (length l < fuel)%nat ->
  ∃ m',
    SymTable_free fuel t m = Ret tt m'
    ∧ (∀ a, a ∈ footprint t l -> m' !! a = None)
    ∧ (∀ a, a ∉ footprint t l -> m' !! a = m !! a)
    ∧ SymTable_getLength t m' = Undef
    ∧ SymTable_free fuel t m' = Undef
    ∧ SymTable_free fuel NULL m = Ret tt m.
Proof.
  intros Hrep Hfuel.
  destruct (SymTable_free_spec m t sz l fuel Hrep Hfuel)
    as (m' & Hrun & Hgone & Hrest).
  destruct Hrep as (Ht & _).
  assert (deref m' t = None) as Hd.
  { rewrite deref_nonnull by exact Ht. apply Hgone. unfold footprint.
    apply elem_of_cons. tauto. }
  exists m'. split; [exact Hrun|]. split; [exact Hgone|].
  split; [exact Hrest|]. split; [|split; [|reflexivity]].
  - unfold SymTable_getLength. rewrite (nonnull_true _ Ht). simpl.
    unfold bind at 1, ret at 1. unfold bind, load_SymTable. rewrite Hd.
    reflexivity.
  - unfold SymTable_free. rewrite (nonnull_true _ Ht). simpl.
    unfold bind, load_SymTable. rewrite Hd. reflexivity.
Qed.

Lemma free_releases_the_table_witness :
  ∃ m',
    SymTable_free 3 session_table session_heap = Ret tt m'
    ∧ (∀ a, a ∈ footprint session_table session_chain -> m' !! a = None)
    ∧ (∀ a, a ∉ footprint session_table session_chain ->
            m' !! a = session_heap !! a)
    ∧ SymTable_getLength session_table m' = Undef
    ∧ SymTable_free 3 session_table m' = Undef
    ∧ SymTable_free 3 NULL session_heap = Ret tt session_heap.
Proof.
  apply (free_releases_the_table session_heap session_table 2 session_chain 3).
  - decide_it.
  - simpl. lia.
Defined.

(** ** No block is lost *)

Lemma footprint_cons_iff a t b l :
  a ∈ footprint t (b :: l) ↔ a = b_addr b ∨ a = b_kaddr b ∨ a ∈ footprint t l.
Proof.
  unfold footprint. rewrite !elem_of_cons, elem_of_addrs_cons. tauto.
Qed.

Lemma footprint_middle_iff a t pre x post :
  a ∈ footprint t (pre ++ x :: post)
  ↔ a = b_addr x ∨ a = b_kaddr x ∨ a ∈ footprint t (pre ++ post).
Proof.
  unfold footprint.
  rewrite !elem_of_cons, !elem_of_addrs_app, elem_of_addrs_cons. tauto.
Qed.

Lemma run_ops_beside malloc fuel t (m0 : mem) ops :
  allocator_sound malloc ->
  Forall (fun o => is_Some (strlen (op_key o))) ops ->
  ∀ (m m' : mem) sz l,
    table_rep m t sz l -> beside m0 m t l ->
    run_ops malloc fuel t ops m = Ret tt m' ->
    ∃ sz' l', table_rep m' t sz' l' ∧ beside m0 m' t l'
              ∧ (length l' <= length l + length ops)%nat.
Proof.
  intros Hsound Hkeys.
  induction Hkeys as [|o ops [n Hn] Hkeys IH]; intros m m' sz l Hrep Hbe Hrun.
  - simpl in Hrun. injection Hrun as <-. exists sz, l. simpl.
    split; [exact Hrep|]. split; [exact Hbe | lia].
  - destruct Hbe as [Hfresh Hsame].
    destruct o as [k v|k]; simpl in Hrun, Hn; unfold bind in Hrun.
    + destruct (SymTable_put malloc fuel t (Some k) v m) as [r m1| | |] eqn:E;
        try discriminate.
      destruct (put_step malloc m m1 t sz l k n v fuel r Hsound Hrep Hn E)
        as [(_ & -> & _)|(_ & _ & nb & nk & Hnb & Hnk & Hne & Hfb & Hfk & -> & Hrep1)].
      * destruct (IH m m' sz l Hrep (conj Hfresh Hsame) Hrun)
          as (sz' & l' & H1 & H2 & H3).
        exists sz', l'. simpl. split; [exact H1|]. split; [exact H2 | lia].
      * destruct (IH _ m' _ _ Hrep1) as (sz' & l' & H1 & H2 & H3);
          [|exact Hrun|].
        -- split.
           ++ intros a Ha. apply footprint_cons_iff in Ha. simpl in Ha.
              destruct Ha as [->|[->|Ha]]; [| |apply Hfresh; exact Ha].
              ** destruct (decide (nb ∈ footprint t l)) as [Hin|Hout];
                   [apply Hfresh; exact Hin|].
                 rewrite <- Hsame by exact Hout. exact Hfb.
              ** destruct (decide (nk ∈ footprint t l)) as [Hin|Hout];
                   [apply Hfresh; exact Hin|].
                 rewrite <- Hsame by exact Hout. exact Hfk.
           ++ intros a Ha. rewrite footprint_cons_iff in Ha. simpl in Ha.
              assert (a ≠ t) as Hat.
              { intros ->. apply Ha. right. right. unfold footprint.
                apply elem_of_cons. tauto. }
              assert (a ≠ nb ∧ a ≠ nk ∧ a ∉ footprint t l) as (A1 & A2 & A3)
                by tauto.
              unfold put_heap. rewrite !lookup_insert_ne by congruence.
              apply Hsame. exact A3.
        -- exists sz', l'. simpl in *. split; [exact H1|].
           split; [exact H2 | lia].
    + destruct (SymTable_remove fuel t (Some k) m) as [r m1| | |] eqn:E;
        try discriminate.
      destruct (remove_step m m1 t sz l k n fuel r Hrep Hn E)
        as [(_ & -> & _)|(_ & pre & x & post & -> & Hx & Hpre & -> & Hrep1)].
      * destruct (IH m m' sz l Hrep (conj Hfresh Hsame) Hrun)
          as (sz' & l' & H1 & H2 & H3).
        exists sz', l'. simpl. split; [exact H1|]. split; [exact H2 | lia].
      * destruct (unlink_heap_frame m t sz pre x post Hrep) as (G1 & G2 & G3).
        destruct (IH _ m' _ _ Hrep1) as (sz' & l' & H1 & H2 & H3);
          [|exact Hrun|].
        -- split.
           ++ intros a Ha. apply Hfresh. apply footprint_middle_iff. tauto.
           ++ intros a Ha.
              destruct (decide (a = b_addr x)) as [->|Hax].
              { rewrite G1. symmetry. apply Hfresh.
                apply footprint_middle_iff. tauto. }
              destruct (decide (a = b_kaddr x)) as [->|Hak].
              { rewrite G2. symmetry. apply Hfresh.
                apply footprint_middle_iff. tauto. }
              assert (a ∉ footprint t (pre ++ x :: post)) as Hout.
              { rewrite footprint_middle_iff. tauto. }
              rewrite <- Hsame by exact Hout. apply G3; try assumption.
              ** intros ->. apply Hout. unfold footprint.
                 apply elem_of_cons. tauto.
              ** intros p Hp ->. apply Hout. unfold footprint.
                 apply elem_of_cons. right. apply elem_of_addrs_addr.
                 apply elem_of_app. left. apply last_Some_elem_of. exact Hp.
        -- exists sz', l'. split; [exact H1|]. split; [exact H2|].
           rewrite length_app in *. simpl in *. lia.
Qed.

(** X4. No block is lost.  Create a table on a heap [m0], make any calls of
    [SymTable_put] and [SymTable_remove] on it, and destroy it: if nothing
    else touched the heap in between, the heap is [m0] again.  Whatever the
    calls allocated for bindings and keys, [SymTable_remove] and
    [SymTable_free] have released; nothing of the caller is gone. *)
Theorem free_gives_back_every_block malloc (m0 m1 m : mem) t ops fuel fuel' :
  allocator_sound malloc ->
  Forall (fun o => is_Some (strlen (op_key o))) ops ->
  SymTable_new malloc m0 = Ret t m1 ->
  run_ops malloc fuel t ops m1 = Ret tt m ->
  (length ops < fuel')%nat ->
  SymTable_free fuel' t m = Ret tt m0.
Proof.
  intros Hsound Hkeys Hnew Hrun Hfuel.
  apply SymTable_new_returns in Hnew as (Hnn & Ht & ->).
  destruct (SymTable_new_spec malloc m0 Hnn) as [_ Hrep]. rewrite <- Ht in Hrep.
  assert (beside m0 (<[t := OSymTable (mk_SymTable 0 NULL)]> m0) t []) as Hbe.
  { split; intros a Ha; unfold footprint in Ha.
    - apply elem_of_cons in Ha as [->|Ha];
        [|apply elem_of_addrs_nil in Ha; contradiction].
      rewrite Ht. apply Hsound. exact Hnn.
    - rewrite not_elem_of_cons in Ha. apply lookup_insert_ne. intros E.
      symmetry in E. tauto. }
  destruct (run_ops_beside malloc fuel t m0 ops Hsound Hkeys _ m 0 []
              Hrep Hbe Hrun) as (sz' & l' & Hrep' & [Hfresh Hsame] & Hlen).
  simpl in Hlen.
  destruct (SymTable_free_spec m t sz' l' fuel' Hrep') as (mf & Hfree & Hgone & Hrest);
    [lia|].
  rewrite Hfree. f_equal. apply map_eq. intros a.
  destruct (decide (a ∈ footprint t l')) as [Hin|Hout].
  - rewrite Hgone, Hfresh by exact Hin. reflexivity.
  - rewrite Hrest, Hsame by exact Hout. reflexivity.
Qed.

Lemma free_gives_back_every_block_witness :
  SymTable_free 7 session_table session_final = Ret tt caller_heap.
Proof.
  apply (free_gives_back_every_block bump caller_heap
           (<[13%N := OSymTable (mk_SymTable 0 NULL)]> caller_heap)
           session_final session_table session_ops 4 7).
  - exact bump_sound.
  - repeat constructor; vm_compute; eauto.
  - vm_compute. reflexivity.
  - vm_compute. reflexivity.
  - simpl. lia.
Defined.

(** ** Insertion undone by removal *)

(** X5. Removing a key right after inserting it undoes the insertion to
    the last byte.  On a table whose count is an [unsigned int] value,
    [SymTable_put] of a key that is not bound followed by [SymTable_remove]
    of the same key returns 1 both times and leaves the heap exactly as it
    was before the two calls: the blocks obtained are released, the header
    has its old first binding and its old count. *)
Theorem put_then_remove_restores_heap malloc (m : mem) t sz l k n v fuel :
  allocator_sound malloc ->
  table_rep m t sz l ->
  0 <= sz < UINT_MODULUS ->
  strlen k = Some n ->
  cstring k ∉ keys l ->
  let nb := malloc m sizeof_abind in
  let nk := malloc (<[nb := OBind (mk_abind NULL NULL NULL)]> m)
              ((Z.of_nat n + 1) * sizeof_char) in
  nb ≠ NULL -> nk ≠ NULL ->
  (S (length l) < fuel)%nat ->
  (do r1 <- SymTable_put malloc fuel t (Some k) v;
   do r2 <- SymTable_remove fuel t (Some k);
   ret (r1, r2)) m
  = Ret (1, 1) m.
Proof.
  intros Hsound Hrep Hsz Hn Hno nb nk Hnb Hnk Hfuel.
  pose proof Hno as Hfind. apply find_binding_None in Hfind.
  assert (length l < fuel)%nat as Hfuel' by lia.
  pose proof (put_absent malloc m t sz l k n v fuel Hrep Hn Hfuel'
                Hsound Hfind Hnb Hnk) as Hput.
  pose proof (put_heap_rep malloc m t sz l k n v Hrep Hn Hsound Hnb Hnk)
    as Hrep1.
  fold nb nk in Hput, Hrep1.
  pose proof (Hsound m sizeof_abind Hnb) as Hfb. fold nb in Hfb.
  pose proof (Hsound _ _ Hnk) as Hfk. fold nk in Hfk.
  assert (nb ≠ nk) as Hne.
  { intros E. rewrite <- E, lookup_insert_eq in Hfk. discriminate. }
  rewrite lookup_insert_ne in Hfk by exact Hne.
  rewrite (bind_Ret _ _ _ _ _ Hput).
  erewrite bind_Ret; cycle 1.
  { rewrite (SymTable_remove_spec _ t _ _ k n fuel Hrep1 Hn) by (simpl; lia).
    unfold remove_outcome. simpl.
    destruct (decide (cstring k = cstring k)); [reflexivity | contradiction]. }
  unfold ret. f_equal.
  destruct Hrep as (Ht & Hm & _).
  assert (t ≠ nb ∧ t ≠ nk) as [Htb Htk] by (split; congruence).
  unfold unlink_heap, put_heap. simpl.
  rewrite uint_pred. replace (sz + 1 - 1) with sz by lia.
  rewrite (uint_small sz Hsz).
  apply map_eq. intros a.
  destruct (decide (a = nb)) as [->|Hab];
    [rewrite lookup_delete_eq; symmetry; exact Hfb|].
  rewrite lookup_delete_ne by congruence.
  destruct (decide (a = nk)) as [->|Hak];
    [rewrite lookup_delete_eq; symmetry; exact Hfk|].
  rewrite lookup_delete_ne by congruence.
  destruct (decide (a = t)) as [->|Hat];
    [rewrite lookup_insert_eq; symmetry; exact Hm|].
  rewrite !lookup_insert_ne by congruence. reflexivity.
Qed.

Lemma put_then_remove_restores_heap_witness :
  (do r1 <- SymTable_put bump 4 session_table (Some (str "c")) 12%N;
   do r2 <- SymTable_remove 4 session_table (Some (str "c"));
   ret (r1, r2)) session_heap
  = Ret (1, 1) session_heap.
Proof.
  apply (put_then_remove_restores_heap bump session_heap session_table 2
           session_chain (str "c") 1 12%N 4).
  - exact bump_sound.
  - decide_it.
  - unfold UINT_MODULUS. lia.
  - reflexivity.
  - decide_it.
  - vm_compute. discriminate.
  - vm_compute. discriminate.
  - simpl. lia.
Defined.

(** ** A removed key is gone *)

Lemma keys_app l1 l2 : keys (l1 ++ l2) = keys l1 ++ keys l2.
Proof. unfold keys. apply fmap_app. Qed.

Lemma NoDup_keys_middle pre x post :
  NoDup (keys (pre ++ x :: post)) ->
  NoDup (keys (pre ++ post)) ∧ (b_key x ∉ keys (pre ++ post)).
Proof.
  rewrite !keys_app. unfold keys at 2. rewrite fmap_cons.
  fold (keys post). intros H.
  apply NoDup_app in H as (H1 & H2 & H3).
  apply NoDup_cons in H3 as (H3 & H4). split.
  - apply NoDup_app. split; [exact H1|]. split; [|exact H4].
    intros a Ha Ha'. apply (H2 a Ha). apply elem_of_cons. tauto.
  - rewrite elem_of_app. intros [Hin|Hin]; [|contradiction].
    apply (H2 _ Hin). apply elem_of_cons. tauto.
Qed.

(** X6. On a table with pairwise different keys, once [SymTable_remove] of
    a bound key has returned 1 the key is gone: [SymTable_contains] returns
    0, [SymTable_get] returns [NULL], a second [SymTable_remove] returns 0
    and changes nothing, and the keys are still pairwise different. *)
Theorem removed_key_is_gone (m : mem) t sz l k n fuel :
  table_rep m t sz l ->
  NoDup (keys l) ->
  strlen k = Some n ->
  cstring k ∈ keys l ->
  (length l < fuel)%nat ->
  ∃ m' l',
    SymTable_remove fuel t (Some k) m = Ret 1 m'
    ∧ table_rep m' t (uint (sz - 1)) l'
    ∧ S (length l') = length l
    ∧ NoDup (keys l')
    ∧ (cstring k ∉ keys l')
    ∧ SymTable_contains fuel t (Some k) m' = Ret 0 m'
    ∧ SymTable_get fuel t (Some k) m' = Ret NULL m'
    ∧ SymTable_remove fuel t (Some k) m' = Ret 0 m'.
Proof.
  intros Hrep Hnd Hn Hin Hfuel.
  destruct (find_binding_split (cstring k) l) as (pre & x & post & E).
  { intros Hnone. apply find_binding_None in Hnone. contradiction. }
  pose proof (SymTable_remove_spec m t sz l k n fuel Hrep Hn Hfuel) as Hrun.
  unfold remove_outcome in Hrun. rewrite E in Hrun. simpl in Hrun.
  apply split_key_Some in E as (-> & Hx & Hpre & _ & _).
  pose proof (unlink_heap_rep m t sz pre x post Hrep) as Hrep'.
  destruct (NoDup_keys_middle pre x post Hnd) as [Hnd' Hgone].
  rewrite Hx in Hgone.
  assert (length (pre ++ post) < fuel)%nat as Hfuel'.
  { rewrite length_app in *. simpl in Hfuel. lia. }
  pose proof Hgone as Hfind. apply find_binding_None in Hfind.
  exists (unlink_heap m t sz pre x post), (pre ++ post).
  split; [exact Hrun|]. split; [exact Hrep'|].
  split; [rewrite !length_app; simpl; lia|].
  split; [exact Hnd'|]. split; [exact Hgone|].
  rewrite (SymTable_contains_spec _ t _ _ k n fuel Hrep' Hn Hfuel').
  rewrite (SymTable_get_spec _ t _ _ k n fuel Hrep' Hn Hfuel').
  rewrite (SymTable_remove_spec _ t _ _ k n fuel Hrep' Hn Hfuel').
  unfold contains_result, get_result, remove_outcome. rewrite Hfind.
  destruct (split_key (cstring k) (pre ++ post)) as [[[p1 x1] p2]|] eqn:E;
    [|tauto].
  apply split_key_Some in E as (_ & _ & _ & _ & E). congruence.
Qed.

Lemma removed_key_is_gone_witness :
  ∃ m' l',
    SymTable_remove 3 session_table (Some (str "a")) session_heap = Ret 1 m'
    ∧ table_rep m' session_table (uint (2 - 1)) l'
    ∧ S (length l') = length session_chain
    ∧ NoDup (keys l')
    ∧ (cstring (str "a") ∉ keys l')
    ∧ SymTable_contains 3 session_table (Some (str "a")) m' = Ret 0 m'
    ∧ SymTable_get 3 session_table (Some (str "a")) m' = Ret NULL m'
    ∧ SymTable_remove 3 session_table (Some (str "a")) m' = Ret 0 m'.
Proof.
  apply (removed_key_is_gone session_heap session_table 2 session_chain
           (str "a") 1 3).
  - decide_it.
  - decide_it.
  - reflexivity.
  - decide_it.
  - simpl. lia.
Defined.

(** ** Calls on one key and lookups of another *)

Lemma find_binding_skip k pre x post :
  b_key x ≠ k ->
  find_binding k (pre ++ x :: post) = find_binding k (pre ++ post).
Proof.
  intros Hx. induction pre as [|p pre IH]; simpl.
  - destruct (decide (b_key x = k)); [contradiction | reflexivity].
  - destruct (decide (b_key p = k)); [reflexivity | exact IH].
Qed.

(** X7. What [SymTable_put] and [SymTable_remove] do to one key does not
    show in the lookups of another: for keys [k] and [k'] with different
    strings, [SymTable_contains] and [SymTable_get] of [k'] return after a
    [SymTable_put] of [k], and after a [SymTable_remove] of [k], what they
    returned before, whether that call succeeded or not. *)
Theorem other_keys_are_unaffected malloc (m : mem) t sz l k n k' n' v fuel :
  allocator_sound malloc ->
  table_rep m t sz l ->
  strlen k = Some n ->
  strlen k' = Some n' ->
  cstring k ≠ cstring k' ->
  let nb := malloc m sizeof_abind in
  let nk := malloc (<[nb := OBind (mk_abind NULL NULL NULL)]> m)
              ((Z.of_nat n + 1) * sizeof_char) in
  (cstring k ∉ keys l -> nb ≠ NULL ∧ nk ≠ NULL) ->
  (S (length l) < fuel)%nat ->
  ∃ c g,
    SymTable_contains fuel t (Some k') m = Ret c m
    ∧ SymTable_get fuel t (Some k') m = Ret g m
    ∧ (∃ r m', SymTable_put malloc fuel t (Some k) v m = Ret r m'
               ∧ SymTable_contains fuel t (Some k') m' = Ret c m'
               ∧ SymTable_get fuel t (Some k') m' = Ret g m')
    ∧ (∃ r m', SymTable_remove fuel t (Some k) m = Ret r m'
               ∧ SymTable_contains fuel t (Some k') m' = Ret c m'
               ∧ SymTable_get fuel t (Some k') m' = Ret g m').
Proof.
  intros Hsound Hrep Hn Hn' Hdiff nb nk Halloc Hfuel.
  assert (length l < fuel)%nat as Hfuel' by lia.
  exists (contains_result (cstring k') l), (get_result (cstring k') l).
  split; [apply (SymTable_contains_spec m t sz l k' n' fuel Hrep Hn' Hfuel')|].
  split; [apply (SymTable_get_spec m t sz l k' n' fuel Hrep Hn' Hfuel')|].
  split.
  - destruct (find_binding (cstring k) l) as [b|] eqn:Efind.
    + exists 0, m.
      split; [apply (put_bound malloc m t sz l k n v fuel Hrep Hn Hfuel');
              congruence|].
      split; [apply (SymTable_contains_spec m t sz l k' n' fuel Hrep Hn' Hfuel')|].
      apply (SymTable_get_spec m t sz l k' n' fuel Hrep Hn' Hfuel').
    + assert (cstring k ∉ keys l) as Hno by (apply find_binding_None; exact Efind).
      destruct (Halloc Hno) as [Hnb Hnk].
      pose proof (put_heap_rep malloc m t sz l k n v Hrep Hn Hsound Hnb Hnk)
        as Hrep1.
      fold nb nk in Hrep1.
      exists 1, (put_heap m t sz (head_addr l) nb nk k v).
      split; [apply (put_absent malloc m t sz l k n v fuel); assumption|].
      rewrite (SymTable_contains_spec _ t _ _ k' n' fuel Hrep1 Hn') by (simpl; lia).
      rewrite (SymTable_get_spec _ t _ _ k' n' fuel Hrep1 Hn') by (simpl; lia).
      unfold contains_result, get_result. simpl.
      destruct (decide (cstring k = cstring k')); [contradiction | tauto].
  - rewrite (SymTable_remove_spec m t sz l k n fuel Hrep Hn Hfuel').
    unfold remove_outcome.
    destruct (split_key (cstring k) l) as [[[pre x] post]|] eqn:E.
    + apply split_key_Some in E as (-> & Hx & _).
      pose proof (unlink_heap_rep m t sz pre x post Hrep) as Hrep1.
      assert (length (pre ++ post) < fuel)%nat as Hfuel1.
      { rewrite length_app in *. simpl in Hfuel'. lia. }
      exists 1, (unlink_heap m t sz pre x post). simpl.
      split; [reflexivity|].
      rewrite (SymTable_contains_spec _ t _ _ k' n' fuel Hrep1 Hn' Hfuel1).
      rewrite (SymTable_get_spec _ t _ _ k' n' fuel Hrep1 Hn' Hfuel1).
      unfold contains_result, get_result.
      rewrite (find_binding_skip (cstring k') pre x post) by congruence.
      tauto.
    + exists 0, m. split; [reflexivity|].
      split; [apply (SymTable_contains_spec m t sz l k' n' fuel Hrep Hn' Hfuel')|].
      apply (SymTable_get_spec m t sz l k' n' fuel Hrep Hn' Hfuel').
Qed.

Lemma other_keys_are_unaffected_witness :
  ∃ c g,
    SymTable_contains 4 session_table (Some (str "b")) session_heap
    = Ret c session_heap
    ∧ SymTable_get 4 session_table (Some (str "b")) session_heap
      = Ret g session_heap
    ∧ (∃ r m', SymTable_put bump 4 session_table (Some (str "a")) 12%N
                 session_heap = Ret r m'
               ∧ SymTable_contains 4 session_table (Some (str "b")) m' = Ret c m'
               ∧ SymTable_get 4 session_table (Some (str "b")) m' = Ret g m')
    ∧ (∃ r m', SymTable_remove 4 session_table (Some (str "a")) session_heap
               = Ret r m'
               ∧ SymTable_contains 4 session_table (Some (str "b")) m' = Ret c m'
               ∧ SymTable_get 4 session_table (Some (str "b")) m' = Ret g m').
Proof.
  apply (other_keys_are_unaffected bump session_heap session_table 2
           session_chain (str "a") 1 (str "b") 1 12%N 4).
  - exact bump_sound.
  - decide_it.
  - reflexivity.
  - reflexivity.
  - vm_compute. discriminate.
  - intros _. split; vm_compute; discriminate.
  - simpl. lia.
Defined.

(** ** The table and the history of its calls *)

Lemma log_find_None k log : log_find k log = None ↔ k ∉ log.*1.
Proof.
  induction log as [|e log IH]; simpl.
  - split; [intros _; apply not_elem_of_nil | reflexivity].
  - rewrite not_elem_of_cons. destruct (decide (e.1 = k)) as [Hk|Hk].
    + split; [discriminate | intros [H _]; congruence].
    + rewrite IH. split; [intros H; split; [congruence | exact H] | tauto].
Qed.

Lemma log_find_elem k v log :
  NoDup log.*1 -> (k, v) ∈ log -> log_find k log = Some v.
Proof.
  induction log as [|e log IH]; simpl; intros Hnd Hin.
  - apply elem_of_nil in Hin. contradiction.
  - apply NoDup_cons in Hnd as [Hhead Hnd].
    apply elem_of_cons in Hin as [<-|Hin]; simpl.
    + destruct (decide (k = k)); [reflexivity | contradiction].
    + destruct (decide (e.1 = k)) as [Hk|Hk]; [|apply IH; assumption].
      exfalso. apply Hhead. rewrite Hk.
      apply list_elem_of_fmap. exists (k, v). split; [reflexivity | exact Hin].
Qed.

Lemma find_binding_elem k l b :
  find_binding k l = Some b -> (k, b_value b) ∈ entries l.
Proof.
  induction l as [|x l IH]; simpl; intros H; [discriminate|].
  change (entries (x :: l)) with ((b_key x, b_value x) :: entries l).
  apply elem_of_cons. destruct (decide (b_key x = k)) as [Hk|Hk].
  - injection H as <-. left. rewrite Hk. reflexivity.
  - right. apply IH. exact H.
Qed.

(** X8. A table built by the library answers as the history of its calls
    says.  Let [log] be the bindings that the calls made so far inserted
    and did not remove ([insertion_order], a key at most once).  Then
    [SymTable_contains] returns 1 exactly for the keys of [log],
    [SymTable_get] returns the value [log] associates with the key and
    [NULL] for a key it does not have, and [SymTable_getLength] returns the
    number of bindings of [log] (modulo [2^32]). *)
Theorem lookups_agree_with_history malloc t ops (m : mem) k n fuel :
  allocator_sound malloc ->
  reach malloc t ops m ->
  strlen k = Some n ->
  (length (insertion_order ops) < fuel)%nat ->
  NoDup (insertion_order ops).*1
  ∧ SymTable_contains fuel t (Some k) m
    = Ret (match log_find (cstring k) (insertion_order ops) with
           | Some _ => 1
           | None => 0
           end) m
  ∧ SymTable_get fuel t (Some k) m
    = Ret (match log_find (cstring k) (insertion_order ops) with
           | Some v => v
           | None => NULL
           end) m
  ∧ SymTable_getLength t m
    = Ret (uint (Z.of_nat (length (insertion_order ops)))) m.
Proof.
  intros Hsound Hreach Hn Hfuel.
  destruct (reach_inv malloc t ops m Hsound Hreach) as (l & Hrep & Hnd & Hent).
  set (log := insertion_order ops) in *.
  assert (log = reverse (entries l)) as Hlog
    by (rewrite Hent, reverse_involutive; reflexivity).
  assert (length l = length log) as Hlen.
  { rewrite Hlog, length_reverse. unfold entries. rewrite length_fmap.
    reflexivity. }
  assert (NoDup log.*1) as Hndlog.
  { rewrite Hlog, fmap_reverse, entries_keys, reverse_Permutation. exact Hnd. }
  assert (length l < fuel)%nat as Hfuel' by lia.
  split; [exact Hndlog|].
  rewrite (SymTable_contains_spec m t _ l k n fuel Hrep Hn Hfuel').
  rewrite (SymTable_get_spec m t _ l k n fuel Hrep Hn Hfuel').
  rewrite (SymTable_getLength_spec m t _ l Hrep), Hlen.
  unfold contains_result, get_result.
  destruct (find_binding (cstring k) l) as [b|] eqn:Efind.
  - apply find_binding_elem in Efind.
    rewrite Hent, elem_of_reverse in Efind.
    rewrite (log_find_elem _ _ _ Hndlog Efind). tauto.
  - apply find_binding_None in Efind.
    rewrite <- entries_keys, Hent, fmap_reverse, elem_of_reverse in Efind.
    apply log_find_None in Efind. rewrite Efind. tauto.
Qed.

Lemma lookups_agree_with_history_witness :
  NoDup (insertion_order session_ops).*1
  ∧ SymTable_contains 7 session_table (Some (str "c")) session_final
    = Ret (match log_find (cstring (str "c")) (insertion_order session_ops) with
           | Some _ => 1
           | None => 0
           end) session_final
  ∧ SymTable_get 7 session_table (Some (str "c")) session_final
    = Ret (match log_find (cstring (str "c")) (insertion_order session_ops) with
           | Some v => v
           | None => NULL
           end) session_final
  ∧ SymTable_getLength session_table session_final
    = Ret (uint (Z.of_nat (length (insertion_order session_ops)))) session_final.
Proof.
  apply (lookups_agree_with_history bump session_table session_ops
           session_final (str "c") 1 7).
  - exact bump_sound.
  - exact session_reach.
  - reflexivity.
  - vm_compute. lia.
Defined.

(** The history of the session: ["a"] was inserted, refused a second time
    and removed; ["b"] and ["c"] are bound. *)
Example session_history :
  insertion_order session_ops
  = [ (String.list_ascii_of_string "b", 11%N);
      (String.list_ascii_of_string "c", 12%N) ].
Proof. vm_compute. reflexivity. Qed.

(** ** Presence by the value returned *)

Lemma find_binding_In k l b : find_binding k l = Some b -> b ∈ l.
Proof.
  induction l as [|x l IH]; simpl; intros H; [discriminate|].
  apply elem_of_cons. destruct (decide (b_key x = k)).
  - injection H as <-. tauto.
  - right. apply IH. exact H.
Qed.

(** X9. As long as no binding of the table holds the null pointer as its
    value, the pointer [SymTable_get] returns tells whether the key is
    bound: it is not [NULL] exactly when [SymTable_contains] returns 1.
    (The driver tests the result of [SymTable_get] this way; the values it
    binds are addresses of [int]s.) *)
Theorem get_tells_presence (m : mem) t sz l k n fuel :
  table_rep m t sz l ->
  Forall (fun b => b_value b ≠ NULL) l ->
  strlen k = Some n ->
  (length l < fuel)%nat ->
  ∃ c g,
    SymTable_contains fuel t (Some k) m = Ret c m
    ∧ SymTable_get fuel t (Some k) m = Ret g m
    ∧ (g ≠ NULL ↔ c = 1)
    ∧ (g = NULL ↔ c = 0).
Proof.
  intros Hrep Hvals Hn Hfuel.
  exists (contains_result (cstring k) l), (get_result (cstring k) l).
  split; [apply (SymTable_contains_spec m t sz l k n fuel Hrep Hn Hfuel)|].
  split; [apply (SymTable_get_spec m t sz l k n fuel Hrep Hn Hfuel)|].
  unfold contains_result, get_result.
  destruct (find_binding (cstring k) l) as [b|] eqn:E.
  - apply find_binding_In in E. rewrite Forall_forall in Hvals.
    specialize (Hvals b E). split; split; intros H; try tauto; discriminate.
  - split; split; intros H; try reflexivity; try tauto; discriminate.
Qed.

Lemma get_tells_presence_witness :
  ∃ c g,
    SymTable_contains 3 session_table (Some (str "b")) session_heap
    = Ret c session_heap
    ∧ SymTable_get 3 session_table (Some (str "b")) session_heap
      = Ret g session_heap
    ∧ (g ≠ NULL ↔ c = 1)
    ∧ (g = NULL ↔ c = 0).
Proof.
  apply (get_tells_presence session_heap session_table 2 session_chain
           (str "b") 1 3).
  - decide_it.
  - decide_it.
  - reflexivity.
  - simpl. lia.
Defined.

(** ** The driver's traversal *)

Lemma load_int_eq' (m : mem) p i :
  p ≠ NULL -> m !! p = Some (OInt i) -> load_int p m = Ret i m.
Proof.
  intros H1 H2. unfold load_int. rewrite (deref_Some m p _ H1 H2). reflexivity.
Qed.

Lemma update_bind_eq k v e (m : mem) i d :
  v ≠ NULL -> e ≠ NULL ->
  m !! v = Some (OInt i) -> m !! e = Some (OInt d) ->
  INT_MIN <= i + d <= INT_MAX ->
  update_bind k v e m = Ret tt (<[v := OInt (i + d)]> m).
Proof.
  intros Hv He Hmv Hme Hrange. unfold update_bind.
  rewrite (nonnull_true _ Hv), (nonnull_true _ He). simpl.
  unfold bind at 1, ret at 1. unfold bind at 1, ret at 1.
  rewrite (bind_Ret _ _ _ _ _ (load_int_eq' m v i Hv Hmv)).
  rewrite (bind_Ret _ _ _ _ _ (load_int_eq' m e d He Hme)).
  destruct (decide (INT_MIN <= i + d <= INT_MAX)); [|contradiction].
  unfold store_int. rewrite (deref_Some m v _ Hv Hmv). reflexivity.
Qed.

Lemma for_each_app l1 l2 f e (m : mem) :
  for_each (l1 ++ l2) f e m = (for_each l1 f e ;; for_each l2 f e) m.
Proof.
  revert m. induction l1 as [|b l1 IH]; intros m; [reflexivity|].
  simpl. unfold bind.
  destruct (f (b_kaddr b) (b_value b) e m) as [[] m1| | |]; try reflexivity.
  rewrite IH. reflexivity.
Qed.

Lemma int_room_insert (m : mem) d p q o :
  p ≠ q -> int_room (<[q := o]> m) d p ↔ int_room m d p.
Proof.
  intros H. unfold int_room. rewrite lookup_insert_ne by congruence. tauto.
Qed.

(** The calls of [update_bind] on a chain whose values lead to different
    [int]s with room for [d]. *)
Lemma for_each_update_bind e d l :
  e ≠ NULL ->
  ∀ m : mem,
    m !! e = Some (OInt d) ->
    NoDup (values l) ->
    e ∉ values l ->
    Forall (fun b => b_value b ≠ NULL ∧ int_room m d (b_value b)) l ->
    ∃ m',
      for_each l update_bind e m = Ret tt m'
      ∧ (∀ p i, p ∈ values l -> m !! p = Some (OInt i) ->
                m' !! p = Some (OInt (i + d)))
      ∧ (∀ a, a ∉ values l -> m' !! a = m !! a).
Proof.
  intros He. unfold values.
  induction l as [|b l IH]; intros m Hme Hnd Hev Hall.
  - exists m. split; [reflexivity|]. split; [|reflexivity].
    intros p i Hp. apply elem_of_nil in Hp. contradiction.
  - rewrite fmap_cons in Hnd, Hev.
    apply NoDup_cons in Hnd as [Hb Hnd].
    rewrite not_elem_of_cons in Hev. destruct Hev as [Heb Hev].
    apply Forall_cons in Hall as [[Hv Hroom] Hall].
    unfold int_room in Hroom.
    destruct (m !! b_value b) as [[| | |i]|] eqn:Emv; try contradiction.
    pose proof (update_bind_eq (b_kaddr b) (b_value b) e m i d Hv He Emv Hme
                  Hroom) as Hcall.
    set (m1 := <[b_value b := OInt (i + d)]> m) in *.
    destruct (IH m1) as (m' & Hrun & Hupd & Hrest); try assumption.
    { unfold m1. rewrite lookup_insert_ne by congruence. exact Hme. }
    { apply Forall_forall. intros x Hx. rewrite Forall_forall in Hall.
      destruct (Hall x Hx) as [Hxv Hxr]. split; [exact Hxv|].
      apply int_room_insert; [|exact Hxr].
      intros E. apply Hb. rewrite <- E. apply list_elem_of_fmap. eauto. }
    exists m'. split; [|split].
    + simpl. rewrite (bind_Ret _ _ _ _ _ Hcall). exact Hrun.
    + intros p i0 Hp Hmp. rewrite fmap_cons in Hp.
      apply elem_of_cons in Hp as [->|Hp].
      * rewrite Hrest by exact Hb. unfold m1. rewrite lookup_insert_eq.
        congruence.
      * apply Hupd; [exact Hp|]. unfold m1.
        rewrite lookup_insert_ne; [exact Hmp|]. intros E. apply Hb.
        rewrite E. exact Hp.
    + intros a Ha. rewrite fmap_cons, not_elem_of_cons in Ha.
      destruct Ha as [Hab Ha]. rewrite Hrest by exact Ha. unfold m1.
      apply lookup_insert_ne. congruence.
Qed.

(** X10. The traversal of the driver.  On a table whose values are
    pointers to different [int]s of the caller, none of them the [int]
    that [pvExtra] points to, each with room for it, [SymTable_map] with
    [update_bind] returns; every [int] a binding points to has been
    increased by [*pvExtra], once; every other object of the heap, the
    table among them, is as before. *)
Theorem map_update_bind_adds_once (m : mem) t sz l e d fuel :
  table_rep m t sz l ->
  e ≠ NULL ->
  m !! e = Some (OInt d) ->
  NoDup (values l) ->
  e ∉ values l ->
  Forall (fun b => b_value b ≠ NULL ∧ (b_value b ∉ footprint t l)
                   ∧ int_room m d (b_value b)) l ->
  (length l < fuel)%nat ->
  ∃ m',
    SymTable_map fuel t (Some update_bind) e m = Ret tt m'
    ∧ (∀ p i, p ∈ values l -> m !! p = Some (OInt i) ->
              m' !! p = Some (OInt (i + d)))
    ∧ (∀ a, a ∉ values l -> m' !! a = m !! a)
    ∧ table_rep m' t sz l.
Proof.
  intros Hrep He Hme Hnd Hev Hall Hfuel.
  assert (leaves_alone update_bind e l (footprint t l)) as Hf.
  { apply update_bind_leaves_alone. eapply Forall_impl; [exact Hall|].
    simpl. tauto. }
  rewrite (SymTable_map_spec m t sz l update_bind e fuel Hrep Hf Hfuel).
  destruct (for_each_update_bind e d l He m Hme Hnd Hev)
    as (m' & Hrun & Hupd & Hrest).
  { eapply Forall_impl; [exact Hall|]. simpl. tauto. }
  exists m'. split; [exact Hrun|]. split; [exact Hupd|]. split; [exact Hrest|].
  eapply table_rep_frame; [exact Hrep|].
  eapply (for_each_frame update_bind e (footprint t l) l l); eauto.
Qed.

Lemma map_update_bind_adds_once_witness :
  ∃ m',
    SymTable_map 3 session_table (Some update_bind) 12%N session_heap
    = Ret tt m'
    ∧ (∀ p i, p ∈ values session_chain -> session_heap !! p = Some (OInt i) ->
              m' !! p = Some (OInt (i + 2)))
    ∧ (∀ a, a ∉ values session_chain -> m' !! a = session_heap !! a)
    ∧ table_rep m' session_table 2 session_chain.
Proof.
  apply (map_update_bind_adds_once session_heap session_table 2 session_chain
           12%N 2 3).
  - decide_it.
  - discriminate.
  - reflexivity.
  - decide_it.
  - decide_it.
  - decide_it.
  - simpl. lia.
Defined.

(** The objects of a table are not [int]s: a pointer to an [int] with
    room leads outside the table. *)
Lemma chain_not_int (m : mem) l a i :
  chain m l -> a ∈ addrs l -> m !! a ≠ Some (OInt i).
Proof.
  induction l as [|b l IH]; simpl.
  - intros _ Hin. apply elem_of_addrs_nil in Hin. contradiction.
  - intros (Ha & Hk & Hb & Hc & Hz & Hl) Hin.
    apply elem_of_addrs_cons in Hin as [->|[->|Hin']].
    + rewrite Hb. discriminate.
    + rewrite Hc. discriminate.
    + apply IH; assumption.
Qed.

Lemma int_room_outside_chain (m : mem) l d p :
  chain m l -> int_room m d p -> p ∉ addrs l.
Proof.
  intros Hc Hroom Hin. unfold int_room in Hroom.
  destruct (m !! p) as [[| | |i]|] eqn:E; try contradiction.
  exact (chain_not_int m l p i Hc Hin E).
Qed.

(** The loop of [SymTable_map] on the first bindings of a chain: as long
    as the calls for them leave the chain alone, the loop makes those calls
    and goes on at the binding that follows, whatever the callback does
    from there. *)
Lemma map_loop_prefix f e pre rest :
  ∀ (m : mem) fuel,
    chain m (pre ++ rest) ->
    leaves_alone f e pre (addrs (pre ++ rest)) ->
    map_loop (length pre + fuel) (head_addr (pre ++ rest)) f e m
    = (for_each pre f e ;; map_loop fuel (head_addr rest) f e) m.
Proof.
  induction pre as [|b pre IH]; intros m fuel Hc Hf.
  - reflexivity.
  - pose proof Hc as Hc'. simpl in Hc'.
    destruct Hc' as (Ha & Hk & Hb & Hck & Hz & Hl).
    simpl. rewrite (nonnull_true _ Ha).
    rewrite (bind_Ret _ _ _ _ _ (load_abind_eq m _ _ Ha Hb)). simpl.
    unfold bind.
    destruct (f (b_kaddr b) (b_value b) e m) as [[] m2| | |] eqn:Ef;
      try reflexivity.
    assert (∀ a, a ∈ addrs ((b :: pre) ++ rest) -> m2 !! a = m !! a) as Hfr.
    { intros a Hin. eapply Hf; [|exact Ef|exact Hin]. apply elem_of_cons. tauto. }
    pose proof (chain_frame m m2 ((b :: pre) ++ rest) Hc Hfr) as Hc2.
    simpl in Hc2. destruct Hc2 as (_ & _ & Hb2 & _ & _ & Hl2).
    rewrite (load_abind_eq m2 _ _ Ha Hb2). simpl.
    rewrite (IH m2 fuel Hl2); [reflexivity|].
    intros b' Hb' m1 m1' Hrun a Hin.
    eapply Hf; [|exact Hrun|].
    + apply elem_of_cons. tauto.
    + simpl. apply elem_of_addrs_cons. tauto.
Qed.

(** X11. A binding with the null pointer as value stops the driver's
    traversal.  Let the chain be [pre ++ x :: post], where the values of
    [pre] are pointers to different [int]s, none of them the [int] that
    [pvExtra] points to, each with room for it, and [x] holds [NULL].
    Then [SymTable_map] with [update_bind] aborts, on the assertion of
    [update_bind] in the call for [x], whatever the bindings of [post]
    hold.  [SymTable_put] accepts such a value; this callback does not. *)
Theorem map_update_bind_aborts_on_null_value (m : mem) t sz pre x post e d fuel :
  table_rep m t sz (pre ++ x :: post) ->
  b_value x = NULL ->
  e ≠ NULL ->
  m !! e = Some (OInt d) ->
  NoDup (values pre) ->
  e ∉ values pre ->
  Forall (fun b => b_value b ≠ NULL ∧ int_room m d (b_value b)) pre ->
  (length pre < fuel)%nat ->
  SymTable_map fuel t (Some update_bind) e m = Abort.
Proof.
  intros (Ht & Hm & Hc & _) Hx He Hme Hnd Hev Hpre Hfuel.
  unfold SymTable_map.
  rewrite (nonnull_true _ Ht). simpl. unfold bind at 1, ret at 1.
  rewrite (bind_Ret _ _ _ _ _ (load_SymTable_eq m t _ Ht Hm)). simpl.
  replace fuel with (length pre + S (fuel - S (length pre)))%nat by lia.
  rewrite map_loop_prefix; [|exact Hc|].
  - destruct (for_each_update_bind e d pre He m Hme Hnd Hev Hpre)
      as (m1 & Hrun & _ & Hrest).
    rewrite (bind_Ret _ _ _ _ _ Hrun).
    apply chain_app_r in Hc. simpl in Hc.
    destruct Hc as (Ha & _ & Hb & _).
    assert (m1 !! b_addr x = m !! b_addr x) as Hsame.
    { apply Hrest. intros Hin. unfold values in Hin.
      apply list_elem_of_fmap in Hin as (b & Hbx & Hin).
      rewrite Forall_forall in Hpre. destruct (Hpre b Hin) as [_ Hroom].
      unfold int_room in Hroom. rewrite <- Hbx, Hb in Hroom. exact Hroom. }
    rewrite <- Hsame in Hb.
    simpl. rewrite (nonnull_true _ Ha).
    rewrite (bind_Ret _ _ _ _ _ (load_abind_eq m1 _ _ Ha Hb)). simpl.
    rewrite Hx. reflexivity.
  - apply update_bind_leaves_alone. apply Forall_forall. intros b Hin.
    rewrite Forall_forall in Hpre. destruct (Hpre b Hin) as [_ Hroom].
    exact (int_room_outside_chain m _ d _ Hc Hroom).
Qed.

Lemma map_update_bind_aborts_on_null_value_witness :
  SymTable_map 2 session_table (Some update_bind) 12%N
    (<[14%N := OBind (mk_abind 15%N session_table NULL)]> null_heap)
  = Abort.
Proof.
  apply (map_update_bind_aborts_on_null_value
           (<[14%N := OBind (mk_abind 15%N session_table NULL)]> null_heap)
           session_table 3
           [mk_binding 18%N 19%N (String.list_ascii_of_string "b") 11%N]
           (mk_binding 16%N 17%N (String.list_ascii_of_string "c") NULL)
           [mk_binding 14%N 15%N (String.list_ascii_of_string "a")
              session_table]
           12%N 2 2).
  - decide_it.
  - reflexivity.
  - discriminate.
  - reflexivity.
  - decide_it.
  - decide_it.
  - decide_it.
  - simpl. lia.
Defined.

(** On the heap of the session with ["c"] bound to [NULL]: the [int] of
    ["b"] is reached, the call for ["c"] aborts. *)
Example null_heap_map :
  SymTable_map 4 session_table (Some update_bind) 12%N null_heap = Abort
  ∧ for_each (take 1 null_chain) update_bind 12%N null_heap
    = Ret tt (<[11%N := OInt 10]> null_heap).
Proof. split; vm_compute; reflexivity. Qed.

(** The heap with the null value is what the library builds from the calls
    that bind ["a"], then ["c"] to [NULL], then ["b"]. *)
Example null_heap_run :
  (do t <- SymTable_new bump;
   SymTable_put bump 4 t (Some (str "a")) 10%N ;;
   SymTable_put bump 4 t (Some (str "c")) NULL ;;
   SymTable_put bump 4 t (Some (str "b")) 11%N ;;
   ret t) caller_heap
  = Ret session_table null_heap
  ∧ table_rep null_heap session_table 3 null_chain.
Proof. split; [vm_compute; reflexivity | decide_it]. Qed.

(** ** Binding a key anew *)

(** X12. The way to give a bound key another value: on a table with
    pairwise different keys and an allocator that has memory,
    [SymTable_remove] of a bound key followed by [SymTable_put] of the same
    key with [v] returns 1 both times; afterwards the key is bound to [v],
    in a new binding at the head of the chain, the other bindings follow
    in the order they had, the keys are still pairwise different and the
    count is what it was. *)
Theorem remove_then_put_rebinds malloc (m : mem) t sz l k n v fuel :
  allocator_sound malloc ->
  (∀ (m : mem) size, malloc m size ≠ NULL) ->
  table_rep m t sz l ->
  NoDup (keys l) ->
  1 <= sz < UINT_MODULUS ->
  strlen k = Some n ->
  cstring k ∈ keys l ->
  (length l < fuel)%nat ->
  ∃ m' pre x post nb nk,
    l = pre ++ x :: post ∧ b_key x = cstring k
    ∧ (do r1 <- SymTable_remove fuel t (Some k);
       do r2 <- SymTable_put malloc fuel t (Some k) v;
       ret (r1, r2)) m
      = Ret (1, 1) m'
    ∧ table_rep m' t sz (mk_binding nb nk (cstring k) v :: pre ++ post)
    ∧ NoDup (keys (mk_binding nb nk (cstring k) v :: pre ++ post))
    ∧ SymTable_get fuel t (Some k) m' = Ret v m'
    ∧ SymTable_getLength t m' = Ret sz m'.
Proof.
  intros Hsound Htotal Hrep Hnd Hsz Hn Hin Hfuel.
  destruct (find_binding_split (cstring k) l) as (pre & x & post & E).
  { intros Hnone. apply find_binding_None in Hnone. contradiction. }
  pose proof (SymTable_remove_spec m t sz l k n fuel Hrep Hn Hfuel) as Hrem.
  unfold remove_outcome in Hrem. rewrite E in Hrem. simpl in Hrem.
  apply split_key_Some in E as (-> & Hx & Hpre & _ & _).
  pose proof (unlink_heap_rep m t sz pre x post Hrep) as Hrep1.
  destruct (NoDup_keys_middle pre x post Hnd) as [Hnd1 Hgone].
  rewrite Hx in Hgone.
  set (m1 := unlink_heap m t sz pre x post) in *.
  assert (length (pre ++ post) < fuel)%nat as Hfuel1.
  { rewrite length_app in *. simpl in Hfuel. lia. }
  pose proof Hgone as Hfind. apply find_binding_None in Hfind.
  set (nb := malloc m1 sizeof_abind).
  set (nk := malloc (<[nb := OBind (mk_abind NULL NULL NULL)]> m1)
               ((Z.of_nat n + 1) * sizeof_char)).
  pose proof (put_absent malloc m1 t _ _ k n v fuel Hrep1 Hn Hfuel1
                Hsound Hfind (Htotal _ _) (Htotal _ _)) as Hput.
  pose proof (put_heap_rep malloc m1 t _ _ k n v Hrep1 Hn Hsound
                (Htotal _ _) (Htotal _ _)) as Hrep2.
  fold nb nk in Hput, Hrep2.
  rewrite uint_succ in Hrep2. replace (sz - 1 + 1) with sz in Hrep2 by lia.
  rewrite (uint_small sz) in Hrep2 by lia.
  exists (put_heap m1 t (uint (sz - 1)) (head_addr (pre ++ post)) nb nk k v),
    pre, x, post, nb, nk.
  split; [reflexivity|]. split; [exact Hx|]. split; [|split; [exact Hrep2|split]].
  - rewrite (bind_Ret _ _ _ _ _ Hrem), (bind_Ret _ _ _ _ _ Hput). reflexivity.
  - unfold keys. rewrite fmap_cons. apply NoDup_cons. split; assumption.
  - split; [|eapply SymTable_getLength_spec; exact Hrep2].
    rewrite (SymTable_get_spec _ t _ _ k n fuel Hrep2 Hn).
    + unfold get_result. simpl.
      destruct (decide (cstring k = cstring k)); [reflexivity | contradiction].
    + simpl. rewrite length_app in *. simpl in Hfuel. lia.
Qed.

Lemma remove_then_put_rebinds_witness :
  ∃ m' pre x post nb nk,
    session_chain = pre ++ x :: post ∧ b_key x = cstring (str "a")
    ∧ (do r1 <- SymTable_remove 3 session_table (Some (str "a"));
       do r2 <- SymTable_put bump 3 session_table (Some (str "a")) 12%N;
       ret (r1, r2)) session_heap
      = Ret (1, 1) m'
    ∧ table_rep m' session_table 2
        (mk_binding nb nk (cstring (str "a")) 12%N :: pre ++ post)
    ∧ NoDup (keys (mk_binding nb nk (cstring (str "a")) 12%N :: pre ++ post))
    ∧ SymTable_get 3 session_table (Some (str "a")) m' = Ret 12%N m'
    ∧ SymTable_getLength session_table m' = Ret 2 m'.
Proof.
  apply (remove_then_put_rebinds bump session_heap session_table 2
           session_chain (str "a") 1 12%N 3).
  - exact bump_sound.
  - exact bump_nonnull.
  - decide_it.
  - decide_it.
  - unfold UINT_MODULUS. lia.
  - reflexivity.
  - decide_it.
  - simpl. lia.
Defined.

(** On the session: ["a"] moves from the end of the chain to its head. *)
Example rebind_session_a :
  (SymTable_remove 3 session_table (Some (str "a")) ;;
   SymTable_put bump 3 session_table (Some (str "a")) 12%N ;;
   SymTable_get 3 session_table (Some (str "a"))) session_heap
  = Ret 12%N
      (<[13%N := OSymTable (mk_SymTable 2 18%N)]>
         (<[18%N := OBind (mk_abind 19%N 12%N 16%N)]>
            (<[19%N := OChars (str "a")]>
               (<[16%N := OBind (mk_abind 17%N 11%N NULL)]>
                  (<[17%N := OChars (str "b")]> caller_heap))))).
Proof. vm_compute. reflexivity. Qed.

(** ** What the calls keep *)

(** X13. What the calls keep.  For every table reached from
    [SymTable_new] by calls of [SymTable_put] and [SymTable_remove]: the
    heap holds a well-formed chain at the table and no two of its bindings
    have equal keys, however many they are; the stored count, which
    [SymTable_getLength] returns, is the [unsigned int] that was increased
    and decreased once per binding, the number of bindings modulo [2^32],
    and so the number of bindings itself as long as the chain has fewer
    than [2^32] of them. *)
Theorem count_and_keys_invariant malloc t ops (m : mem) :
  allocator_sound malloc ->
  reach malloc t ops m ->
  ∃ l sz,
    table_rep m t sz l
    ∧ NoDup (keys l)
    ∧ SymTable_getLength t m = Ret sz m
    ∧ sz = Z.of_nat (length l) mod 2 ^ 32
    ∧ (Z.of_nat (length l) < 2 ^ 32 -> sz = Z.of_nat (length l)).
Proof.
  intros Hsound Hreach.
  destruct (reach_inv malloc t ops m Hsound Hreach) as (l & Hrep & Hnd & _).
  exists l, (uint (Z.of_nat (length l))).
  split; [exact Hrep|]. split; [exact Hnd|].
  split; [eapply SymTable_getLength_spec; exact Hrep|].
  split; [reflexivity|].
  intros Hlt. apply uint_small. unfold UINT_MODULUS. lia.
Qed.

Lemma count_and_keys_invariant_witness :
  ∃ l sz,
    table_rep session_final session_table sz l
    ∧ NoDup (keys l)
    ∧ SymTable_getLength session_table session_final = Ret sz session_final
    ∧ sz = Z.of_nat (length l) mod 2 ^ 32
    ∧ (Z.of_nat (length l) < 2 ^ 32 -> sz = Z.of_nat (length l)).
Proof.
  apply (count_and_keys_invariant bump session_table session_ops session_final).
  - exact bump_sound.
  - exact session_reach.
Defined.

(** ** Traversal with any callback *)

(** X14. Let [t] be a table built by the library, with chain [l], and [f]
    a non-null callback that, called on the bindings of [t], leaves the
    objects of the table alone.  [SymTable_map] makes exactly the calls
    [f(key, value, pvExtra)] for the bindings of the chain, one each, in
    chain order from the head, every one with the [pvExtra] it was given;
    call by call they are given the keys and values of the bindings
    inserted and not removed since, the last inserted first; as long as
    the chain has fewer than [2^32] bindings their number is the count
    [SymTable_getLength] returns; [SymTable_map] returns when every call
    returns on the heaps that come up; and when it has returned the table,
    its count and its chain are as before. *)
Theorem map_visits_every_binding malloc t ops (m : mem) sz l f e fuel :
  allocator_sound malloc ->
  reach malloc t ops m ->
  table_rep m t sz l ->
  leaves_alone f e l (footprint t l) ->
  (length l < fuel)%nat ->
  SymTable_map fuel t (Some f) e m = run_calls f (calls_of l e) m
  ∧ Forall2 (call_of_entry m e) (calls_of l e) (reverse (insertion_order ops))
  ∧ (Z.of_nat (length l) < UINT_MODULUS ->
     SymTable_getLength t m = Ret (Z.of_nat (length (calls_of l e))) m)
  ∧ (∀ I : mem -> Prop,
       I m ->
       (∀ b, b ∈ l -> ∀ m1 : mem, I m1 ->
             ∃ m2, f (b_kaddr b) (b_value b) e m1 = Ret tt m2 ∧ I m2) ->
       ∃ m', SymTable_map fuel t (Some f) e m = Ret tt m' ∧ I m')
  ∧ (∀ m', SymTable_map fuel t (Some f) e m = Ret tt m' ->
       table_rep m' t sz l
       ∧ SymTable_getLength t m' = Ret sz m'
       ∧ ∀ a, a ∈ footprint t l -> m' !! a = m !! a).
Proof.
  intros Hsound Hreach Hrep Hf Hfuel.
  destruct (reach_inv malloc t ops m Hsound Hreach) as (l0 & Hrep0 & _ & Hent).
  destruct (table_rep_functional _ _ _ _ _ _ Hrep Hrep0) as [Hsz <-].
  pose proof (SymTable_map_spec m t _ l f e fuel Hrep Hf Hfuel) as Hrun.
  rewrite for_each_calls in Hrun.
  split; [exact Hrun|]. split; [|split; [|split]].
  - rewrite <- Hent. apply calls_entries. destruct Hrep as (_ & _ & Hc & _).
    exact Hc.
  - intros Hlt. unfold calls_of. rewrite length_fmap.
    rewrite <- (uint_small (Z.of_nat (length l))) by lia. rewrite <- Hsz.
    eapply SymTable_getLength_spec. exact Hrep.
  - intros I Hm Hret. rewrite Hrun. apply run_calls_returns; assumption.
  - intros m' Hm'. rewrite Hrun, <- for_each_calls in Hm'.
    assert (∀ a, a ∈ footprint t l -> m' !! a = m !! a) as Hfr.
    { eapply (for_each_frame f e (footprint t l) l l); eauto. }
    pose proof (table_rep_frame m m' t _ l Hrep Hfr) as Hrep'.
    split; [exact Hrep'|]. split; [|exact Hfr].
    eapply SymTable_getLength_spec. exact Hrep'.
Qed.

Lemma map_visits_every_binding_witness :
  SymTable_map 3 session_table (Some update_bind) 12%N session_heap
  = run_calls update_bind [(17%N, 11%N, 12%N); (15%N, 10%N, 12%N)] session_heap
  ∧ Forall2 (call_of_entry session_heap 12%N)
      [(17%N, 11%N, 12%N); (15%N, 10%N, 12%N)]
      (reverse (insertion_order session_puts))
  ∧ (Z.of_nat (length session_chain) < UINT_MODULUS ->
     SymTable_getLength session_table session_heap = Ret 2 session_heap)
  ∧ (∀ I : mem -> Prop,
       I session_heap ->
       (∀ b, b ∈ session_chain -> ∀ m1 : mem, I m1 ->
             ∃ m2, update_bind (b_kaddr b) (b_value b) 12%N m1 = Ret tt m2
                   ∧ I m2) ->
       ∃ m', SymTable_map 3 session_table (Some update_bind) 12%N session_heap
             = Ret tt m' ∧ I m')
  ∧ (∀ m', SymTable_map 3 session_table (Some update_bind) 12%N session_heap
           = Ret tt m' ->
       table_rep m' session_table 2 session_chain
       ∧ SymTable_getLength session_table m' = Ret 2 m'
       ∧ ∀ a, a ∈ footprint session_table session_chain ->
              m' !! a = session_heap !! a).
Proof.
  apply (map_visits_every_binding bump session_table session_puts session_heap
           2 session_chain update_bind 12%N 3).
  - exact bump_sound.
  - exact session_heap_reach.
  - decide_it.
  - apply update_bind_leaves_alone. decide_it.
  - simpl. lia.
Defined.
